(** * webpack-extract-translation-keys-regex: key generator and extraction plugin

    A shallow embedding of [key-generator.js] and of the plugin
    ([ExtractTranslationRegexPlugin], [filterModule], [ensureRegExp],
    [sanitizeForRegexp], [flipObject], [getKeyIndexFromMatch]) together with
    the properties of the natural-language specification.

    Conventions.
    - A JavaScript Number that holds an integer is a [Z].  All arithmetic the
      program performs on such numbers is exact below [2^53]; the places where
      the program leaves the integers ([x | 0], [index++] at [2^53]) are
      written out.
    - A JavaScript string is a [string]; a value that is either a string or
      [undefined] is an [option string].
    - Loops that are not bounded by a data structure take a [fuel] argument
      that bounds the number of iterations; [None] / [OutOfFuel] means that
      the bound was reached. *)

From Stdlib Require Import ZArith List String Ascii Bool Lia PeanoNat DecimalString
  Permutation.
Import ListNotations.

Local Open Scope string_scope.
Local Open Scope Z_scope.

(* ================================================================== *)
(** * Part I: definitions                                              *)
(* ================================================================== *)

(** ** key-generator.js *)

Module KeyGenerator.

(** [if (!(i >= 58 && i <= 64) && !(i >= 91 && i <= 96))] *)
Definition alphanumeric (i : nat) : bool :=
  (negb ((58 <=? i) && (i <=? 64)) && negb ((91 <=? i) && (i <=? 96)))%nat.

(** [for (var i = 48; i <= 122; ++i) { if (...) alphabet.push(String.fromCharCode(i)) }] *)
Definition alphabet : list ascii :=
  map ascii_of_nat (filter alphanumeric (seq 48 75)).

(** [alphabet.length] *)
Definition alphabet_length : Z := Z.of_nat (List.length alphabet).

(** [x | 0]: ToInt32, the value is reduced modulo [2^32] into
    [-2^31 .. 2^31 - 1]. *)
Definition toInt32 (x : Z) : Z := (x + 2 ^ 31) mod 2 ^ 32 - 2 ^ 31.

(** [alphabet[k]] for an integral Number [k]: the element when
    [0 <= k < alphabet.length], [undefined] otherwise (a negative [k] names
    a property the array does not have). *)
Definition alphabetAt (k : Z) : option ascii :=
  if k <? 0 then None else nth_error alphabet (Z.to_nat k).

(** [alphabet[...] + key]: [undefined] is converted to the text
    "undefined" by string concatenation. *)
Definition concatKey (e : option ascii) (key : string) : string :=
  match e with
  | Some c => String c key
  | None => "undefined" ++ key
  end.

(** The [do { ... } while (remainder)] loop.  [remainder % alphabet.length]
    has the sign of the dividend ([Z.rem]); [remainder / alphabet.length]
    is truncated by [| 0], which on a quotient of integers below [2^53] is
    [toInt32] of the quotient rounded toward zero ([Z.quot]). *)
Fixpoint doWhile (fuel : nat) (remainder : Z) (key : string) : option string :=
  match fuel with
  | O => None
  | S fuel' =>
      let key' := concatKey (alphabetAt (Z.rem remainder alphabet_length)) key in
      let remainder' := toInt32 (Z.quot remainder alphabet_length) in
      if remainder' =? 0 then Some key' else doWhile fuel' remainder' key'
  end.

(** The state of one generator object: the local variable [index]. *)
Record generator : Type := { index : Z }.

(** [index++] on a Number: exact up to [2^53], where adding one no longer
    changes the value. *)
Definition increment (i : Z) : Z := if i <? 2 ^ 53 then i + 1 else i.

(** [exports.create = function *() { var index = 0; ... }] *)
Definition create : generator := {| index := 0 |}.

(** One [generator.next()]: runs the body of [while (true)] up to [yield]
    and gives the yielded key and the advanced generator. *)
Definition next (fuel : nat) (g : generator) : option (string * generator) :=
  match doWhile fuel (index g) "" with
  | Some key => Some (key, {| index := increment (index g) |})
  | None => None
  end.

(** The generator after [n] calls of [next]. *)
Fixpoint advance (fuel : nat) (n : nat) (g : generator) : option generator :=
  match n with
  | O => Some g
  | S n' =>
      match next fuel g with
      | Some (_, g') => advance fuel n' g'
      | None => None
      end
  end.

(** The [n]-th string yielded by a fresh generator, counting from 0. *)
Definition nthKey (fuel : nat) (n : nat) : option string :=
  match advance fuel n create with
  | Some g => option_map fst (next fuel g)
  | None => None
  end.

(** *** The specification's base-62 representation

    The digits, in the specification's words: the ASCII digits, the
    uppercase letters and the lowercase letters, in code-point order. *)
Definition specAlphabet : string :=
  "0123456789ABCDEFGHIJKLMNOPQRSTUVWXYZabcdefghijklmnopqrstuvwxyz".

Fixpoint positionIn (c : ascii) (digits : string) : option Z :=
  match digits with
  | EmptyString => None
  | String d rest =>
      if Ascii.eqb c d then Some 0 else option_map Z.succ (positionIn c rest)
  end.

(** The value of a digit: its position in the alphabet. *)
Definition digitValue (c : ascii) : option Z := positionIn c specAlphabet.

(** Value of a digit string, most-significant digit first, on top of the
    value [acc] of the digits already read. *)
Fixpoint decodeFrom (acc : Z) (s : string) : option Z :=
  match s with
  | EmptyString => Some acc
  | String c rest =>
      match digitValue c with
      | Some d => decodeFrom (acc * 62 + d) rest
      | None => None
      end
  end.

Definition decode (s : string) : option Z :=
  match s with
  | EmptyString => None
  | _ => decodeFrom 0 s
  end.

(** No leading zero digit beyond the minimum: the single digit "0", or a
    string whose first digit is not the zero digit. *)
Definition canonical (s : string) : Prop :=
  s = "0" \/ exists c rest, s = String c rest /\ c <> "0"%char.

(** [s] is the base-62 positional representation of [n]. *)
Definition base62 (n : Z) (s : string) : Prop :=
  decode s = Some n /\ canonical s.

(** Every index below 62 selects a character whose digit value is that
    index (checked by evaluation over the 62 indices). *)
Definition digitOk (d : Z) : bool :=
  match alphabetAt d with
  | Some c => match digitValue c with Some d' => d =? d' | None => false end
  | None => false
  end.

(** The first index whose quotient by 62 no longer fits 32 bits. *)
Definition firstWrappedIndex : Z := 62 * 2 ^ 31.

End KeyGenerator.

(** ** The fragment of the JavaScript library the plugin relies on

    Strings are sequences of 8-bit code units.  A regular expression is kept
    in parsed form; the fragment covers what the plugin's own patterns, the
    patterns of its documentation and the patterns it builds at run time are
    made of.  Matching is the backtracking semantics of the language
    standard: [matchRe] lists the end states of all ways to match, most
    preferred first, so the head of the list is the match the engine
    reports. *)

Module JS.

(** *** Strings *)

Fixpoint take (n : nat) (s : string) : string :=
  match n, s with
  | S n', String c s' => String c (take n' s')
  | _, _ => EmptyString
  end.

Fixpoint drop (n : nat) (s : string) : string :=
  match n, s with
  | S n', String _ s' => drop n' s'
  | _, _ => s
  end.

(** [s.substring(from, to)] for [from <= to]. *)
Definition slice (from to : nat) (s : string) : string :=
  take (to - from) (drop from s).

Definition code (c : ascii) : nat := nat_of_ascii c.

Definition inRange (lo hi c : ascii) : bool :=
  ((code lo <=? code c) && (code c <=? code hi))%nat.

Definition isDigit (c : ascii) : bool := inRange "0" "9" c.

Definition isLineTerminator (c : ascii) : bool :=
  ((code c =? 10) || (code c =? 13))%nat.

(** The upper-case form by which the flag i compares code units.  Among
    the code units below 256, the letters [a]-[z] and the letters with the
    codes 224 to 254 other than 247 have their upper-case form 32 below.
    Every other code unit is compared as it is: the upper-case forms of 181
    and 255 are code units above 255 that no other code unit below 256
    shares, and that of 223 is not one code unit. *)
Definition toUpper (c : ascii) : ascii :=
  if inRange "a" "z" c
     || (inRange (ascii_of_nat 224) (ascii_of_nat 254) c
         && negb (code c =? 247)%nat)
  then ascii_of_nat (code c - 32) else c.

(** The code unit below 256 whose upper-case form [c] is, if [c] is the
    upper-case form of another one. *)
Definition toLower (c : ascii) : ascii :=
  if inRange "A" "Z" c
     || (inRange (ascii_of_nat 192) (ascii_of_nat 222) c
         && negb (code c =? 215)%nat)
  then ascii_of_nat (code c + 32) else c.

(** [String(i)] for a non-negative integer. *)
Definition numberToString (i : nat) : string :=
  NilEmpty.string_of_uint (Nat.to_uint i).

(** *** Regular expressions *)

Inductive regex : Type :=
| Empty                                       (* the empty pattern *)
| Chr (c : ascii)                             (* a literal character *)
| AnyChar                                     (* .        *)
| Class (negated : bool) (ranges : list (ascii * ascii))  (* [...] and [^...] *)
| Seq (r1 r2 : regex)
| Alt (r1 r2 : regex)                         (* r1|r2    *)
| Star (greedy : bool) (r : regex)            (* r* r*?   *)
| Plus (greedy : bool) (r : regex)            (* r+ r+?   *)
| Opt (greedy : bool) (r : regex)             (* r? r??   *)
| Group (r : regex)                           (* (r), capturing; (?:r) is r itself *)
| Bol                                         (* ^        *)
| Eol                                         (* $        *)
| NotAhead (r : regex).                       (* (?!r)    *)

(** A RegExp object without its [lastIndex], which the functions below
    take and return explicitly. *)
Record RegExp : Type := {
  source : regex;
  global : bool;
  ignoreCase : bool;
  multiline : bool
}.

(** The text [s] as a pattern. *)
Fixpoint literal (s : string) : regex :=
  match s with
  | EmptyString => Empty
  | String c rest => Seq (Chr c) (literal rest)
  end.

(** [\s] *)
Definition whiteSpace : list (ascii * ascii) :=
  [ (ascii_of_nat 9, ascii_of_nat 13); (" "%char, " "%char);
    (ascii_of_nat 160, ascii_of_nat 160) ].

(** Number of capturing groups. *)
Fixpoint groupCount (r : regex) : nat :=
  match r with
  | Seq r1 r2 | Alt r1 r2 => groupCount r1 + groupCount r2
  | Star _ r1 | Plus _ r1 | Opt _ r1 | NotAhead r1 => groupCount r1
  | Group r1 => S (groupCount r1)
  | _ => O
  end.

(** The state of a match in progress: the position reached and the
    captures, [captures[i]] being capturing group [i+1]. *)
Record mstate : Type := {
  endIndex : nat;
  captures : list (option string)
}.

Fixpoint setCapture (i : nat) (v : option string) (caps : list (option string))
  : list (option string) :=
  match caps with
  | [] => []
  | c :: rest =>
      match i with
      | O => v :: rest
      | S i' => c :: setCapture i' v rest
      end
  end.

(** Captures [from .. from+count-1] become undefined. *)
Fixpoint clearCaptures (from count : nat) (caps : list (option string))
  : list (option string) :=
  match count with
  | O => caps
  | S count' => setCapture from None (clearCaptures (S from) count' caps)
  end.

(** Repetition with minimum 0: every iteration starts from the state
    [body] is given, an iteration that consumes nothing is rejected, and
    the greedy form prefers one more iteration.  An iteration consumes at
    least one character, so [fuel] above the length of the input is never
    used up. *)
Fixpoint iterate (body : mstate -> list mstate) (greedy : bool)
         (fuel : nat) (st : mstate) : list mstate :=
  match fuel with
  | O => [st]
  | S fuel' =>
      let more :=
        flat_map (fun st' => if (endIndex st' =? endIndex st)%nat then []
                             else iterate body greedy fuel' st')
                 (body st) in
      if greedy then more ++ [st] else st :: more
  end.

Section Matcher.
Variable input : string.
Variables ic ml : bool.      (* the flags i and m *)

Definition canonicalize (c : ascii) : ascii := if ic then toUpper c else c.

(** Is some member of the ranges equal to [c] up to [canonicalize]? *)
Definition inClass (ranges : list (ascii * ascii)) (c : ascii) : bool :=
  existsb (fun '(lo, hi) =>
             inRange lo hi c
             || (ic && (inRange lo hi (toUpper c) || inRange lo hi (toLower c))))
          ranges.

(** Consume one character that satisfies [p]. *)
Definition consume (p : ascii -> bool) (st : mstate) : list mstate :=
  match String.get (endIndex st) input with
  | Some c =>
      if p c then [ {| endIndex := S (endIndex st); captures := captures st |} ]
      else []
  | None => []
  end.

Definition atLineStart (i : nat) : bool :=
  match i with
  | O => true
  | S j => ml && match String.get j input with
                 | Some c => isLineTerminator c
                 | None => false
                 end
  end.

Definition atLineEnd (i : nat) : bool :=
  match String.get i input with
  | None => true
  | Some c => ml && isLineTerminator c
  end.

(** [matchRe r base st]: the end states of the matches of [r] from [st],
    where [base] capturing groups open to the left of [r]. *)
Fixpoint matchRe (r : regex) (base : nat) (st : mstate) {struct r} : list mstate :=
  match r with
  | Empty => [st]
  | Chr c => consume (fun x => Ascii.eqb (canonicalize x) (canonicalize c)) st
  | AnyChar => consume (fun x => negb (isLineTerminator x)) st
  | Class negated ranges => consume (fun x => xorb negated (inClass ranges x)) st
  | Seq r1 r2 =>
      flat_map (matchRe r2 (base + groupCount r1)) (matchRe r1 base st)
  | Alt r1 r2 =>
      matchRe r1 base st ++ matchRe r2 (base + groupCount r1) st
  | Star greedy r1 =>
      iterate (fun s0 => matchRe r1 base
                 {| endIndex := endIndex s0;
                    captures := clearCaptures base (groupCount r1) (captures s0) |})
              greedy (S (String.length input)) st
  | Plus greedy r1 =>
      flat_map
        (iterate (fun s0 => matchRe r1 base
                    {| endIndex := endIndex s0;
                       captures := clearCaptures base (groupCount r1) (captures s0) |})
                 greedy (S (String.length input)))
        (matchRe r1 base
           {| endIndex := endIndex st;
              captures := clearCaptures base (groupCount r1) (captures st) |})
  | Opt greedy r1 =>
      let once :=
        filter (fun st' => negb (endIndex st' =? endIndex st)%nat)
               (matchRe r1 base
                  {| endIndex := endIndex st;
                     captures := clearCaptures base (groupCount r1) (captures st) |}) in
      if greedy then once ++ [st] else st :: once
  | Group r1 =>
      map (fun st' =>
             {| endIndex := endIndex st';
                captures := setCapture base
                              (Some (slice (endIndex st) (endIndex st') input))
                              (captures st') |})
          (matchRe r1 (S base) st)
  | Bol => if atLineStart (endIndex st) then [st] else []
  | Eol => if atLineEnd (endIndex st) then [st] else []
  | NotAhead r1 =>
      match matchRe r1 base st with
      | [] => [st]
      | _ :: _ => []
      end
  end.

End Matcher.

(** The preferred match of the whole pattern that starts at position [i]. *)
Definition matchAt (R : RegExp) (str : string) (i : nat) : option mstate :=
  hd_error (matchRe str (ignoreCase R) (multiline R) (source R) 0
              {| endIndex := i; captures := repeat None (groupCount (source R)) |}).

(** Try the start positions [i], [i+1], ..., [i+steps-1] in turn. *)
Fixpoint search (R : RegExp) (str : string) (steps : nat) (i : nat)
  : option (nat * mstate) :=
  match steps with
  | O => None
  | S steps' =>
      match matchAt R str i with
      | Some st => Some (i, st)
      | None => search R str steps' (S i)
      end
  end.

(** The array a successful [exec] returns: [elements[0]] is the matched
    text, [elements[i]] the capture of group [i] or [undefined]. *)
Record matchArray : Type := {
  index : nat;
  elements : list (option string)
}.

(** [match[i]] for an integral Number [i]. *)
Definition element (m : matchArray) (i : Z) : option string :=
  if i <? 0 then None
  else match nth_error (elements m) (Z.to_nat i) with
       | Some e => e
       | None => None
       end.

(** [match[0]] *)
Definition matched (m : matchArray) : string :=
  match element m 0 with Some s => s | None => EmptyString end.

(** [R.exec(S)] with [R.lastIndex = lastIndex]: the result and the new
    [lastIndex].  Without the flag g the search starts at 0 and
    [lastIndex] is left alone. *)
Definition regExpExec (R : RegExp) (str : string) (lastIndex : nat)
  : option matchArray * nat :=
  let start := if global R then lastIndex else O in
  let failure := (None, if global R then O else lastIndex) in
  if (String.length str <? start)%nat then failure
  else
    match search R str (S (String.length str - start)) start with
    | None => failure
    | Some (i, st) =>
        (Some {| index := i;
                 elements := Some (slice i (endIndex st) str) :: captures st |},
         if global R then endIndex st else lastIndex)
    end.

(** The results of calling [exec] on a global RegExp until it fails, the
    way [match] and [replace] do: after an empty match [lastIndex] is
    advanced by one.  [lastIndex] grows with every call, so [steps] above
    the length of the string plus one is never used up. *)
Fixpoint execAll (R : RegExp) (str : string) (steps : nat) (lastIndex : nat)
  : list matchArray :=
  match steps with
  | O => []
  | S steps' =>
      match regExpExec R str lastIndex with
      | (None, _) => []
      | (Some m, lastIndex') =>
          m :: execAll R str steps'
                 (if (String.length (matched m) =? 0)%nat
                  then S lastIndex' else lastIndex')
      end
  end.

(** [S.match(R)]: the array of [exec] without g, the array of all matched
    texts with g, [None] for [null]. *)
Definition stringMatch (str : string) (R : RegExp) : option (list (option string)) :=
  if global R then
    match execAll R str (String.length str + 2) 0 with
    | [] => None
    | results => Some (map (fun m => Some (matched m)) results)
    end
  else option_map elements (fst (regExpExec R str 0)).

(** The value of a decimal digit. *)
Definition digitOf (c : ascii) : nat := code c - 48.

(** The text of capture [n], empty when the group took no part. *)
Definition captureText (caps : list (option string)) (n : nat) : string :=
  match nth_error caps (n - 1) with
  | Some (Some s) => s
  | _ => EmptyString
  end.

(** The replacement text for one match ([GetSubstitution]): [$$], [$&],
    [$`], [$'] and the group references [$n], [$nn]; a reference to a
    group the pattern does not have stays as it is written. *)
Fixpoint getSubstitution (matchedText str : string) (position : nat)
         (caps : list (option string)) (replacement : string) : string :=
  match replacement with
  | EmptyString => EmptyString
  | String "$" rest =>
      match rest with
      | String "$" rest' =>
          String "$" (getSubstitution matchedText str position caps rest')
      | String "&" rest' =>
          matchedText ++ getSubstitution matchedText str position caps rest'
      | String "`" rest' =>
          take position str ++ getSubstitution matchedText str position caps rest'
      | String "'" rest' =>
          drop (position + String.length matchedText) str
          ++ getSubstitution matchedText str position caps rest'
      | String d1 rest' =>
          let m := List.length caps in
          if isDigit d1 then
            match rest' with
            | String d2 rest'' =>
                let two := (10 * digitOf d1 + digitOf d2)%nat in
                if isDigit d2 && (1 <=? two)%nat && (two <=? m)%nat then
                  captureText caps two
                  ++ getSubstitution matchedText str position caps rest''
                else if (1 <=? digitOf d1)%nat && (digitOf d1 <=? m)%nat then
                  captureText caps (digitOf d1)
                  ++ getSubstitution matchedText str position caps rest'
                else String "$" (getSubstitution matchedText str position caps rest)
            | EmptyString =>
                if (1 <=? digitOf d1)%nat && (digitOf d1 <=? m)%nat then
                  captureText caps (digitOf d1)
                else String "$" (getSubstitution matchedText str position caps rest)
            end
          else String "$" (getSubstitution matchedText str position caps rest)
      | EmptyString => String "$" EmptyString
      end
  | String c rest =>
      String c (getSubstitution matchedText str position caps rest)
  end.

(** Assemble the result of [replace] from the matches, left to right. *)
Fixpoint substitute (str replacement : string) (results : list matchArray)
         (nextSourcePosition : nat) : string :=
  match results with
  | [] => drop nextSourcePosition str
  | m :: rest =>
      if (nextSourcePosition <=? index m)%nat then
        slice nextSourcePosition (index m) str
        ++ getSubstitution (matched m) str (index m) (tl (elements m)) replacement
        ++ substitute str replacement rest (index m + String.length (matched m))
      else substitute str replacement rest nextSourcePosition
  end.

(** [S.replace(R, replacement)] for a string [replacement]. *)
Definition stringReplace (str : string) (R : RegExp) (replacement : string) : string :=
  let results :=
    if global R then execAll R str (String.length str + 2) 0
    else match fst (regExpExec R str 0) with
         | Some m => [m]
         | None => []
         end in
  substitute str replacement results 0.

(** *** [new RegExp(pattern, flags)] on the patterns the plugin builds

    The plugin only ever compiles text in which every syntax character is
    escaped with a backslash; that is the fragment parsed here.  [None]
    stands for any other pattern text. *)
Definition syntaxCharacter (c : ascii) : bool :=
  existsb (Ascii.eqb c) (list_ascii_of_string "^$\.*+?()[]{}|").

Fixpoint parseEscaped (pattern : string) : option regex :=
  match pattern with
  | EmptyString => Some Empty
  | String "\" (String c rest) =>
      if syntaxCharacter c || Ascii.eqb c "-" || Ascii.eqb c "/"
      then option_map (Seq (Chr c)) (parseEscaped rest)
      else None
  | String c rest =>
      if syntaxCharacter c then None
      else option_map (Seq (Chr c)) (parseEscaped rest)
  end.

Definition newRegExp (pattern : string) (g i m : bool) : option RegExp :=
  option_map (fun r => {| source := r; global := g; ignoreCase := i; multiline := m |})
             (parseEscaped pattern).

(** *** Objects used as string-keyed tables

    An object is the list of its own enumerable properties in the order
    [for ... in] visits them: the array indices in ascending order first,
    then the other keys in the order of their creation. *)
Definition object (V : Type) : Type := list (string * V).

Fixpoint digitsValue (acc : Z) (s : string) : option Z :=
  match s with
  | EmptyString => Some acc
  | String c rest =>
      if isDigit c then digitsValue (acc * 10 + Z.of_nat (digitOf c)) rest
      else None
  end.

(** The array index a property key denotes, if any. *)
Definition arrayIndex (k : string) : option Z :=
  match k with
  | EmptyString => None
  | String "0" EmptyString => Some 0
  | String "0" _ => None
  | _ => match digitsValue 0 k with
         | Some v => if v <=? 2 ^ 32 - 2 then Some v else None
         | None => None
         end
  end.

Definition comesBefore (k k' : string) : bool :=
  match arrayIndex k, arrayIndex k' with
  | Some i, Some j => i <? j
  | Some _, None => true
  | None, _ => false
  end.

Section Objects.
Context {V : Type}.

(** [o.hasOwnProperty(k)] *)
Definition hasOwn (o : object V) (k : string) : bool :=
  existsb (fun e => String.eqb k (fst e)) o.

(** The own property [k]. *)
Fixpoint getOwn (o : object V) (k : string) : option V :=
  match o with
  | [] => None
  | (k', v) :: rest => if String.eqb k k' then Some v else getOwn rest k
  end.

Fixpoint insertKey (k : string) (v : V) (o : object V) : object V :=
  match o with
  | [] => [(k, v)]
  | (k', v') :: rest =>
      if comesBefore k k' then (k, v) :: o else (k', v') :: insertKey k v rest
  end.

Fixpoint updateKey (k : string) (v : V) (o : object V) : object V :=
  match o with
  | [] => []
  | (k', v') :: rest =>
      if String.eqb k k' then (k', v) :: rest else (k', v') :: updateKey k v rest
  end.

(** Create or overwrite the own property [k]. *)
Definition defineOwn (o : object V) (k : string) (v : V) : object V :=
  if hasOwn o k then updateKey k v o else insertKey k v o.
End Objects.

(** The property names every object created by [{}] inherits from
    [Object.prototype]. *)
Definition objectPrototype : list string :=
  [ "constructor"; "__defineGetter__"; "__defineSetter__"; "hasOwnProperty";
    "__lookupGetter__"; "__lookupSetter__"; "isPrototypeOf";
    "propertyIsEnumerable"; "toString"; "valueOf"; "__proto__";
    "toLocaleString" ].

(** [k in o] for an object [o] created by [{}]: own or inherited. *)
Definition hasProperty (o : object string) (k : string) : bool :=
  hasOwn o k || existsb (String.eqb k) objectPrototype.

(** [o[k] = v] for a string [v] on an object created by [{}]: the key
    [__proto__] is the inherited accessor, which ignores a string. *)
Definition setProperty (o : object string) (k v : string) : object string :=
  if String.eqb k "__proto__" then o else defineOwn o k v.

(** *** A notion used in the properties of the matcher

    [st'] continues [st]: the position did not go back, there are as many
    captures, and every capture is the one of [st], undefined, or a text
    no longer than the distance covered. *)
Definition continues (st st' : mstate) : Prop :=
  (endIndex st <= endIndex st')%nat /\
  List.length (captures st') = List.length (captures st) /\
  forall g,
    nth_error (captures st') g = nth_error (captures st) g \/
    nth_error (captures st') g = Some None \/
    exists t, nth_error (captures st') g = Some (Some t) /\
              (String.length t <= endIndex st' - endIndex st)%nat.

End JS.

(** ** The plugin *)

Module Plugin.
Import JS.

(** The double quote character. *)
Definition dquote : ascii := "034"%char.

(** [options.functionPattern]: a RegExp object or a string. *)
Inductive pattern : Type :=
| PatternRegExp (R : RegExp)
| PatternString (s : string).

(** [options.groupIndex]: a number or an array of numbers. *)
Inductive groupIndexOption : Type :=
| GroupNumber (i : Z)
| GroupArray (indices : list Z).

(** The options object; [None] is an option that is not given.
    [opt_output] is [Some] when [typeof options.output === 'string'],
    [opt_mangle] is the truthiness of [options.mangle]; the callback [done]
    belongs to the host. *)
Record Options : Type := {
  opt_functionPattern : option pattern;
  opt_functionReplace : option string;
  opt_groupIndex : option groupIndexOption;
  opt_output : option string;
  opt_mangle : bool;
  opt_moduleFilter : option (list RegExp)
}.

(** The fields of the constructed plugin. *)
Record ExtractTranslationRegexPlugin : Type := {
  functionPattern : pattern;
  functionReplace : string;
  groupIndex : list Z;
  output : option string;
  mangle : bool;
  moduleFilter : list RegExp
}.

(** Truthiness of the option values. *)
Definition truthyString (s : option string) : bool :=
  match s with
  | Some (String _ _) => true
  | _ => false
  end.

Definition truthyPattern (p : option pattern) : bool :=
  match p with
  | Some (PatternRegExp _) => true
  | Some (PatternString s) => truthyString (Some s)
  | None => false
  end.

Definition truthyGroupIndex (g : option groupIndexOption) : bool :=
  match g with
  | Some (GroupNumber i) => negb (i =? 0)
  | Some (GroupArray _) => true
  | None => false
  end.

(** The body of a string quoted with [q]: any run of characters other than
    [q] and the backslash, with backslash-escaped characters in between. *)
Definition quotedBody (q : ascii) : regex :=
  Seq (Star true (Class true [(q, q); ("\"%char, "\"%char)]))
      (Star true (Seq (Chr "\")
                      (Seq AnyChar
                           (Star true (Class true [(q, q); ("\"%char, "\"%char)]))))).

(** The default of [functionPattern], with the flags g and m: the text
    [gettext(], optional white space, then either a double-quoted string,
    whose body is group 1 and whose closing quote is group 2, or a
    single-quoted string, whose body is group 3 and whose closing quote is
    group 4. *)
Definition defaultFunctionPattern : RegExp :=
  {| source :=
       Seq (literal "gettext(")
           (Seq (Star true (Class false whiteSpace))
                (Alt (Seq (Chr dquote)
                          (Seq (Group (quotedBody dquote)) (Group (Chr dquote))))
                     (Seq (Chr "'")
                          (Seq (Group (quotedBody "'")) (Group (Chr "'"))))));
     global := true; ignoreCase := false; multiline := true |}.

Definition defaultFunctionReplace : string := "gettext($2$4$1$3$2$4".

Definition defaultGroupIndex : list Z := [1; 3].

(** The default of [moduleFilter].  First pattern: group 1 is a shortest
    run of characters other than [!], [?] and white space followed by [.js],
    [.jsx] or [.ts], at the end of the subject.  Second pattern: from start
    to end, characters (each one group 1) at none of which the text
    [node_modules] starts. *)
Definition defaultModuleFilter : list RegExp :=
  [ {| source :=
         Seq (Group (Seq (Plus false
                            (Class true (("!"%char, "!"%char) :: ("?"%char, "?"%char)
                                         :: whiteSpace)))
                         (Alt (literal ".js") (Alt (literal ".jsx") (literal ".ts")))))
             Eol;
       global := false; ignoreCase := false; multiline := false |};
    {| source :=
         Seq Bol
             (Seq (Star true (Group (Seq (NotAhead (literal "node_modules")) AnyChar)))
                  Eol);
       global := false; ignoreCase := false; multiline := false |} ].

(** What running the constructor gives: the plugin, or the thrown Error. *)
Inductive construction : Type :=
| Constructed (p : ExtractTranslationRegexPlugin)
| ConstructorThrows (message : string).

(** [function ExtractTranslationRegexPlugin(options)] *)
Definition construct (options : Options) : construction :=
  let this :=
    {| functionPattern :=
         match opt_functionPattern options with
         | Some p => if truthyPattern (Some p) then p
                     else PatternRegExp defaultFunctionPattern
         | None => PatternRegExp defaultFunctionPattern
         end;
       functionReplace :=
         match opt_functionReplace options with
         | Some s => if truthyString (Some s) then s else defaultFunctionReplace
         | None => defaultFunctionReplace
         end;
       groupIndex :=
         match opt_groupIndex options with
         | Some g =>
             if truthyGroupIndex (Some g) then
               match g with
               | GroupArray indices => indices
               | GroupNumber i => [i]
               end
             else defaultGroupIndex
         | None => defaultGroupIndex
         end;
       output := opt_output options;
       mangle := opt_mangle options;
       moduleFilter :=
         match opt_moduleFilter options with
         | Some filters => filters
         | None => defaultModuleFilter
         end |} in
  if truthyPattern (opt_functionPattern options)
     && negb (truthyString (opt_functionReplace options))
  then ConstructorThrows
         "ExtractTranslationRegexPlugin: If you provide functionPattern, you must provide functionReplace"
  else Constructed this.

(** A call that may throw a TypeError. *)
Inductive except (A : Type) : Type :=
| Returns (a : A)
| ThrowsTypeError.
Arguments Returns {A} a.
Arguments ThrowsTypeError {A}.

(** [matches[matches.length-1]] *)
Definition lastElement (matches : list (option string)) : option string :=
  last matches None.

(** [filterModule(moduleRequest, moduleFilter)].  The subject is a string or,
    after an iteration whose last array element is [undefined], [None];
    calling [match] on [undefined] throws. *)
Fixpoint filterModule (moduleRequest : option string) (moduleFilter : list RegExp)
  : except bool :=
  match moduleFilter with
  | [] => Returns true
  | R :: rest =>
      match moduleRequest with
      | None => ThrowsTypeError
      | Some subject =>
          match stringMatch subject R with
          | None => Returns false
          | Some matches => filterModule (lastElement matches) rest
          end
      end
  end.

(** The character class of [sanitizeForRegexp], flag g: one of the
    characters [- [ ] / { } ( ) * + ? . \ ^ $ |]. *)
Definition specialCharacters : RegExp :=
  {| source := Class false (map (fun c => (c, c))
                                (list_ascii_of_string "-[]/{}()*+?.\^$|"));
     global := true; ignoreCase := false; multiline := false |}.

(** [sanitizeForRegexp(regexpString)]: every such character is replaced by
    a backslash and itself (the replacement text is a backslash and [$&]). *)
Definition sanitizeForRegexp (regexpString : string) : string :=
  stringReplace regexpString specialCharacters "\$&".

(** [ensureRegExp(regexp)]: [None] is the SyntaxError of [new RegExp]. *)
Definition ensureRegExp (regexp : pattern) : option RegExp :=
  match regexp with
  | PatternString s => newRegExp (sanitizeForRegexp s) true false true
  | PatternRegExp R =>
      Some {| source := source R;
              global := if global R then global R else true;
              ignoreCase := ignoreCase R;
              multiline := if multiline R then multiline R else true |}
  end.

(** [flipObject(obj)] for a table created by [{}].  The test of the loop
    calls [obj.hasOwnProperty]: when the table has an own key
    [hasOwnProperty], that is a string and the call throws in the first
    iteration; otherwise it is the inherited function. *)
Definition flipObject (obj : object string) : except (object string) :=
  if hasOwn obj "hasOwnProperty" then ThrowsTypeError
  else
    Returns (fold_left (fun newObj '(prop, v) =>
                          if hasOwn obj prop then setProperty newObj v prop
                          else newObj)
                       obj []).

(** Truthiness of [match[index]]: a non-empty string. *)
Definition truthy (v : option string) : bool := truthyString v.

(** [getKeyIndexFromMatch(match, groupIndex)] *)
Fixpoint getKeyIndexFromMatch (m : matchArray) (groupIndex : list Z) : Z :=
  match groupIndex with
  | [] => -1
  | index :: rest =>
      if truthy (element m index) then index else getKeyIndexFromMatch m rest
  end.

(** *** The [optimize-chunks] handler *)

(** A module of the host: [module.userRequest] and [module._source._value],
    the text of the module, a string.  [sourceValue] is [None] for a module
    that has no [_source]: reading [module._source._value] throws. *)
Record webpackModule : Type := {
  userRequest : option string;
  sourceValue : option string
}.

(** A chunk: [chunk.name] and [chunk.modules].  A module object may belong
    to several chunks, so a chunk lists positions in the store of modules. *)
Record chunk : Type := {
  name : string;
  modules : list nat
}.

(** Everything the handler reads and writes: [this.keys], [this.generator],
    [compilation.errors] and the modules. *)
Record state : Type := {
  keys : object (object string);
  generator : KeyGenerator.generator;
  errors : list string;
  store : list webpackModule
}.

(** How a part of the handler ends. *)
Inductive completion (A : Type) : Type :=
| Continue (a : A)          (* control reaches the end of the part *)
| ReturnFalse (st : state)  (* [return false] after the error was pushed *)
| Throws (st : state)       (* an exception leaves the handler *)
| OutOfFuel.
Arguments Continue {A} a.
Arguments ReturnFalse {A} st.
Arguments Throws {A} st.
Arguments OutOfFuel {A}.

Definition captureBlockError : string :=
  "ExtractTranslationRegexPlugin: The provided `functionPattern` regular expression do not contain capture block. Please check your webpack.config.js file.".

(** [compilation.errors.push(new Error(...))] *)
Definition pushError (st : state) (message : string) : state :=
  {| keys := keys st; generator := generator st;
     errors := errors st ++ [message]; store := store st |}.

(** [module._source._value = source] *)
Fixpoint setSource (id : nat) (source : string) (ms : list webpackModule)
  : list webpackModule :=
  match ms, id with
  | [], _ => []
  | m :: rest, O =>
      {| userRequest := userRequest m; sourceValue := Some source |} :: rest
  | m :: rest, S id' => m :: setSource id' source rest
  end.

Section Handler.

(** The bound on the number of iterations of each loop. *)
Variable fuel : nat.

Variable this : ExtractTranslationRegexPlugin.

(** [match[keyIndex]], a string whenever [keyIndex] is not [-1]. *)
Definition valueAt (m : matchArray) (keyIndex : Z) : string :=
  match element m keyIndex with
  | Some s => s
  | None => EmptyString
  end.

(** Lines 100-109: the key for [value], the table of the chunk and the
    generator afterwards. *)
Definition assignKey (value : string) (table : object string)
           (gen : KeyGenerator.generator)
  : option (string * object string * KeyGenerator.generator) :=
  if hasProperty table value then Some (value, table, gen)
  else if mangle this then
    match KeyGenerator.next fuel gen with
    | Some (key, gen') => Some (key, setProperty table value key, gen')
    | None => None
    end
  else Some (value, setProperty table value value, gen).

(** Lines 114-130: [tmpMatch[i]] for [i = 1, 2, ...] is resolved and
    substituted for [$i] in the replacement. *)
Fixpoint resolveReferences (keyIndex : Z) (key : string)
         (tmpMatch : list (option string)) (i : nat) (replacement : string)
  : option string :=
  match tmpMatch with
  | [] => Some replacement
  | t :: rest =>
      let text :=
        match t with
        | None => EmptyString
        | Some captured =>
            if existsb (Z.eqb (Z.of_nat i)) (groupIndex this) then
              if Z.of_nat i =? keyIndex then key else EmptyString
            else captured
        end in
      match newRegExp ("\$" ++ numberToString i) true false false with
      | Some R => resolveReferences keyIndex key rest (S i)
                                    (stringReplace replacement R text)
      | None => None
      end
  end.

(** Lines 112-135: the rewritten source; [None] is a SyntaxError. *)
Definition rewriteSource (m : matchArray) (keyIndex : Z) (key : string)
           (source : string) : option string :=
  match resolveReferences keyIndex key (tl (elements m)) 1 (functionReplace this) with
  | Some replacement =>
      match newRegExp (sanitizeForRegexp (matched m)) true false true with
      | Some R => Some (stringReplace source R replacement)
      | None => None
      end
  | None => None
  end.

(** The body of the [while] loop for one match (lines 90-135). *)
Definition processMatch (chunkName : string) (m : matchArray)
           (st : state) (source : string) : completion (state * string) :=
  let keyIndex := getKeyIndexFromMatch m (groupIndex this) in
  if keyIndex =? -1 then ReturnFalse (pushError st captureBlockError)
  else
    let value := valueAt m keyIndex in
    let table :=
      match getOwn (keys st) chunkName with
      | Some t => t
      | None => []
      end in
    match assignKey value table (generator st) with
    | None => OutOfFuel
    | Some (key, table', gen') =>
        let st' := {| keys := defineOwn (keys st) chunkName table';
                      generator := gen';
                      errors := errors st;
                      store := store st |} in
        if mangle this then
          match rewriteSource m keyIndex key source with
          | Some source' => Continue (st', source')
          | None => Throws st'
          end
        else Continue (st', source)
    end.

(** [while ((match = regex.exec(source)) !== null) { ... }] with at most [n]
    iterations; [lastIndex] is the [lastIndex] of [regex]. *)
Fixpoint scan (n : nat) (chunkName : string) (regex : RegExp)
         (st : state) (source : string) (lastIndex : nat)
  : completion (state * string) :=
  match n with
  | O => OutOfFuel
  | S n' =>
      match regExpExec regex source lastIndex with
      | (None, _) => Continue (st, source)
      | (Some m, lastIndex') =>
          match processMatch chunkName m st source with
          | Continue (st', source') => scan n' chunkName regex st' source' lastIndex'
          | other => other
          end
      end
  end.

(** The state of the loop after [k] matches have been processed: the state,
    the source and [lastIndex].  [None] when the loop ends earlier. *)
Fixpoint afterMatches (k : nat) (chunkName : string) (regex : RegExp)
         (st : state) (source : string) (lastIndex : nat)
  : option (state * string * nat) :=
  match k with
  | O => Some (st, source, lastIndex)
  | S k' =>
      match regExpExec regex source lastIndex with
      | (None, _) => None
      | (Some m, lastIndex') =>
          match processMatch chunkName m st source with
          | Continue (st', source') =>
              afterMatches k' chunkName regex st' source' lastIndex'
          | _ => None
          end
      end
  end.

(** The body of [for (var module_id in chunk.modules)] for one module.
    The source is read after the filter has accepted the module and before
    the pattern is built. *)
Definition processModule (chunkName : string) (id : nat) (st : state)
  : completion state :=
  match nth_error (store st) id with
  | None => Continue st
  | Some module =>
      if truthyString (userRequest module) then
        match filterModule (userRequest module) (moduleFilter this) with
        | ThrowsTypeError => Throws st
        | Returns false => Continue st
        | Returns true =>
            match sourceValue module with
            | None => Throws st
            | Some text =>
                match ensureRegExp (functionPattern this) with
                | None => Throws st
                | Some regex =>
                    match scan fuel chunkName regex st text 0 with
                    | Continue (st', source) =>
                        Continue {| keys := keys st'; generator := generator st';
                                    errors := errors st';
                                    store := setSource id source (store st') |}
                    | ReturnFalse st' => ReturnFalse st'
                    | Throws st' => Throws st'
                    | OutOfFuel => OutOfFuel
                    end
                end
            end
        end
      else Continue st
  end.

Fixpoint processModules (chunkName : string) (ids : list nat) (st : state)
  : completion state :=
  match ids with
  | [] => Continue st
  | id :: rest =>
      match processModule chunkName id st with
      | Continue st' => processModules chunkName rest st'
      | other => other
      end
  end.

(** [for (var chunk_id in chunks)] *)
Fixpoint processChunks (chunks : list chunk) (st : state) : completion state :=
  match chunks with
  | [] => Continue st
  | c :: rest =>
      match processModules (name c) (modules c) st with
      | Continue st' => processChunks rest st'
      | other => other
      end
  end.

(** [for (var chunkName in this.keys) this.keys[chunkName] = flipObject(...)]:
    the tables afterwards, and whether [flipObject] threw.  The tables
    before the one at which it throws are flipped already. *)
Fixpoint flipTables (tables : object (object string))
  : object (object string) * bool :=
  match tables with
  | [] => ([], false)
  | (chunkName, table) :: rest =>
      match flipObject table with
      | ThrowsTypeError => (tables, true)
      | Returns flipped =>
          let (rest', threw) := flipTables rest in
          ((chunkName, flipped) :: rest', threw)
      end
  end.

Definition flipKeys (st : state) : completion state :=
  let (tables, threw) := flipTables (keys st) in
  let st' := {| keys := tables; generator := generator st;
                errors := errors st; store := store st |} in
  if threw then Throws st' else Continue st'.

(** The handler of [optimize-chunks]. *)
Definition optimizeChunks (chunks : list chunk) (st : state) : completion state :=
  match processChunks chunks st with
  | Continue st' => flipKeys st'
  | other => other
  end.

End Handler.

(** The state [apply] sets up, [this.keys = Object.create(null)] and
    [this.generator = KeyGenerator.create()], for a compilation without
    errors so far. *)
Definition initialState (ms : list webpackModule) : state :=
  {| keys := []; generator := KeyGenerator.create; errors := []; store := ms |}.

(** The pattern of line 168, flags g and i: one or more characters outside
    [a-z], [0-9], [.], [-] and [_]. *)
Definition unsafeCharacters : RegExp :=
  {| source := Plus true (Class true [ ("a", "z"); ("0", "9"); (".", ".");
                                       ("-", "-"); ("_", "_") ]%char);
     global := true; ignoreCase := true; multiline := false |}.

(** [safeChunkName]: [chunkName.replace] with that pattern and the
    replacement text [-]. *)
Definition safeChunkName (chunkName : string) : string :=
  stringReplace chunkName unsafeCharacters "-".

(** *** Notions used in the properties *)

(** [P] holds of the state in which a part of the handler ends, however it
    ends. *)
Definition leaves {A : Type} (stateOf : A -> state) (P : state -> Prop)
           (c : completion A) : Prop :=
  match c with
  | Continue a => P (stateOf a)
  | ReturnFalse st => P st
  | Throws st => P st
  | OutOfFuel => True
  end.

(** The errors of the compilation after a part of the handler that started
    in [st]: one more after [return false], the same otherwise. *)
Definition pushedOnce {A : Type} (stateOf : A -> state) (st : state)
           (c : completion A) : Prop :=
  match c with
  | Continue a => errors (stateOf a) = errors st
  | ReturnFalse st' => errors st' = (errors st ++ [captureBlockError])%list
  | Throws st' => errors st' = errors st
  | OutOfFuel => True
  end.

(** Every entry of the table maps a key to itself. *)
Definition identityTable (table : object string) : Prop :=
  forall k v, In (k, v) table -> k = v.

Definition identityKeys (st : state) : Prop :=
  forall chunkName table, In (chunkName, table) (keys st) -> identityTable table.

(** A character [sanitizeForRegexp] escapes. *)
Definition specialCharacter (c : ascii) : bool :=
  existsb (Ascii.eqb c) (list_ascii_of_string "-[]/{}()*+?.\^$|").

Definition ordinaryCharacter (c : ascii) : bool := negb (specialCharacter c).

(** The text with a backslash before every such character. *)
Fixpoint escapeSpecial (s : string) : string :=
  match s with
  | EmptyString => EmptyString
  | String c rest =>
      if specialCharacter c then String "\" (String c (escapeSpecial rest))
      else String c (escapeSpecial rest)
  end.

(** A character the pattern of [safeChunkName] leaves alone: a letter, a
    digit, [.], [-] or [_]. *)
Definition safeCharacter (c : ascii) : bool :=
  inRange "a" "z" c || inRange "A" "Z" c || inRange "0" "9" c
  || Ascii.eqb c "." || Ascii.eqb c "-" || Ascii.eqb c "_".

Definition unsafeCharacter (c : ascii) : bool := negb (safeCharacter c).

(** Every maximal run of other characters becomes one [-]; [inRun] tells
    whether the previous character belonged to such a run. *)
Fixpoint collapseRuns (inRun : bool) (s : string) : string :=
  match s with
  | EmptyString => EmptyString
  | String c rest =>
      if safeCharacter c then String c (collapseRuns false rest)
      else if inRun then collapseRuns true rest
      else String "-" (collapseRuns true rest)
  end.

(** The number of leading characters of [s] that satisfy [p]. *)
Fixpoint lead (p : ascii -> bool) (s : string) : nat :=
  match s with
  | EmptyString => O
  | String c rest => if p c then S (lead p rest) else O
  end.

(** *** The configurations and inputs of the examples *)

(** [new ExtractTranslationRegexPlugin({})] and
    [new ExtractTranslationRegexPlugin({ mangle: true })] *)
Definition noOptions : Options :=
  {| opt_functionPattern := None; opt_functionReplace := None;
     opt_groupIndex := None; opt_output := None; opt_mangle := false;
     opt_moduleFilter := None |}.

Definition mangleOnly : Options :=
  {| opt_functionPattern := None; opt_functionReplace := None;
     opt_groupIndex := None; opt_output := None; opt_mangle := true;
     opt_moduleFilter := None |}.

(** The plugins these construct. *)
Definition plainPlugin : ExtractTranslationRegexPlugin :=
  {| functionPattern := PatternRegExp defaultFunctionPattern;
     functionReplace := defaultFunctionReplace;
     groupIndex := defaultGroupIndex; output := None; mangle := false;
     moduleFilter := defaultModuleFilter |}.

Definition manglingPlugin : ExtractTranslationRegexPlugin :=
  {| functionPattern := PatternRegExp defaultFunctionPattern;
     functionReplace := defaultFunctionReplace;
     groupIndex := defaultGroupIndex; output := None; mangle := true;
     moduleFilter := defaultModuleFilter |}.

(** A pattern written without flags. *)
Definition noFlags (r : regex) : RegExp :=
  {| source := r; global := false; ignoreCase := false; multiline := false |}.

(** The chain of the documentation: lowercase letters, then digits as
    group 1, then [.js] at the end; and the text [12]. *)
Definition documentedFilter : list RegExp :=
  [ noFlags (Seq (Plus true (Class false [("a", "z")%char]))
                 (Seq (Group (Plus true (Class false [("0", "9")%char])))
                      (Seq (literal ".js") Eol)));
    noFlags (literal "12") ].

(** [/a|(b)/] and [/x/] *)
Definition aOrGroupB : RegExp := noFlags (Alt (Chr "a") (Group (Chr "b"))).
Definition justX : RegExp := noFlags (Chr "x").

(** [/([a-z])[0-9]/g] and [/^b2$/] *)
Definition letterDigitGlobal : RegExp :=
  {| source := Seq (Group (Class false [("a", "z")%char]))
                   (Class false [("0", "9")%char]);
     global := true; ignoreCase := false; multiline := false |}.
Definition exactlyB2 : RegExp := noFlags (Seq Bol (Seq (literal "b2") Eol)).

Definition chainPlugin : ExtractTranslationRegexPlugin :=
  {| functionPattern := PatternRegExp defaultFunctionPattern;
     functionReplace := defaultFunctionReplace;
     groupIndex := defaultGroupIndex; output := None; mangle := false;
     moduleFilter := [aOrGroupB; justX] |}.

Definition mainChunk (ids : list nat) : chunk := {| name := "main"; modules := ids |}.

Definition moduleOf (request source : string) : webpackModule :=
  {| userRequest := Some request; sourceValue := Some source |}.

End Plugin.

(** ** The [done] handler and further notions *)

Module Output.
Import JS Plugin.

(** [str.startsWith(pattern)] *)
Fixpoint startsWith (pattern str : string) : bool :=
  match pattern with
  | EmptyString => true
  | String a pattern' =>
      match str with
      | EmptyString => false
      | String b str' => Ascii.eqb a b && startsWith pattern' str'
      end
  end.

(** [str.indexOf(pattern)]: the position of the first occurrence. *)
Fixpoint indexOf (pattern str : string) : option nat :=
  match str with
  | EmptyString => if startsWith pattern EmptyString then Some O else None
  | String _ rest =>
      if startsWith pattern str then Some O
      else option_map S (indexOf pattern rest)
  end.

(** [str.replace(pattern, replacement)] for a string [pattern]: the first
    occurrence is replaced, and the replacement text goes through
    [getSubstitution] like that of a pattern without groups. *)
Definition stringReplaceString (str pattern replacement : string) : string :=
  match indexOf pattern str with
  | None => str
  | Some position =>
      take position str
      ++ getSubstitution pattern str position [] replacement
      ++ drop (position + String.length pattern) str
  end.

(** The text a string or [undefined] is converted to. *)
Definition toStringValue (v : option string) : string :=
  match v with
  | Some s => s
  | None => "undefined"
  end.

(** The pattern of line 156: the text [[chunk]]. *)
Definition chunkToken : RegExp := noFlags (literal "[chunk]").

(** [Object.assign(target, source)] on a target created by [{}]. *)
Definition objectAssign (target source : object string) : object string :=
  fold_left (fun t '(k, v) => setProperty t k v) source target.

(** Lines 159-162: [output = {}], then [Object.assign(output, this.keys[i])]
    for every chunk. *)
Definition mergeChunks (keys : object (object string)) : object string :=
  fold_left (fun merged '(_, table) => objectAssign merged table) keys [].

Section Done.

(** [JSON.stringify(value, null, 2)] *)
Variable stringify : object string -> string.

(** The handler of [done] (lines 152-174), after the call of the callback
    [this.done]: the plugin with its [output] updated, and the files
    written, in order, each with its name and its content.
    [compilerName] is [stats.compilation.compiler.name]. *)
Definition done (this : ExtractTranslationRegexPlugin)
           (keys : object (object string)) (compilerName : option string)
  : ExtractTranslationRegexPlugin * list (string * string) :=
  if truthyString (output this) then
    let out := stringReplaceString (toStringValue (output this)) "[child]"
                                   (toStringValue compilerName) in
    let this' := {| functionPattern := functionPattern this;
                    functionReplace := functionReplace this;
                    groupIndex := groupIndex this;
                    output := Some out;
                    mangle := mangle this;
                    moduleFilter := moduleFilter this |} in
    match stringMatch out chunkToken with
    | None => (this', [(out, stringify (mergeChunks keys))])
    | Some _ =>
        (this',
         map (fun '(chunkName, table) =>
                (stringReplaceString out "[chunk]" (safeChunkName chunkName),
                 stringify table))
             keys)
    end
  else (this, []).

End Done.

(** *** Notions used in the further properties *)

(** A digit or a letter. *)
Definition alphanumericCharacter (c : ascii) : bool :=
  inRange "0" "9" c || inRange "A" "Z" c || inRange "a" "z" c.

(** Every character of [s] satisfies [p]. *)
Fixpoint allCharacters (p : ascii -> bool) (s : string) : bool :=
  match s with
  | EmptyString => true
  | String c rest => p c && allCharacters p rest
  end.

(** The assigned keys of all tables together, chunk by chunk: the values
    of the tables the loops build, and the keys of the tables after
    [flipObject]. *)
Definition tableValues (keys : object (object string)) : list string :=
  flat_map (fun e => map snd (snd e)) keys.

Definition tableKeys (keys : object (object string)) : list string :=
  flat_map (fun e => map fst (snd e)) keys.

(** What holds of the tables and the generator while the loops run with
    [mangle] on, as long as the index has not passed [firstWrappedIndex]:
    the assigned keys are pairwise different, there are as many as keys
    were generated, and each one is the digits of a number below the
    index. *)
Definition generatedSoFar (st : state) : Prop :=
  0 <= KeyGenerator.index (generator st)
  /\ (KeyGenerator.index (generator st) <= KeyGenerator.firstWrappedIndex ->
      NoDup (tableValues (keys st))
      /\ Z.of_nat (List.length (tableValues (keys st)))
         = KeyGenerator.index (generator st)
      /\ forall k, In k (tableValues (keys st)) ->
                   exists n, 0 <= n < KeyGenerator.index (generator st)
                             /\ KeyGenerator.decodeFrom 0 k = Some n).



(** Every entry of every table of [st] is an entry of the table of the
    same chunk in [st']. *)
Definition keepsEntries (st st' : state) : Prop :=
  forall chunkName table k v,
    getOwn (keys st) chunkName = Some table -> getOwn table k = Some v ->
    exists table',
      getOwn (keys st') chunkName = Some table' /\ getOwn table' k = Some v.

End Output.

(* ================================================================== *)
(** * Part II: properties                                              *)
(* ================================================================== *)

(** ** Facts about the key generator *)

Module KeyGeneratorFacts.
Import KeyGenerator.

(** The alphabet the program builds is the alphabet of the specification. *)
Example alphabet_is_specAlphabet :
  alphabet = list_ascii_of_string specAlphabet.
Proof. reflexivity. Qed.

Example alphabet_length_62 : alphabet_length = 62.
Proof. reflexivity. Qed.

Example nthKey_samples :
  map (nthKey 7) [0; 1; 9; 10; 35; 36; 61; 62; 63; 3843; 3844]%nat
  = map Some ["0"; "1"; "9"; "A"; "Z"; "a"; "z"; "10"; "11"; "zz"; "100"].
Proof. vm_compute. reflexivity. Qed.

Lemma positionIn_range c digits d :
  positionIn c digits = Some d -> 0 <= d < Z.of_nat (String.length digits).
Proof.
  revert d; induction digits as [|a rest IH]; intros d; simpl; [discriminate|].
  destruct (Ascii.eqb c a).
  - intros [= <-]; lia.
  - destruct (positionIn c rest) as [p|]; simpl; [|discriminate].
    intros [= <-]. specialize (IH p eq_refl). lia.
Qed.

Lemma positionIn_inj c c' digits d :
  positionIn c digits = Some d -> positionIn c' digits = Some d -> c = c'.
Proof.
  revert d; induction digits as [|a rest IH]; intros d; simpl; [discriminate|].
  destruct (Ascii.eqb_spec c a) as [->|Hc], (Ascii.eqb_spec c' a) as [->|Hc'].
  - reflexivity.
  - intros [= <-]. destruct (positionIn c' rest) as [p|] eqn:E; simpl; [|discriminate].
    apply positionIn_range in E. intros [= ?]; lia.
  - destruct (positionIn c rest) as [p|] eqn:E; simpl; [|discriminate].
    apply positionIn_range in E. intros [= <-] [= ?]; lia.
  - destruct (positionIn c rest) as [p|]; simpl; [|discriminate].
    destruct (positionIn c' rest) as [p'|]; simpl; [|discriminate].
    intros [= <-] [= ?]. apply (IH p); f_equal; lia.
Qed.

Lemma digitValue_range c d : digitValue c = Some d -> 0 <= d < 62.
Proof. intros H; apply positionIn_range in H; exact H. Qed.

Lemma digitValue_inj c c' d :
  digitValue c = Some d -> digitValue c' = Some d -> c = c'.
Proof. apply positionIn_inj. Qed.

Lemma digitValue_zero : digitValue "0"%char = Some 0.
Proof. reflexivity. Qed.

Lemma alphabetAt_digit d :
  0 <= d < 62 -> exists c, alphabetAt d = Some c /\ digitValue c = Some d.
Proof.
  intros Hd.
  assert (Hall : forallb digitOk (map Z.of_nat (seq 0 62)) = true) by (vm_compute; reflexivity).
  rewrite forallb_forall in Hall.
  assert (Hin : In d (map Z.of_nat (seq 0 62))).
  { apply in_map_iff; exists (Z.to_nat d); split; [lia|]. apply in_seq; lia. }
  specialize (Hall d Hin). unfold digitOk in Hall.
  destruct (alphabetAt d) as [c|]; [|discriminate].
  destruct (digitValue c) as [d'|] eqn:E; [|discriminate].
  apply Z.eqb_eq in Hall; subst d'. exists c; auto.
Qed.

Lemma toInt32_small x : - 2 ^ 31 <= x < 2 ^ 31 -> toInt32 x = x.
Proof.
  intros H; unfold toInt32. rewrite Z.mod_small; lia.
Qed.

Lemma toInt32_range x : - 2 ^ 31 <= toInt32 x < 2 ^ 31.
Proof.
  unfold toInt32. pose proof (Z.mod_pos_bound (x + 2 ^ 31) (2 ^ 32)); lia.
Qed.

Lemma decodeFrom_app s t acc :
  decodeFrom acc (s ++ t) =
  match decodeFrom acc s with Some v => decodeFrom v t | None => None end.
Proof.
  revert acc; induction s as [|c s IH]; intros acc; simpl; [reflexivity|].
  destruct (digitValue c); [apply IH | reflexivity].
Qed.

Lemma string_app_assoc (a b c : string) : ((a ++ b) ++ c = a ++ (b ++ c))%string.
Proof. induction a as [|x a IH]; simpl; [reflexivity | now rewrite IH]. Qed.

Lemma string_length_app (a b : string) :
  String.length (a ++ b) = (String.length a + String.length b)%nat.
Proof. induction a as [|x a IH]; simpl; [reflexivity | now rewrite IH]. Qed.

(** The loop on a remainder in the range where [| 0] does not wrap. *)
Lemma doWhile_digits fuel : forall r key,
  0 <= r < 62 * 2 ^ 31 -> r < 62 ^ Z.of_nat fuel -> (0 < fuel)%nat ->
  exists ds,
    doWhile fuel r key = Some (ds ++ key)%string /\
    (forall acc, decodeFrom acc ds
                 = Some (acc * 62 ^ Z.of_nat (String.length ds) + r)) /\
    (r = 0 -> ds = "0") /\
    (0 < r -> exists c rest, ds = String c rest /\ c <> "0"%char).
Proof.
  induction fuel as [|fuel IH]; intros r key Hr Hpow Hfuel; [lia|].
  simpl doWhile.
  change alphabet_length with 62.
  rewrite Z.rem_mod_nonneg, Z.quot_div_nonneg by lia.
  assert (Hq : 0 <= r / 62 < 2 ^ 31).
  { split; [apply Z.div_pos; lia | apply Z.div_lt_upper_bound; lia]. }
  rewrite toInt32_small by lia.
  destruct (alphabetAt_digit (r mod 62)) as (c & Hc & Hv).
  { apply Z.mod_pos_bound; lia. }
  rewrite Hc; simpl concatKey.
  pose proof (Z.div_mod r 62 ltac:(lia)) as Hdm.
  pose proof (Z.mod_pos_bound r 62 ltac:(lia)) as Hm.
  destruct (Z.eqb_spec (r / 62) 0) as [Hz|Hnz].
  - exists (String c ""); split; [reflexivity|]. split; [|split].
    + intros acc; simpl. rewrite Hv. f_equal. change (62 ^ Z.of_nat 1) with 62. lia.
    + intros ->. f_equal.
      apply (digitValue_inj _ _ 0); [exact Hv | reflexivity].
    + intros Hpos. exists c, ""; split; [reflexivity|].
      intros ->. rewrite digitValue_zero in Hv. injection Hv as Hv. lia.
  - assert (Hq' : r / 62 < 62 ^ Z.of_nat fuel).
    { apply Z.div_lt_upper_bound; [lia|].
      rewrite Nat2Z.inj_succ, Z.pow_succ_r in Hpow by lia. lia. }
    assert (Hf : (0 < fuel)%nat).
    { destruct fuel; [simpl in Hq'; lia | lia]. }
    destruct (IH (r / 62) (String c key) ltac:(lia) Hq' Hf)
      as (ds & Hrun & Hdec & _ & Hlead).
    exists (ds ++ String c "")%string. split; [|split; [|split]].
    + rewrite Hrun. f_equal. rewrite string_app_assoc. reflexivity.
    + intros acc. rewrite decodeFrom_app, Hdec. simpl. rewrite Hv. f_equal.
      rewrite string_length_app. simpl String.length.
      rewrite Nat2Z.inj_add, Z.pow_add_r by lia.
      change (62 ^ Z.of_nat 1) with 62. lia.
    + intros ->. simpl in Hnz. lia.
    + intros _. destruct Hlead as (c0 & rest & -> & Hc0); [lia|].
      exists c0, (rest ++ String c "")%string. split; [reflexivity | exact Hc0].
Qed.

Lemma advance_index fuel : forall n g g',
  advance fuel n g = Some g' ->
  index g + Z.of_nat n <= 2 ^ 53 ->
  index g' = index g + Z.of_nat n.
Proof.
  induction n as [|n IH]; intros g g' H Hb; simpl in H.
  - injection H as <-. lia.
  - unfold next in H. destruct (doWhile fuel (index g) "") as [k|]; [|discriminate].
    apply IH in H; simpl index in *; unfold increment in *;
      destruct (Z.ltb_spec (index g) (2 ^ 53)); lia.
Qed.

(** Termination of the loop: inside the 32-bit range the remainder shrinks
    in absolute value with every iteration. *)
Lemma doWhile_returns_int32 fuel : forall r key,
  - 2 ^ 31 <= r < 2 ^ 31 -> Z.abs r < 62 ^ Z.of_nat fuel -> (0 < fuel)%nat ->
  exists k, doWhile fuel r key = Some k.
Proof.
  induction fuel as [|fuel IH]; intros r key Hr Hpow Hfuel; [lia|].
  simpl doWhile. change alphabet_length with 62.
  assert (Habs : Z.abs (r ÷ 62) = Z.abs r / 62).
  { rewrite <- Z.quot_abs by lia. apply Z.quot_div_nonneg; lia. }
  assert (Hle : Z.abs r / 62 < 2 ^ 31) by (apply Z.div_lt_upper_bound; lia).
  rewrite toInt32_small by lia.
  destruct (Z.eqb_spec (r ÷ 62) 0) as [_|Hnz]; [eauto|].
  apply IH; [lia | |].
  - rewrite Habs. apply Z.div_lt_upper_bound; [lia|].
    rewrite Nat2Z.inj_succ, Z.pow_succ_r in Hpow by lia. lia.
  - destruct fuel; [|lia]. simpl in Hpow.
    assert (Z.abs r / 62 = 0) by (apply Z.div_small; lia). lia.
Qed.

(** Seven iterations are enough for every remainder: after the first one
    the remainder is a 32-bit integer. *)
Lemma doWhile_returns fuel r key :
  (7 <= fuel)%nat -> exists k, doWhile fuel r key = Some k.
Proof.
  intros Hfuel. destruct fuel as [|fuel]; [lia|].
  simpl doWhile.
  destruct (toInt32 (r ÷ alphabet_length) =? 0); [eauto|].
  pose proof (toInt32_range (r ÷ alphabet_length)) as Hrange.
  apply doWhile_returns_int32; [exact Hrange | | lia].
  apply Z.lt_le_trans with (62 ^ 6); [lia|].
  apply Z.pow_le_mono_r; lia.
Qed.

Lemma next_returns fuel g :
  (7 <= fuel)%nat ->
  exists key, doWhile fuel (index g) "" = Some key /\
              next fuel g = Some (key, {| index := increment (index g) |}).
Proof.
  intros Hfuel. destruct (doWhile_returns fuel (index g) "" Hfuel) as [k Hk].
  exists k. unfold next. rewrite Hk. auto.
Qed.

Lemma advance_returns fuel : (7 <= fuel)%nat ->
  forall n g, exists g', advance fuel n g = Some g'.
Proof.
  intros Hfuel; induction n as [|n IH]; intros g; simpl; [eauto|].
  destruct (next_returns fuel g Hfuel) as (k & _ & ->). apply IH.
Qed.

(** The [n]-th key is what the loop makes of the index [n]. *)
Lemma nthKey_doWhile fuel n :
  (7 <= fuel)%nat -> Z.of_nat n <= 2 ^ 53 ->
  nthKey fuel n = doWhile fuel (Z.of_nat n) "".
Proof.
  intros Hfuel Hn. unfold nthKey.
  destruct (advance_returns fuel Hfuel n create) as [g Hg]. rewrite Hg.
  apply advance_index in Hg; [|simpl; lia]. simpl in Hg.
  destruct (next_returns fuel g Hfuel) as (k & Hk & ->). simpl.
  rewrite <- Hg. now rewrite Hk.
Qed.

Lemma string_app_empty (s : string) : (s ++ "")%string = s.
Proof. induction s as [|c s IH]; simpl; [reflexivity | now rewrite IH]. Qed.

Lemma nthKey_in_range fuel n :
  (7 <= fuel)%nat -> Z.of_nat n < 62 * 2 ^ 31 ->
  exists k, nthKey fuel n = Some k /\ base62 (Z.of_nat n) k.
Proof.
  intros Hfuel Hn.
  rewrite nthKey_doWhile by lia.
  destruct (doWhile_digits fuel (Z.of_nat n) "") as (ds & Hrun & Hdec & Hzero & Hlead);
    [lia | | lia |].
  { apply Z.lt_le_trans with (62 ^ 7); [lia|]. apply Z.pow_le_mono_r; lia. }
  rewrite string_app_empty in Hrun. exists ds; split; [exact Hrun|].
  assert (Hne : ds <> "").
  { destruct (Z.eq_dec (Z.of_nat n) 0) as [E|E].
    - rewrite (Hzero E); discriminate.
    - destruct Hlead as (c & rest & -> & _); [lia | discriminate]. }
  split.
  - unfold decode. destruct ds; [congruence|]. rewrite Hdec. simpl. reflexivity.
  - destruct (Z.eq_dec (Z.of_nat n) 0) as [E|E]; [left; auto | right; apply Hlead; lia].
Qed.

(** *** The base-62 representation of a number is unique *)

Lemma decodeFrom_bounds s : forall acc v,
  0 <= acc -> decodeFrom acc s = Some v ->
  acc * 62 ^ Z.of_nat (String.length s) <= v
  < (acc + 1) * 62 ^ Z.of_nat (String.length s).
Proof.
  induction s as [|c s IH]; intros acc v Hacc H; simpl in H.
  - injection H as <-. simpl. lia.
  - destruct (digitValue c) as [d|] eqn:Hd; [|discriminate].
    apply digitValue_range in Hd.
    apply IH in H; [|lia].
    simpl String.length. rewrite Nat2Z.inj_succ, Z.pow_succ_r by lia.
    assert (0 < 62 ^ Z.of_nat (String.length s)) by (apply Z.pow_pos_nonneg; lia).
    nia.
Qed.

Lemma decodeFrom_inj s1 : forall s2 a1 a2 v,
  String.length s1 = String.length s2 -> 0 <= a1 -> 0 <= a2 ->
  decodeFrom a1 s1 = Some v -> decodeFrom a2 s2 = Some v ->
  a1 = a2 /\ s1 = s2.
Proof.
  induction s1 as [|c1 s1 IH]; intros [|c2 s2] a1 a2 v Hlen H1 H2 E1 E2;
    simpl in Hlen; try discriminate.
  - simpl in E1, E2. split; [congruence | reflexivity].
  - simpl in E1, E2.
    destruct (digitValue c1) as [d1|] eqn:Hd1; [|discriminate].
    destruct (digitValue c2) as [d2|] eqn:Hd2; [|discriminate].
    pose proof (digitValue_range _ _ Hd1). pose proof (digitValue_range _ _ Hd2).
    destruct (IH s2 (a1 * 62 + d1) (a2 * 62 + d2) v) as [Ha ->];
      [lia | lia | lia | exact E1 | exact E2 |].
    assert (a1 = a2) by lia. assert (d1 = d2) by lia. subst.
    split; [reflexivity|]. f_equal. exact (digitValue_inj _ _ _ Hd1 Hd2).
Qed.

Lemma base62_magnitude n s :
  base62 n s ->
  (n = 0 /\ s = "0") \/
  (62 ^ (Z.of_nat (String.length s) - 1) <= n < 62 ^ Z.of_nat (String.length s)
   /\ (0 < String.length s)%nat).
Proof.
  intros [Hdec [->|(c & rest & -> & Hc)]].
  - left. split; [|reflexivity]. compute in Hdec. congruence.
  - right. unfold decode in Hdec. simpl in Hdec.
    destruct (digitValue c) as [d|] eqn:Hd; [|discriminate].
    pose proof (digitValue_range _ _ Hd).
    assert (d <> 0).
    { intros ->. apply Hc. exact (digitValue_inj _ _ _ Hd digitValue_zero). }
    apply decodeFrom_bounds in Hdec; [|lia].
    simpl String.length. rewrite Nat2Z.inj_succ, Z.pow_succ_r by lia.
    replace (Z.succ (Z.of_nat (String.length rest)) - 1)
      with (Z.of_nat (String.length rest)) by lia.
    assert (0 < 62 ^ Z.of_nat (String.length rest)) by (apply Z.pow_pos_nonneg; lia).
    split; [nia | lia].
Qed.

Lemma base62_unique n s1 s2 : base62 n s1 -> base62 n s2 -> s1 = s2.
Proof.
  intros B1 B2.
  destruct (base62_magnitude _ _ B1) as [[Hn ->]|[M1 L1]],
           (base62_magnitude _ _ B2) as [[Hn' ->]|[M2 L2]]; try reflexivity.
  - subst n.
    assert (0 < 62 ^ (Z.of_nat (String.length s2) - 1)) by (apply Z.pow_pos_nonneg; lia).
    lia.
  - subst n.
    assert (0 < 62 ^ (Z.of_nat (String.length s1) - 1)) by (apply Z.pow_pos_nonneg; lia).
    lia.
  - assert (Hlen : String.length s1 = String.length s2).
    { destruct (Nat.lt_trichotomy (String.length s1) (String.length s2)) as [L|[L|L]];
        [exfalso | exact L | exfalso].
      - assert (62 ^ Z.of_nat (String.length s1)
                <= 62 ^ (Z.of_nat (String.length s2) - 1))
          by (apply Z.pow_le_mono_r; lia).
        lia.
      - assert (62 ^ Z.of_nat (String.length s2)
                <= 62 ^ (Z.of_nat (String.length s1) - 1))
          by (apply Z.pow_le_mono_r; lia).
        lia. }
    destruct B1 as [D1 _], B2 as [D2 _]. unfold decode in D1, D2.
    destruct s1; [simpl in L1; lia|]. destruct s2; [simpl in L2; lia|].
    exact (proj2 (decodeFrom_inj _ _ 0 0 n Hlen ltac:(lia) ltac:(lia) D1 D2)).
Qed.

(** C1, as amended.  For every [n] below [62 * 2^31] the generator yields
    an [n]-th key (seven iterations of the inner loop are enough), that
    key is the base-62 representation of [n] over the alphabet, digits
    before uppercase before lowercase letters, most significant digit
    first and without a superfluous leading zero digit, it is the only
    such representation, and no other index below [62 * 2^31] yields the
    same key. *)
Theorem nthKey_is_base62 (fuel n : nat) :
  (7 <= fuel)%nat -> Z.of_nat n < 62 * 2 ^ 31 ->
  exists k,
    nthKey fuel n = Some k /\
    base62 (Z.of_nat n) k /\
    (forall s, base62 (Z.of_nat n) s -> s = k) /\
    (forall m, Z.of_nat m < 62 * 2 ^ 31 -> nthKey fuel m = Some k -> m = n).
Proof.
  intros Hfuel Hn.
  destruct (nthKey_in_range fuel n Hfuel Hn) as (k & Hk & Hb).
  exists k. repeat split; try assumption; try apply Hb.
  - intros s Hs. exact (base62_unique _ _ _ Hs Hb).
  - intros m Hm Hkm.
    destruct (nthKey_in_range fuel m Hfuel Hm) as (k' & Hk' & [Hd' _]).
    rewrite Hkm in Hk'. injection Hk' as <-.
    destruct Hb as [Hd _]. rewrite Hd in Hd'. injection Hd' as Hd'. lia.
Qed.

(** The instance [n = 3844 = 62^2], whose key is "100". *)
Lemma nthKey_is_base62_witness :
  exists k, nthKey 7 3844 = Some k /\ base62 3844 k /\
    (forall s, base62 3844 s -> s = k) /\
    (forall m, Z.of_nat m < 62 * 2 ^ 31 -> nthKey 7 m = Some k -> m = 3844%nat).
Proof.
  apply (nthKey_is_base62 7 3844); [lia | reflexivity].
Defined.

(** At the index [62 * 2^31] the quotient [2^31] wraps to [-2^31] under
    [| 0]; the negative remainders select no character of the alphabet. *)
Lemma nthKey_wraps :
  nthKey 7 (Z.to_nat firstWrappedIndex)
  = Some "undefinedundefinedundefinedundefinedundefinedundefined0".
Proof.
  rewrite nthKey_doWhile; [| apply Nat.le_refl | ].
  - rewrite Z2Nat.id by (unfold firstWrappedIndex; lia). vm_compute. reflexivity.
  - rewrite Z2Nat.id; unfold firstWrappedIndex; lia.
Qed.

(** C1 as stated, for every [n], fails: the key of index [62 * 2^31] is
    not the representation of that index. *)
Theorem nthKey_not_base62_beyond_int32 :
  ~ (forall n k, nthKey 7 n = Some k -> base62 (Z.of_nat n) k).
Proof.
  intros H. specialize (H _ _ nthKey_wraps). destruct H as [Hd _].
  rewrite Z2Nat.id in Hd by (unfold firstWrappedIndex; lia).
  apply (f_equal (option_map (fun v => v <? 62 ^ 54))) in Hd.
  vm_compute in Hd. discriminate.
Qed.

End KeyGeneratorFacts.

(** ** Facts about the library fragment *)

Module JSFacts.
Import JS.

Lemma length_take n : forall s, (String.length (take n s) <= n)%nat.
Proof.
  induction n as [|n IH]; intros [|c s]; simpl; try lia.
  specialize (IH s); lia.
Qed.

Lemma length_slice from to s : (String.length (slice from to s) <= to - from)%nat.
Proof. apply length_take. Qed.

Lemma length_setCapture v : forall caps i,
  List.length (setCapture i v caps) = List.length caps.
Proof.
  induction caps as [|c caps IH]; intros [|i]; simpl; auto.
Qed.

Lemma length_clearCaptures count : forall from caps,
  List.length (clearCaptures from count caps) = List.length caps.
Proof.
  induction count as [|count IH]; intros from caps; simpl; [reflexivity|].
  now rewrite length_setCapture, IH.
Qed.

Lemma nth_error_setCapture v : forall caps i g,
  nth_error (setCapture i v caps) g = nth_error caps g \/
  nth_error (setCapture i v caps) g = Some v.
Proof.
  induction caps as [|c caps IH]; intros [|i] [|g]; simpl; auto.
Qed.

Lemma nth_error_clearCaptures count : forall from caps g,
  nth_error (clearCaptures from count caps) g = nth_error caps g \/
  nth_error (clearCaptures from count caps) g = Some None.
Proof.
  induction count as [|count IH]; intros from caps g; simpl; [auto|].
  destruct (nth_error_setCapture None (clearCaptures (S from) count caps) from g)
    as [E|E]; rewrite E; auto.
Qed.

Lemma continues_refl st : continues st st.
Proof. split; [lia | split; auto]. Qed.

Lemma continues_trans a b c : continues a b -> continues b c -> continues a c.
Proof.
  intros (Hab & Lab & Cab) (Hbc & Lbc & Cbc).
  split; [lia|]. split; [congruence|]. intros g.
  destruct (Cbc g) as [E|[E|(t & E & L)]].
  - rewrite E. destruct (Cab g) as [E'|[E'|(t & E' & L)]]; auto.
    right; right. exists t; split; [exact E' | lia].
  - auto.
  - right; right. exists t; split; [exact E | lia].
Qed.

Lemma continues_clear st from count :
  continues st {| endIndex := endIndex st;
                  captures := clearCaptures from count (captures st) |}.
Proof.
  split; simpl; [lia|]. split; [apply length_clearCaptures|]. intros g.
  destruct (nth_error_clearCaptures count from (captures st) g); auto.
Qed.

Section MatcherFacts.
Variable input : string.
Variables ic ml : bool.

Lemma consume_continues p st st' :
  In st' (consume input p st) -> continues st st'.
Proof.
  unfold consume. destruct (String.get (endIndex st) input) as [c|]; [|intros []].
  destruct (p c); [|intros []]. intros [<-|[]]. split; simpl; [lia | split; auto].
Qed.

Lemma iterate_continues (body : mstate -> list mstate) greedy :
  (forall s0 s1, In s1 (body s0) -> continues s0 s1) ->
  forall fuel st st', In st' (iterate body greedy fuel st) -> continues st st'.
Proof.
  intros Hbody. induction fuel as [|fuel IH]; intros st st' Hin; simpl in Hin.
  - destruct Hin as [<-|[]]. apply continues_refl.
  - assert (Hmore : In st' (flat_map
                       (fun s1 => if (endIndex s1 =? endIndex st)%nat then []
                                  else iterate body greedy fuel s1) (body st))
                    -> continues st st').
    { intros H. apply in_flat_map in H. destruct H as (s1 & Hs1 & H).
      destruct (endIndex s1 =? endIndex st)%nat; [destruct H|].
      eapply continues_trans; [apply Hbody, Hs1 | apply IH, H]. }
    destruct greedy.
    + apply in_app_or in Hin. destruct Hin as [H|[<-|[]]];
        [apply Hmore, H | apply continues_refl].
    + destruct Hin as [<-|H]; [apply continues_refl | apply Hmore, H].
Qed.

Lemma matchRe_continues r : forall base st st',
  In st' (matchRe input ic ml r base st) -> continues st st'.
Proof.
  induction r as [ | c | | negated ranges | r1 IH1 r2 IH2 | r1 IH1 r2 IH2
                 | greedy r1 IH1 | greedy r1 IH1 | greedy r1 IH1 | r1 IH1 | | | r1 IH1 ];
    intros base st st' Hin; cbn [matchRe] in Hin.
  - destruct Hin as [<-|[]]. apply continues_refl.
  - eapply consume_continues, Hin.
  - eapply consume_continues, Hin.
  - eapply consume_continues, Hin.
  - apply in_flat_map in Hin. destruct Hin as (s1 & H1 & H2).
    eapply continues_trans; [eapply IH1, H1 | eapply IH2, H2].
  - apply in_app_or in Hin. destruct Hin as [H|H]; [eapply IH1, H | eapply IH2, H].
  - eapply iterate_continues; [|exact Hin].
    intros s0 s1 H. eapply continues_trans; [apply continues_clear | eapply IH1, H].
  - apply in_flat_map in Hin. destruct Hin as (s1 & H1 & H2).
    eapply continues_trans; [eapply continues_trans;
                             [apply continues_clear | eapply IH1, H1] |].
    eapply iterate_continues; [|exact H2].
    intros s0 s2 H. eapply continues_trans; [apply continues_clear | eapply IH1, H].
  - assert (Honce : forall x,
               In x (filter (fun s1 => negb (endIndex s1 =? endIndex st)%nat)
                       (matchRe input ic ml r1 base
                          {| endIndex := endIndex st;
                             captures := clearCaptures base (groupCount r1) (captures st) |}))
               -> continues st x).
    { intros x H. apply filter_In in H. destruct H as [H _].
      eapply continues_trans; [apply continues_clear | eapply IH1, H]. }
    destruct greedy.
    + apply in_app_or in Hin. destruct Hin as [H|[<-|[]]];
        [apply Honce, H | apply continues_refl].
    + destruct Hin as [<-|H]; [apply continues_refl | apply Honce, H].
  - apply in_map_iff in Hin. destruct Hin as (s1 & <- & H1).
    apply IH1 in H1. destruct H1 as (Hle & Hlen & Hcaps). split; simpl; [exact Hle|].
    split; [now rewrite length_setCapture|]. intros g.
    destruct (nth_error_setCapture
                (Some (slice (endIndex st) (endIndex s1) input)) (captures s1) base g)
      as [E|E]; rewrite E.
    + apply Hcaps.
    + right; right. eexists; split; [reflexivity | apply length_slice].
  - destruct (atLineStart input ml (endIndex st)); [|destruct Hin].
    destruct Hin as [<-|[]]. apply continues_refl.
  - destruct (atLineEnd input ml (endIndex st)); [|destruct Hin].
    destruct Hin as [<-|[]]. apply continues_refl.
  - destruct (matchRe input ic ml r1 base st); [|destruct Hin].
    destruct Hin as [<-|[]]. apply continues_refl.
Qed.

End MatcherFacts.

Lemma nth_error_repeat_None (n g : nat) (x : option string) :
  nth_error (repeat (@None string) n) g = Some x -> x = None.
Proof.
  intros H. apply nth_error_In, repeat_spec in H. exact H.
Qed.

(** A match covers the text of each of its captures. *)
Lemma matchAt_captures R S i st :
  matchAt R S i = Some st ->
  (i <= endIndex st)%nat /\
  List.length (captures st) = groupCount (source R) /\
  forall g t, nth_error (captures st) g = Some (Some t) ->
              (String.length t <= endIndex st - i)%nat.
Proof.
  unfold matchAt. intros H.
  destruct (matchRe S (ignoreCase R) (multiline R) (source R) 0
              {| endIndex := i; captures := repeat None (groupCount (source R)) |})
    as [|st0 l] eqn:E; [discriminate|]. injection H as ->.
  assert (Hin : In st (st :: l)) by (left; reflexivity). rewrite <- E in Hin.
  apply matchRe_continues in Hin. destruct Hin as (Hle & Hlen & Hcaps). simpl in *.
  split; [exact Hle|]. split; [now rewrite Hlen, repeat_length|]. intros g t Hg.
  destruct (Hcaps g) as [E'|[E'|(t' & E' & L)]].
  - rewrite Hg in E'. symmetry in E'. apply nth_error_repeat_None in E'. discriminate.
  - congruence.
  - congruence.
Qed.

Lemma search_from R S : forall steps i j st,
  search R S steps i = Some (j, st) -> (i <= j)%nat /\ matchAt R S j = Some st.
Proof.
  induction steps as [|steps IH]; intros i j st H; simpl in H; [discriminate|].
  destruct (matchAt R S i) as [st0|] eqn:E.
  - injection H as <- <-. split; [lia | exact E].
  - apply IH in H. destruct H; split; [lia | assumption].
Qed.

(** [exec] on a global RegExp: the match starts at or after [lastIndex], the
    new [lastIndex] is the end of the match, and every element of the
    array is no longer than the match. *)
Lemma regExpExec_global R S lastIndex m lastIndex' :
  global R = true ->
  regExpExec R S lastIndex = (Some m, lastIndex') ->
  (lastIndex <= index m)%nat /\ (index m <= lastIndex')%nat /\
  forall k t, element m k = Some t ->
              (String.length t <= lastIndex' - index m)%nat.
Proof.
  intros Hg. unfold regExpExec. rewrite Hg.
  destruct (String.length S <? lastIndex)%nat; [discriminate|].
  destruct (search R S (Datatypes.S (String.length S - lastIndex)) lastIndex)
    as [[i st]|] eqn:E; [|discriminate].
  intros H. injection H as <- <-. simpl.
  apply search_from in E. destruct E as [Hle Hat].
  apply matchAt_captures in Hat. destruct Hat as (Hend & _ & Hcaps).
  repeat split; try assumption.
  intros k t. unfold element. simpl.
  destruct (k <? 0); [discriminate|].
  destruct (Z.to_nat k) as [|g]; simpl.
  - intros [= <-]. apply length_slice.
  - destruct (nth_error (captures st) g) as [[t'|]|] eqn:Eg; try discriminate.
    intros [= <-]. eapply Hcaps, Eg.
Qed.

(** *** The bounds inside the model of the library are never reached *)

Lemma get_Some_lt i : forall s c, String.get i s = Some c -> (i < String.length s)%nat.
Proof.
  induction i as [|i IH]; intros [|a s] c H; simpl in *; try discriminate; [lia|].
  apply IH in H. lia.
Qed.

Lemma flat_map_agree {A B : Type} (f g : A -> list B) (l : list A) :
  (forall a, In a l -> f a = g a) -> flat_map f l = flat_map g l.
Proof.
  induction l as [|a l IH]; intros H; simpl; [reflexivity|].
  rewrite (H a) by now left. rewrite IH; [reflexivity|].
  intros b Hb. apply H. now right.
Qed.

Section Bounds.
Variable input : string.
Variables ic ml : bool.

Lemma consume_bounded p st st' :
  In st' (consume input p st) -> (endIndex st' <= String.length input)%nat.
Proof.
  unfold consume. destruct (String.get (endIndex st) input) as [c|] eqn:E;
    [|intros []].
  destruct (p c); [|intros []]. intros [<-|[]]. simpl.
  apply get_Some_lt in E. lia.
Qed.

Lemma iterate_bounded (body : mstate -> list mstate) greedy :
  (forall s0 s1, (endIndex s0 <= String.length input)%nat -> In s1 (body s0) ->
                 (endIndex s1 <= String.length input)%nat) ->
  forall fuel st st',
    (endIndex st <= String.length input)%nat ->
    In st' (iterate body greedy fuel st) ->
    (endIndex st' <= String.length input)%nat.
Proof.
  intros Hbody. induction fuel as [|fuel IH]; intros st st' Hst Hin; simpl in Hin.
  - destruct Hin as [<-|[]]. exact Hst.
  - assert (Hmore : In st' (flat_map
                       (fun s1 => if (endIndex s1 =? endIndex st)%nat then []
                                  else iterate body greedy fuel s1) (body st))
                    -> (endIndex st' <= String.length input)%nat).
    { intros H. apply in_flat_map in H. destruct H as (s1 & Hs1 & H).
      destruct (endIndex s1 =? endIndex st)%nat; [destruct H|].
      eapply IH; [eapply Hbody; eassumption | exact H]. }
    destruct greedy.
    + apply in_app_or in Hin. destruct Hin as [H|[<-|[]]]; auto.
    + destruct Hin as [<-|H]; auto.
Qed.

(** A match never runs past the end of the input. *)
Lemma matchRe_bounded r : forall base st st',
  (endIndex st <= String.length input)%nat ->
  In st' (matchRe input ic ml r base st) ->
  (endIndex st' <= String.length input)%nat.
Proof.
  induction r as [ | c | | negated ranges | r1 IH1 r2 IH2 | r1 IH1 r2 IH2
                 | greedy r1 IH1 | greedy r1 IH1 | greedy r1 IH1 | r1 IH1 | | | r1 IH1 ];
    intros base st st' Hst Hin; cbn [matchRe] in Hin.
  - destruct Hin as [<-|[]]. exact Hst.
  - eapply consume_bounded, Hin.
  - eapply consume_bounded, Hin.
  - eapply consume_bounded, Hin.
  - apply in_flat_map in Hin. destruct Hin as (s1 & H1 & H2).
    eapply IH2; [eapply IH1; eassumption | exact H2].
  - apply in_app_or in Hin. destruct Hin as [H|H]; [eapply IH1 | eapply IH2]; eassumption.
  - eapply iterate_bounded; [|exact Hst|exact Hin].
    intros s0 s1 H0 H. eapply IH1; [|exact H]. exact H0.
  - apply in_flat_map in Hin. destruct Hin as (s1 & H1 & H2).
    eapply iterate_bounded; [| |exact H2].
    + intros s0 s2 H0 H. eapply IH1; [|exact H]. exact H0.
    + eapply IH1; [|exact H1]. exact Hst.
  - assert (Honce : forall x,
               In x (filter (fun s1 => negb (endIndex s1 =? endIndex st)%nat)
                       (matchRe input ic ml r1 base
                          {| endIndex := endIndex st;
                             captures := clearCaptures base (groupCount r1) (captures st) |}))
               -> (endIndex x <= String.length input)%nat).
    { intros x H. apply filter_In in H. destruct H as [H _].
      eapply IH1; [|exact H]. exact Hst. }
    destruct greedy.
    + apply in_app_or in Hin. destruct Hin as [H|[<-|[]]]; auto.
    + destruct Hin as [<-|H]; auto.
  - apply in_map_iff in Hin. destruct Hin as (s1 & <- & H1). simpl.
    eapply IH1; eassumption.
  - destruct (atLineStart input ml (endIndex st)); [|destruct Hin].
    destruct Hin as [<-|[]]. exact Hst.
  - destruct (atLineEnd input ml (endIndex st)); [|destruct Hin].
    destruct Hin as [<-|[]]. exact Hst.
  - destruct (matchRe input ic ml r1 base st); [|destruct Hin].
    destruct Hin as [<-|[]]. exact Hst.
Qed.

(** The repetition does not depend on its bound once the bound exceeds the
    rest of the input: the bound [S (length input)] of [matchRe] is never
    used up. *)
Lemma iterate_bound_irrelevant (body : mstate -> list mstate) greedy :
  (forall s0 s1, (endIndex s0 <= String.length input)%nat -> In s1 (body s0) ->
                 (endIndex s0 <= endIndex s1 <= String.length input)%nat) ->
  forall fuel fuel' st,
    (endIndex st <= String.length input)%nat ->
    (String.length input - endIndex st < fuel)%nat ->
    (String.length input - endIndex st < fuel')%nat ->
    iterate body greedy fuel st = iterate body greedy fuel' st.
Proof.
  intros Hbody. induction fuel as [|fuel IH]; intros fuel' st Hst Hf Hf'; [lia|].
  destruct fuel' as [|fuel']; [lia|]. cbn [iterate].
  assert (E : flat_map (fun s1 => if (endIndex s1 =? endIndex st)%nat then []
                                  else iterate body greedy fuel s1) (body st)
              = flat_map (fun s1 => if (endIndex s1 =? endIndex st)%nat then []
                                    else iterate body greedy fuel' s1) (body st)).
  { apply flat_map_agree. intros s1 Hs1.
    destruct (Nat.eqb_spec (endIndex s1) (endIndex st)) as [|Hne]; [reflexivity|].
    specialize (Hbody st s1 Hst Hs1). apply IH; lia. }
  now rewrite E.
Qed.

End Bounds.

Lemma star_bound_irrelevant input ic ml greedy r base fuel st :
  (endIndex st <= String.length input)%nat ->
  (String.length input < fuel)%nat ->
  iterate (fun s0 => matchRe input ic ml r base
                       {| endIndex := endIndex s0;
                          captures := clearCaptures base (groupCount r) (captures s0) |})
          greedy fuel st
  = matchRe input ic ml (Star greedy r) base st.
Proof.
  intros Hst Hfuel. cbn [matchRe].
  apply (iterate_bound_irrelevant input); try lia.
  intros s0 s1 H0 H1. split.
  - apply matchRe_continues in H1. destruct H1 as [Hle _]. exact Hle.
  - eapply matchRe_bounded; [|exact H1]. exact H0.
Qed.

Lemma regExpExec_past_end R str lastIndex :
  global R = true -> (String.length str < lastIndex)%nat ->
  regExpExec R str lastIndex = (None, O).
Proof.
  intros Hg Hlt. unfold regExpExec. rewrite Hg.
  destruct (Nat.ltb_spec (String.length str) lastIndex); [reflexivity | lia].
Qed.

(** [execAll] does not depend on its bound once the bound exceeds what is
    left of the string by two: the bound of [match] and [replace] is never
    used up. *)
Lemma execAll_bound_irrelevant R str : global R = true ->
  forall steps steps' lastIndex,
    (String.length str + 2 - lastIndex <= steps)%nat ->
    (String.length str + 2 - lastIndex <= steps')%nat ->
    execAll R str steps lastIndex = execAll R str steps' lastIndex.
Proof.
  intros Hg. induction steps as [|steps IH]; intros steps' lastIndex Hs Hs'.
  - destruct steps' as [|steps']; [reflexivity|]. simpl.
    now rewrite regExpExec_past_end by (auto; lia).
  - destruct steps' as [|steps'].
    + simpl. now rewrite regExpExec_past_end by (auto; lia).
    + cbn [execAll].
      destruct (regExpExec R str lastIndex) as [[m|] lastIndex'] eqn:E;
        [|reflexivity].
      apply (regExpExec_global _ _ _ _ _ Hg) in E. destruct E as (H1 & H2 & Hlen).
      f_equal.
      destruct (Nat.eqb_spec (String.length (matched m)) 0) as [_|Hne];
        [apply IH; lia|].
      assert ((0 < lastIndex' - index m)%nat).
      { unfold matched in Hne. destruct (element m 0) as [t|] eqn:Et;
          [|simpl in Hne; lia].
        apply Hlen in Et. lia. }
      apply IH; lia.
Qed.

End JSFacts.

(** ** Facts about the plugin *)

Module PluginFacts.
Import JS JSFacts Plugin.

(** *** Objects *)

Lemma getOwn_In {V : Type} (o : object V) k v : getOwn o k = Some v -> In (k, v) o.
Proof.
  induction o as [|[k' v'] o IH]; simpl; [discriminate|].
  destruct (String.eqb_spec k k') as [->|_].
  - intros [= ->]. now left.
  - intros H. right. now apply IH.
Qed.

Lemma In_insertKey {V : Type} (o : object V) k v e :
  In e (insertKey k v o) -> e = (k, v) \/ In e o.
Proof.
  induction o as [|[k' v'] o IH]; simpl.
  - intros [<-|[]]. now left.
  - destruct (comesBefore k k'); simpl.
    + intros [<-|H]; auto.
    + intros [<-|H]; auto. destruct (IH H); auto.
Qed.

Lemma In_updateKey {V : Type} (o : object V) k v e :
  In e (updateKey k v o) -> e = (k, v) \/ In e o.
Proof.
  induction o as [|[k' v'] o IH]; simpl; [intros []|].
  destruct (String.eqb_spec k k') as [->|_]; simpl.
  - intros [<-|H]; auto.
  - intros [<-|H]; auto. destruct (IH H); auto.
Qed.

Lemma In_defineOwn {V : Type} (o : object V) k v e :
  In e (defineOwn o k v) -> e = (k, v) \/ In e o.
Proof.
  unfold defineOwn. destruct (hasOwn o k); [apply In_updateKey | apply In_insertKey].
Qed.

Lemma In_setProperty o k v e : In e (setProperty o k v) -> e = (k, v) \/ In e o.
Proof.
  unfold setProperty. destruct (String.eqb k "__proto__"); [auto | apply In_defineOwn].
Qed.

Lemma In_flipObject obj flipped assigned original :
  flipObject obj = Returns flipped ->
  In (assigned, original) flipped -> In (original, assigned) obj.
Proof.
  unfold flipObject. destruct (hasOwn obj "hasOwnProperty"); [discriminate|].
  intros [= <-].
  assert (H : forall l acc,
             In (assigned, original)
                (fold_left (fun newObj '(prop, v) =>
                              if hasOwn obj prop then setProperty newObj v prop
                              else newObj) l acc) ->
             In (assigned, original) acc \/ In (original, assigned) l).
  { induction l as [|[prop v] l IH]; intros acc Hin; simpl in Hin; [auto|].
    apply IH in Hin. destruct Hin as [Hin|Hin]; [|right; now right].
    destruct (hasOwn obj prop); [|auto].
    apply In_setProperty in Hin. destruct Hin as [[= -> ->]|Hin]; [right; now left | auto]. }
  intros Hin. apply H in Hin. destruct Hin as [[]|Hin]. exact Hin.
Qed.

(** *** The key group of a match *)

Lemma getKeyIndexFromMatch_found m indices :
  getKeyIndexFromMatch m indices = -1 \/
  (In (getKeyIndexFromMatch m indices) indices /\
   truthy (element m (getKeyIndexFromMatch m indices)) = true).
Proof.
  induction indices as [|index rest IH]; simpl; [now left|].
  destruct (truthy (element m index)) eqn:E.
  - right. split; [now left | exact E].
  - destruct IH as [H|[H1 H2]]; [now left | right; split; [now right | exact H2]].
Qed.

Lemma getKeyIndexFromMatch_none m indices :
  (forall index, In index indices -> truthy (element m index) = false) ->
  getKeyIndexFromMatch m indices = -1.
Proof.
  induction indices as [|index rest IH]; intros H; simpl; [reflexivity|].
  rewrite (H index) by now left. apply IH. intros i Hi. apply H. now right.
Qed.

(** *** Without mangling the key tables are identities *)

Section Plain.
Variable fuel : nat.
Variable this : ExtractTranslationRegexPlugin.
Hypothesis plain : mangle this = false.

Lemma processMatch_plain chunkName m st source :
  processMatch fuel this chunkName m st source
  = ReturnFalse (pushError st captureBlockError)
  \/ exists st',
       processMatch fuel this chunkName m st source = Continue (st', source)
       /\ store st' = store st /\ errors st' = errors st
       /\ (identityKeys st -> identityKeys st')
       /\ truthy (element m (getKeyIndexFromMatch m (groupIndex this))) = true.
Proof.
  unfold processMatch.
  destruct (getKeyIndexFromMatch_found m (groupIndex this)) as [E|[_ Htruthy]].
  { rewrite E. now left. }
  destruct (Z.eqb_spec (getKeyIndexFromMatch m (groupIndex this)) (-1)) as [_|_];
    [now left|].
  right. unfold assignKey. rewrite plain.
  set (value := valueAt m (getKeyIndexFromMatch m (groupIndex this))).
  set (table := match getOwn (keys st) chunkName with Some t => t | None => [] end).
  assert (Htable : identityKeys st -> identityTable table).
  { intros Hid. subst table. destruct (getOwn (keys st) chunkName) as [t|] eqn:E.
    - apply getOwn_In in E. eapply Hid, E.
    - intros k v []. }
  assert (Hkeys : forall table', (identityKeys st -> identityTable table') ->
            identityKeys st ->
            identityKeys {| keys := defineOwn (keys st) chunkName table';
                            generator := generator st;
                            errors := errors st; store := store st |}).
  { intros table' Ht Hid c t Hin. simpl in Hin. apply In_defineOwn in Hin.
    destruct Hin as [[= -> ->]|Hin]; [now apply Ht | eapply Hid, Hin]. }
  destruct (hasProperty table value).
  - eexists; repeat split; try reflexivity; [|exact Htruthy]. now apply Hkeys.
  - eexists; repeat split; try reflexivity; [|exact Htruthy].
    apply Hkeys. intros Hid k v Hin. apply In_setProperty in Hin.
    destruct Hin as [[= -> ->]|Hin]; [reflexivity | now apply (Htable Hid)].
Qed.

(** The scan of one module leaves the source as it is. *)
Lemma scan_plain chunkName regex : forall n st source lastIndex,
  leaves fst (fun st' => store st' = store st /\ (identityKeys st -> identityKeys st'))
         (scan fuel this n chunkName regex st source lastIndex)
  /\ (forall st' source',
        scan fuel this n chunkName regex st source lastIndex = Continue (st', source')
        -> source' = source /\ errors st' = errors st).
Proof.
  induction n as [|n IH]; intros st source lastIndex; simpl; [split; [exact I | discriminate]|].
  destruct (regExpExec regex source lastIndex) as [[m|] lastIndex'].
  2:{ split; [simpl; auto | intros st' source' [= <- <-]; auto]. }
  destruct (processMatch_plain chunkName m st source)
    as [->|(st1 & -> & Hstore & Herr & Hid & _)].
  { split; [simpl; auto | discriminate]. }
  destruct (IH st1 source lastIndex') as [Hl Hc]. split.
  - destruct (scan fuel this n chunkName regex st1 source lastIndex') as [[s2 src2]|s2|s2|];
      simpl in *; try exact I; destruct Hl as [-> H2]; auto.
  - intros st' source' E. apply Hc in E. destruct E as [-> ->]. auto.
Qed.

(** With a global pattern the scan comes to an end: [lastIndex] grows with
    every match that has a key. *)
Lemma scan_plain_ends chunkName regex : global regex = true ->
  forall n st source lastIndex,
    (String.length source + 1 - lastIndex < n)%nat ->
    scan fuel this n chunkName regex st source lastIndex <> OutOfFuel.
Proof.
  intros Hg. induction n as [|n IH]; intros st source lastIndex Hn; [lia|]. simpl.
  destruct (regExpExec regex source lastIndex) as [[m|] lastIndex'] eqn:E;
    [|discriminate].
  destruct (processMatch_plain chunkName m st source)
    as [->|(st1 & -> & _ & _ & _ & Htruthy)]; [discriminate|].
  apply IH.
  pose proof E as Hexec. unfold regExpExec in E. rewrite Hg in E.
  destruct (Nat.ltb_spec (String.length source) lastIndex) as [_|Hle]; [discriminate|].
  clear E. apply (regExpExec_global _ _ _ _ _ Hg) in Hexec.
  destruct Hexec as (H1 & H2 & Hlen).
  unfold truthy, truthyString in Htruthy.
  destruct (element m (getKeyIndexFromMatch m (groupIndex this))) as [[|c t]|] eqn:Ek;
    try discriminate.
  apply Hlen in Ek. simpl in Ek. lia.
Qed.

Lemma setSource_same ms : forall id m text,
  nth_error ms id = Some m -> sourceValue m = Some text ->
  setSource id text ms = ms.
Proof.
  induction ms as [|m0 ms IH]; intros [|id] m text H Htext; simpl in *;
    try discriminate.
  - injection H as ->. destruct m; simpl in Htext. now rewrite Htext.
  - f_equal. now apply (IH id m).
Qed.

Lemma ensureRegExp_global p R : ensureRegExp p = Some R -> global R = true.
Proof.
  destruct p as [R0|s]; simpl.
  - intros [= <-]. simpl. now destruct (global R0).
  - unfold newRegExp. destruct (parseEscaped (sanitizeForRegexp s)); [|discriminate].
    now intros [= <-].
Qed.

Lemma processModule_plain chunkName id st :
  leaves (fun st' => st')
         (fun st' => store st' = store st /\ (identityKeys st -> identityKeys st'))
         (processModule fuel this chunkName id st).
Proof.
  unfold processModule.
  destruct (nth_error (store st) id) as [module|] eqn:Eid; [|simpl; auto].
  destruct (truthyString (userRequest module)); [|simpl; auto].
  destruct (filterModule (userRequest module) (moduleFilter this)) as [[|]|];
    try (simpl; auto; fail).
  destruct (sourceValue module) as [text|] eqn:Etext; [|simpl; auto].
  destruct (ensureRegExp (functionPattern this)) as [regex|]; [|simpl; auto].
  destruct (scan_plain chunkName regex fuel st text 0) as [Hl Hc].
  destruct (scan fuel this fuel chunkName regex st text 0)
    as [[st' source]|st'|st'|]; simpl in *; auto.
  destruct (Hc st' source eq_refl) as [-> _]. destruct Hl as [Hs Hid].
  split; [|exact Hid]. rewrite Hs. now apply (setSource_same _ _ module).
Qed.

Lemma processModule_plain_ends chunkName id st :
  (forall m text, In m (store st) -> sourceValue m = Some text ->
                   (String.length text + 1 < fuel)%nat) ->
  processModule fuel this chunkName id st <> OutOfFuel.
Proof.
  intros Hfuel. unfold processModule.
  destruct (nth_error (store st) id) as [module|] eqn:Eid; [|discriminate].
  destruct (truthyString (userRequest module)); [|discriminate].
  destruct (filterModule (userRequest module) (moduleFilter this)) as [[|]|];
    try discriminate.
  destruct (sourceValue module) as [text|] eqn:Etext; [|discriminate].
  destruct (ensureRegExp (functionPattern this)) as [regex|] eqn:Ere; [|discriminate].
  pose proof (scan_plain_ends chunkName regex (ensureRegExp_global _ _ Ere)
                fuel st text 0) as Hends.
  destruct (scan fuel this fuel chunkName regex st text 0)
    as [[st' source]|st'|st'|]; try discriminate.
  exfalso. apply Hends; [|reflexivity].
  apply nth_error_In in Eid. specialize (Hfuel _ _ Eid Etext). lia.
Qed.

Lemma processModules_plain chunkName : forall ids st,
  leaves (fun st' => st')
         (fun st' => store st' = store st /\ (identityKeys st -> identityKeys st'))
         (processModules fuel this chunkName ids st)
  /\ ((forall m text, In m (store st) -> sourceValue m = Some text ->
                   (String.length text + 1 < fuel)%nat) ->
      processModules fuel this chunkName ids st <> OutOfFuel).
Proof.
  induction ids as [|id ids IH]; intros st; simpl; [split; [auto | discriminate]|].
  pose proof (processModule_plain chunkName id st) as Hl.
  pose proof (processModule_plain_ends chunkName id st) as He.
  destruct (processModule fuel this chunkName id st) as [st1|st1|st1|]; simpl in *;
    try (split; [auto | intros; discriminate]).
  - destruct Hl as [Hs Hid]. destruct (IH st1) as [Hl1 He1]. split.
    + destruct (processModules fuel this chunkName ids st1) as [s2|s2|s2|];
        simpl in *; try exact I; destruct Hl1 as [-> H2]; auto.
    + intros Hfuel. apply He1. rewrite Hs. exact Hfuel.
  - split; [exact I | exact He].
Qed.

Lemma processChunks_plain : forall chunks st,
  leaves (fun st' => st')
         (fun st' => store st' = store st /\ (identityKeys st -> identityKeys st'))
         (processChunks fuel this chunks st)
  /\ ((forall m text, In m (store st) -> sourceValue m = Some text ->
                   (String.length text + 1 < fuel)%nat) ->
      processChunks fuel this chunks st <> OutOfFuel).
Proof.
  induction chunks as [|c chunks IH]; intros st; simpl; [split; [auto | discriminate]|].
  destruct (processModules_plain (name c) (modules c) st) as [Hl He].
  destruct (processModules fuel this (name c) (modules c) st) as [st1|st1|st1|];
    simpl in *; try (split; [auto | intros; discriminate]).
  - destruct Hl as [Hs Hid]. destruct (IH st1) as [Hl1 He1]. split.
    + destruct (processChunks fuel this chunks st1) as [s2|s2|s2|];
        simpl in *; try exact I; destruct Hl1 as [-> H2]; auto.
    + intros Hfuel. apply He1. rewrite Hs. exact Hfuel.
  - split; [exact I | exact He].
Qed.

(** A table among the tables after the flipping loop is a table from
    before, flipped or (when the loop threw) not. *)
Lemma In_flipTables tables : forall chunkName table,
  In (chunkName, table) (fst (flipTables tables)) ->
  In (chunkName, table) tables
  \/ exists table0,
       In (chunkName, table0) tables /\ flipObject table0 = Returns table.
Proof.
  induction tables as [|[c t] tables IH]; intros chunkName table Hin;
    simpl in Hin; [destruct Hin|].
  destruct (flipObject t) as [flipped|] eqn:Eflip; [|now left].
  destruct (flipTables tables) as [rest' threw]. simpl in Hin, IH.
  destruct Hin as [[= <- <-]|Hin].
  - right. exists t. split; [now left | exact Eflip].
  - destruct (IH _ _ Hin) as [H|(t0 & H & Hf)]; [left; now right|].
    right. exists t0. split; [now right | exact Hf].
Qed.

Lemma flipKeys_identity st :
  leaves (fun st' => st')
         (fun st' => store st' = store st /\ (identityKeys st -> identityKeys st'))
         (flipKeys st).
Proof.
  unfold flipKeys.
  assert (Hid : identityKeys st ->
                forall chunkName table,
                  In (chunkName, table) (fst (flipTables (keys st))) ->
                  identityTable table).
  { intros Hid chunkName table Hin.
    destruct (In_flipTables _ _ _ Hin) as [H|(t0 & H & Hf)]; [exact (Hid _ _ H)|].
    intros assigned original Hflip.
    apply (In_flipObject _ _ _ _ Hf) in Hflip. symmetry.
    exact (Hid _ _ H _ _ Hflip). }
  destruct (flipTables (keys st)) as [tables threw]. simpl in Hid.
  destruct threw; simpl; split; auto.
Qed.

Lemma optimizeChunks_plain chunks st :
  leaves (fun st' => st')
         (fun st' => store st' = store st /\ (identityKeys st -> identityKeys st'))
         (optimizeChunks fuel this chunks st)
  /\ ((forall m text, In m (store st) -> sourceValue m = Some text ->
                   (String.length text + 1 < fuel)%nat) ->
      optimizeChunks fuel this chunks st <> OutOfFuel).
Proof.
  unfold optimizeChunks. destruct (processChunks_plain chunks st) as [Hl He].
  destruct (processChunks fuel this chunks st) as [st1|st1|st1|]; simpl in *.
  - destruct Hl as [Hs Hid]. pose proof (flipKeys_identity st1) as Hflip.
    destruct (flipKeys st1) as [s2|s2|s2|] eqn:Ef; simpl in *;
      try (split; [|intros; discriminate]; destruct Hflip as [Hs2 Hid2];
           split; [congruence | auto]).
    exfalso. unfold flipKeys in Ef. destruct (flipTables (keys st1)) as [t b].
    destruct b; discriminate.
  - split; [exact Hl | intros; discriminate].
  - split; [exact Hl | intros; discriminate].
  - split; [exact I | exact He].
Qed.

End Plain.

(** Without mangling, in the result of a run that reaches its end, every
    entry of the finalized table of every chunk maps an assigned key to an
    original key equal to it. *)
Lemma plain_result_is_identity fuel this chunks ms st'
        chunkName table assignedKey originalKey :
  mangle this = false ->
  optimizeChunks fuel this chunks (initialState ms) = Continue st' ->
  In (chunkName, table) (keys st') ->
  In (assignedKey, originalKey) table ->
  assignedKey = originalKey.
Proof.
  intros Hplain Hrun Hchunk Hentry.
  destruct (optimizeChunks_plain fuel this Hplain chunks (initialState ms)) as [Hl _].
  rewrite Hrun in Hl. simpl in Hl. destruct Hl as [_ Hid].
  refine (Hid _ chunkName table Hchunk _ _ Hentry).
  intros c t [].
Qed.

(** C9.  Without mangling a run of the handler comes to an end (a bound
    above the length of every source plus one is never reached), however it
    ends, and it leaves the source text of every module exactly as it
    was. *)
Theorem plain_run_keeps_sources fuel this chunks st :
  mangle this = false ->
  (forall m text, In m (store st) -> sourceValue m = Some text ->
                   (String.length text + 1 < fuel)%nat) ->
  exists st',
    (optimizeChunks fuel this chunks st = Continue st' \/
     optimizeChunks fuel this chunks st = ReturnFalse st' \/
     optimizeChunks fuel this chunks st = Throws st')
    /\ store st' = store st.
Proof.
  intros Hplain Hfuel.
  destruct (optimizeChunks_plain fuel this Hplain chunks st) as [Hl He].
  specialize (He Hfuel).
  destruct (optimizeChunks fuel this chunks st) as [st'|st'|st'|]; simpl in Hl;
    [exists st' | exists st' | exists st' | congruence]; intuition.
Qed.


(** *** The error path *)

Section Errors.
Variable fuel : nat.
Variable this : ExtractTranslationRegexPlugin.

(** One match: the store is never touched, and the errors change only on
    the path that pushes the error and returns. *)
Lemma processMatch_frame chunkName m st source :
  match processMatch fuel this chunkName m st source with
  | Continue (st', _) => store st' = store st /\ errors st' = errors st
  | ReturnFalse st' => st' = pushError st captureBlockError
  | Throws st' => store st' = store st /\ errors st' = errors st
  | OutOfFuel => True
  end.
Proof.
  unfold processMatch.
  destruct (getKeyIndexFromMatch m (groupIndex this) =? -1); [reflexivity|].
  destruct (assignKey fuel this _ _ (generator st)) as [[[key table'] gen']|];
    [|exact I].
  destruct (mangle this); [|simpl; auto].
  destruct (rewriteSource this m _ key source); simpl; auto.
Qed.

Lemma scan_frame chunkName regex : forall n st source lastIndex,
  leaves fst (fun st' => store st' = store st)
         (scan fuel this n chunkName regex st source lastIndex)
  /\ pushedOnce fst st (scan fuel this n chunkName regex st source lastIndex).
Proof.
  induction n as [|n IH]; intros st source lastIndex; simpl; [split; exact I|].
  destruct (regExpExec regex source lastIndex) as [[m|] lastIndex'];
    [|split; reflexivity].
  pose proof (processMatch_frame chunkName m st source) as Hf.
  destruct (processMatch fuel this chunkName m st source)
    as [[st1 source1]|st1|st1|]; simpl.
  - destruct Hf as [Hs He]. destruct (IH st1 source1 lastIndex') as [Hl Hp].
    destruct (scan fuel this n chunkName regex st1 source1 lastIndex')
      as [[st2 source2]|st2|st2|]; simpl in *; split; congruence.
  - subst st1. split; reflexivity.
  - destruct Hf; split; assumption.
  - split; exact I.
Qed.

Lemma afterMatches_frame chunkName regex : forall k st source lastIndex st' source' lastIndex',
  afterMatches fuel this k chunkName regex st source lastIndex
  = Some (st', source', lastIndex') ->
  store st' = store st /\ errors st' = errors st.
Proof.
  induction k as [|k IH]; intros st source lastIndex st' source' lastIndex' H;
    simpl in H.
  - injection H as <- <- <-. auto.
  - destruct (regExpExec regex source lastIndex) as [[m|] li]; [|discriminate].
    pose proof (processMatch_frame chunkName m st source) as Hf.
    destruct (processMatch fuel this chunkName m st source)
      as [[st1 source1]|st1|st1|]; try discriminate.
    apply IH in H. destruct Hf, H. split; congruence.
Qed.

(** The loop after [k] processed matches behaves like the rest of the loop. *)
Lemma scan_afterMatches chunkName regex : forall k n st source lastIndex st' source' lastIndex',
  afterMatches fuel this k chunkName regex st source lastIndex
  = Some (st', source', lastIndex') ->
  scan fuel this (k + n) chunkName regex st source lastIndex
  = scan fuel this n chunkName regex st' source' lastIndex'.
Proof.
  induction k as [|k IH]; intros n st source lastIndex st' source' lastIndex' H;
    simpl in H.
  - injection H as <- <- <-. reflexivity.
  - simpl. destruct (regExpExec regex source lastIndex) as [[m|] li]; [|discriminate].
    destruct (processMatch fuel this chunkName m st source)
      as [[st1 source1]|st1|st1|]; try discriminate.
    now apply IH.
Qed.

Lemma processModule_frame chunkName id st :
  pushedOnce (fun st' => st') st (processModule fuel this chunkName id st).
Proof.
  unfold processModule.
  destruct (nth_error (store st) id) as [module|]; [|reflexivity].
  destruct (truthyString (userRequest module)); [|reflexivity].
  destruct (filterModule (userRequest module) (moduleFilter this)) as [[|]|];
    try reflexivity.
  destruct (sourceValue module) as [text|]; [|reflexivity].
  destruct (ensureRegExp (functionPattern this)) as [regex|]; [|reflexivity].
  destruct (scan_frame chunkName regex fuel st text 0) as [_ Hp].
  destruct (scan fuel this fuel chunkName regex st text 0)
    as [[st' source]|st'|st'|]; simpl in *; auto.
Qed.

Lemma processModules_frame chunkName : forall ids st,
  pushedOnce (fun st' => st') st (processModules fuel this chunkName ids st).
Proof.
  induction ids as [|id ids IH]; intros st; simpl; [reflexivity|].
  pose proof (processModule_frame chunkName id st) as Hp.
  destruct (processModule fuel this chunkName id st) as [st1|st1|st1|]; simpl in *;
    auto.
  specialize (IH st1).
  destruct (processModules fuel this chunkName ids st1) as [st2|st2|st2|];
    simpl in *; congruence.
Qed.

Lemma processChunks_frame : forall chunks st,
  pushedOnce (fun st' => st') st (processChunks fuel this chunks st).
Proof.
  induction chunks as [|c chunks IH]; intros st; simpl; [reflexivity|].
  pose proof (processModules_frame (name c) (modules c) st) as Hp.
  destruct (processModules fuel this (name c) (modules c) st) as [st1|st1|st1|];
    simpl in *; auto.
  specialize (IH st1).
  destruct (processChunks fuel this chunks st1) as [st2|st2|st2|];
    simpl in *; congruence.
Qed.

Lemma processModules_app chunkName : forall ids1 ids2 st,
  processModules fuel this chunkName (ids1 ++ ids2) st
  = match processModules fuel this chunkName ids1 st with
    | Continue st' => processModules fuel this chunkName ids2 st'
    | other => other
    end.
Proof.
  induction ids1 as [|id ids1 IH]; intros ids2 st; simpl; [reflexivity|].
  destruct (processModule fuel this chunkName id st); auto.
Qed.

Lemma processChunks_app : forall pre rest st,
  processChunks fuel this (pre ++ rest) st
  = match processChunks fuel this pre st with
    | Continue st' => processChunks fuel this rest st'
    | other => other
    end.
Proof.
  induction pre as [|c pre IH]; intros rest st; simpl; [reflexivity|].
  destruct (processModules fuel this (name c) (modules c) st); auto.
Qed.

End Errors.

(** C5.  The handler has reached module [id] of chunk [c], whose source is
    [text], and the scan of that module has processed [k] matches, when a
    match comes up in which no group listed in [groupIndex] captured a
    non-empty text.  Then the handler returns at once (it does not throw):
    the one error is pushed, the source of the module is not written back
    and nothing else is processed. *)
Theorem missing_key_group_aborts
        fuel this pre c post ids1 id ids2 stInit stChunk st0 module text regex
        k st source lastIndex m lastIndex' :
  processChunks fuel this pre stInit = Continue stChunk ->
  modules c = (ids1 ++ id :: ids2)%list ->
  processModules fuel this (name c) ids1 stChunk = Continue st0 ->
  nth_error (store st0) id = Some module ->
  truthyString (userRequest module) = true ->
  filterModule (userRequest module) (moduleFilter this) = Returns true ->
  sourceValue module = Some text ->
  ensureRegExp (functionPattern this) = Some regex ->
  (k < fuel)%nat ->
  afterMatches fuel this k (name c) regex st0 text 0
  = Some (st, source, lastIndex) ->
  regExpExec regex source lastIndex = (Some m, lastIndex') ->
  (forall index, In index (groupIndex this) -> truthy (element m index) = false) ->
  optimizeChunks fuel this (pre ++ c :: post) stInit
  = ReturnFalse (pushError st captureBlockError)
  /\ errors (pushError st captureBlockError)
     = (errors stInit ++ [captureBlockError])%list
  /\ keys (pushError st captureBlockError) = keys st
  /\ store (pushError st captureBlockError) = store st0.
Proof.
  intros Hpre Hmods Hids1 Hid Hreq Hfilter Htext Hre Hk Hreach Hexec Hnone.
  assert (Hscan : scan fuel this fuel (name c) regex st0 text 0
                  = ReturnFalse (pushError st captureBlockError)).
  { replace fuel with (k + S (fuel - S k))%nat at 2 by lia.
    rewrite (scan_afterMatches fuel this _ _ _ _ _ _ _ _ _ _ Hreach).
    simpl. rewrite Hexec. unfold processMatch.
    now rewrite (getKeyIndexFromMatch_none _ _ Hnone). }
  assert (Hmodule : processModule fuel this (name c) id st0
                    = ReturnFalse (pushError st captureBlockError)).
  { unfold processModule. now rewrite Hid, Hreq, Hfilter, Htext, Hre, Hscan. }
  assert (Hrun : optimizeChunks fuel this (pre ++ c :: post) stInit
                 = ReturnFalse (pushError st captureBlockError)).
  { unfold optimizeChunks. rewrite processChunks_app, Hpre. simpl.
    rewrite Hmods, processModules_app, Hids1. simpl. now rewrite Hmodule. }
  split; [exact Hrun|].
  pose proof (processChunks_frame fuel this pre stInit) as E1. rewrite Hpre in E1.
  pose proof (processModules_frame fuel this (name c) ids1 stChunk) as E2.
  rewrite Hids1 in E2. simpl in E1, E2.
  apply afterMatches_frame in Hreach. destruct Hreach as [Hs He].
  simpl. repeat split; congruence.
Qed.

(** *** The module filter *)

Lemma regExpExec_elements R S lastIndex m :
  fst (regExpExec R S lastIndex) = Some m ->
  exists full caps,
    elements m = Some full :: caps /\ List.length caps = groupCount (source R).
Proof.
  unfold regExpExec.
  destruct (String.length S <? (if global R then lastIndex else 0))%nat;
    [discriminate|].
  destruct (search R S _ _) as [[i st]|] eqn:E; [|discriminate].
  simpl. intros [= <-]. simpl.
  apply search_from in E. destruct E as [_ Hat].
  apply matchAt_captures in Hat. destruct Hat as (_ & Hlen & _).
  eauto.
Qed.

Lemma last_cons {A : Type} (l : list A) : forall x d, last (x :: l) d = last l x.
Proof.
  induction l as [|y l IH]; intros x d; [reflexivity|].
  change (last (x :: y :: l) d) with (last (y :: l) d).
  rewrite (IH y d). symmetry. apply IH.
Qed.

(** A pattern on which [exec] finds nothing gives [null], with or without
    the flag g. *)
Lemma stringMatch_null subject R :
  fst (regExpExec R subject 0) = None -> stringMatch subject R = None.
Proof.
  intros H. unfold stringMatch. destruct (global R); [|now rewrite H].
  replace (String.length subject + 2)%nat with (S (S (String.length subject)))
    by lia.
  cbn [execAll]. destruct (regExpExec R subject 0) as [[m|] lastIndex];
    [discriminate | reflexivity].
Qed.

(** What the chain does where it does what its description says.  The
    empty chain accepts; a pattern that does not match the subject rejects,
    whatever follows and whatever its flags; after a match of a pattern
    without the flag g the rest of the chain is applied to the value of the
    last capturing group, or to the matched text when the pattern has no
    group.  The chain of the documentation rejects [foobar11.js] and
    [foobar12.css] and accepts [foobar12.js]. *)
Lemma filterModule_chain subject R rest :
  filterModule (Some subject) [] = Returns true
  /\ (fst (regExpExec R subject 0) = None ->
      filterModule (Some subject) (R :: rest) = Returns false)
  /\ (global R = false ->
      forall m,
        fst (regExpExec R subject 0) = Some m ->
        exists full caps,
          elements m = Some full :: caps
          /\ List.length caps = groupCount (source R)
          /\ filterModule (Some subject) (R :: rest)
             = filterModule (last caps (Some full)) rest)
  /\ filterModule (Some "foobar11.js") documentedFilter = Returns false
  /\ filterModule (Some "foobar12.css") documentedFilter = Returns false
  /\ filterModule (Some "foobar12.js") documentedFilter = Returns true.
Proof.
  split; [reflexivity|]. split; [|split].
  - intros H. cbn [filterModule]. now rewrite (stringMatch_null _ _ H).
  - intros Hg m H.
    destruct (regExpExec_elements _ _ _ _ H) as (full & caps & He & Hl).
    exists full, caps. split; [exact He|]. split; [exact Hl|].
    simpl. unfold stringMatch. rewrite Hg, H. simpl. rewrite He.
    unfold lastElement. f_equal. apply last_cons.
  - repeat split; vm_compute; reflexivity.
Qed.

(** The instance: the pattern [12] on [foobar12.js], followed by [x]. *)
Lemma filterModule_chain_instance :
  exists full caps,
    elements {| index := 6; elements := [Some "12"] |} = Some full :: caps
    /\ List.length caps = groupCount (source (noFlags (literal "12")))
    /\ filterModule (Some "foobar12.js") [noFlags (literal "12"); justX]
       = filterModule (last caps (Some full)) [justX].
Proof.
  apply (proj1 (proj2 (proj2 (filterModule_chain "foobar12.js"
                                (noFlags (literal "12")) [justX])))
           eq_refl {| index := 6; elements := [Some "12"] |}).
  vm_compute. reflexivity.
Defined.

(** C6.  The chain at the patterns [([a-z])[0-9]] with the flag g and
    [^b2$], on the request [a1b2].  The first pattern matches twice, [a1]
    with the group [a] and [b2] with the group [b].  With the flag g the
    array of [match] holds the matched texts and no group, so the subject
    handed on is the last matched text [b2], and the chain accepts; the
    text of the last capturing group, of either match, is rejected by the
    second pattern. *)
Theorem filterModule_global_pattern :
  stringMatch "a1b2" letterDigitGlobal = Some [Some "a1"; Some "b2"]
  /\ fst (regExpExec letterDigitGlobal "a1b2" 0)
     = Some {| index := 0; elements := [Some "a1"; Some "a"] |}
  /\ fst (regExpExec letterDigitGlobal "a1b2" 2)
     = Some {| index := 2; elements := [Some "b2"; Some "b"] |}
  /\ filterModule (Some "a1b2") [letterDigitGlobal; exactlyB2] = Returns true
  /\ filterModule (Some "a") [exactlyB2] = Returns false
  /\ filterModule (Some "b") [exactlyB2] = Returns false.
Proof. repeat split; vm_compute; reflexivity. Qed.

(** C10.  [filterModule] is partial.  When a pattern without the flag g
    matches but the last element of the array of the match is [undefined]
    (the last group took no part in the match) and another pattern follows,
    the next iteration calls [match] on [undefined]: [filterModule] throws,
    and the handler, which calls it unguarded, throws with it. *)
Theorem filterModule_throws
        subject R R' rest m fuel this chunkName id st module :
  global R = false ->
  fst (regExpExec R subject 0) = Some m ->
  lastElement (elements m) = None ->
  nth_error (store st) id = Some module ->
  userRequest module = Some subject ->
  truthyString (userRequest module) = true ->
  moduleFilter this = R :: R' :: rest ->
  filterModule (Some subject) (R :: R' :: rest) = ThrowsTypeError
  /\ processModule fuel this chunkName id st = Throws st.
Proof.
  intros Hg Hexec Hlast Hid Hreq Htruthy Hfilter.
  assert (Hthrows : filterModule (Some subject) (R :: R' :: rest) = ThrowsTypeError).
  { cbn [filterModule]. unfold stringMatch. rewrite Hg, Hexec. cbn [option_map].
    now rewrite Hlast. }
  split; [exact Hthrows|].
  unfold processModule. rewrite Hid, Htruthy, Hreq, Hfilter, Hthrows.
  reflexivity.
Qed.

(** The instance: the chain of [a|(b)] and [x] on the request [a]. *)
Lemma filterModule_throws_witness :
  filterModule (Some "a") [aOrGroupB; justX] = ThrowsTypeError
  /\ processModule 10 chainPlugin "main" 0 (initialState [moduleOf "a" "gettext('k')"])
     = Throws (initialState [moduleOf "a" "gettext('k')"]).
Proof.
  apply (filterModule_throws "a" aOrGroupB justX []
           {| index := 0; elements := [Some "a"; None] |}
           10 chainPlugin "main" 0 (initialState [moduleOf "a" "gettext('k')"])
           (moduleOf "a" "gettext('k')"));
    reflexivity.
Defined.

(** *** The constructor *)

(** The constructor throws exactly when a truthy [functionPattern] comes
    without a truthy [functionReplace]. *)
Lemma construct_throws_iff options :
  (exists message, construct options = ConstructorThrows message)
  <-> truthyPattern (opt_functionPattern options) = true
      /\ truthyString (opt_functionReplace options) = false.
Proof.
  unfold construct.
  destruct (truthyPattern (opt_functionPattern options)),
           (truthyString (opt_functionReplace options)); simpl; split;
    try (intros [message H]; discriminate); try (intros [H1 H2]; discriminate);
    eauto.
Qed.

(** Without options the constructor gives the plugin of the defaults. *)
Example construct_defaults : construct noOptions = Constructed plainPlugin.
Proof. reflexivity. Qed.

(** C4.  The constructor at the options [{ mangle: true }]: mangling is
    enabled and no [functionReplace] is given, and yet the constructor does
    not throw; it gives the plugin with the default replacement. *)
Theorem construct_mangle_without_replace :
  opt_mangle mangleOnly = true
  /\ opt_functionReplace mangleOnly = None
  /\ construct mangleOnly = Constructed manglingPlugin.
Proof. repeat split. Qed.

(** *** Runs of the handler on small inputs *)

(** Mangling, the keys [a] and [b] in one module: the result is
    [{ 0: a, 1: b }] and the generator has advanced twice. *)
Example mangling_two_keys :
  optimizeChunks 10 manglingPlugin [mainChunk [0%nat]]
    (initialState [moduleOf "/src/a.js" "f(gettext('a'), gettext('b'))"])
  = Continue {| keys := [("main", [("0", "a"); ("1", "b")])];
                generator := {| KeyGenerator.index := 2 |};
                errors := [];
                store := [moduleOf "/src/a.js" "f(gettext('0'), gettext('1'))"] |}.
Proof. vm_compute. reflexivity. Qed.

(** The default module filter. *)
Example default_filter :
  map (fun request => filterModule (Some request) defaultModuleFilter)
      [ "/src/app.js"; "/src/app.css"; "/node_modules/x/index.js";
        "/n/css-loader/index.js!/src/view.jsx" ]
  = [ Returns true; Returns false; Returns false; Returns true ].
Proof. vm_compute. reflexivity. Qed.

(** *** The key table *)

Lemma getOwn_insertKey {V : Type} (o : object V) k v :
  hasOwn o k = false -> getOwn (insertKey k v o) k = Some v.
Proof.
  induction o as [|[k' v'] o IH]; simpl.
  - now rewrite String.eqb_refl.
  - destruct (String.eqb_spec k k') as [->|Hne]; [discriminate|]. simpl. intros H.
    destruct (comesBefore k k'); simpl.
    + now rewrite String.eqb_refl.
    + destruct (String.eqb_spec k k'); [congruence | now apply IH].
Qed.

Lemma getOwn_updateKey {V : Type} (o : object V) k v :
  hasOwn o k = true -> getOwn (updateKey k v o) k = Some v.
Proof.
  induction o as [|[k' v'] o IH]; simpl; [discriminate|].
  destruct (String.eqb_spec k k') as [->|Hne]; simpl.
  - now rewrite String.eqb_refl.
  - intros H. destruct (String.eqb_spec k k'); [congruence | now apply IH].
Qed.

Lemma getOwn_setProperty o k v :
  k <> "__proto__" -> getOwn (setProperty o k v) k = Some v.
Proof.
  intros Hk. unfold setProperty, defineOwn.
  destruct (String.eqb_spec k "__proto__"); [contradiction|].
  destruct (hasOwn o k) eqn:E; [now apply getOwn_updateKey | now apply getOwn_insertKey].
Qed.

Lemma hasProperty_proto : forall o, hasProperty o "__proto__" = true.
Proof. intros o. unfold hasProperty. apply orb_true_r. Qed.

(** What lines 100-109 do with a key.  A key the table has, own or
    inherited, leaves the table and the generator alone; a key it does not
    have is stored, under itself or under the next generated key. *)
Lemma assignKey_seen fuel this value table gen :
  hasProperty table value = true ->
  assignKey fuel this value table gen = Some (value, table, gen).
Proof. intros H. unfold assignKey. now rewrite H. Qed.

Lemma assignKey_new_plain fuel this value table gen :
  hasProperty table value = false -> mangle this = false ->
  assignKey fuel this value table gen = Some (value, setProperty table value value, gen)
  /\ getOwn (setProperty table value value) value = Some value.
Proof.
  intros H Hm. unfold assignKey. rewrite H, Hm. split; [reflexivity|].
  apply getOwn_setProperty. intros ->. now rewrite hasProperty_proto in H.
Qed.

Lemma assignKey_new_mangle fuel this value table gen key gen' :
  hasProperty table value = false -> mangle this = true ->
  KeyGenerator.next fuel gen = Some (key, gen') ->
  assignKey fuel this value table gen = Some (key, setProperty table value key, gen')
  /\ getOwn (setProperty table value key) value = Some key.
Proof.
  intros H Hm Hn. unfold assignKey. rewrite H, Hm, Hn. split; [reflexivity|].
  apply getOwn_setProperty. intros ->. now rewrite hasProperty_proto in H.
Qed.

(** C3.  Two runs in which the table does not assign a key exactly once.
    Without mangling, on the text [gettext('constructor')]: the key
    [constructor] is the name of a property that the table, created by
    [{}], inherits; [in] finds it the first time the key is seen, so the key
    is never inserted.  With mangling, on a module that calls [gettext('a')]
    twice: the first match rewrites both calls to the key [0], the scan goes
    on over the rewritten text and meets the second call as a new original
    key [0], and the generator advances a second time for the one key
    [a]. *)
Theorem key_is_not_assigned_once :
  hasProperty [] "constructor" = true
  /\ optimizeChunks 10 plainPlugin [mainChunk [0%nat]]
       (initialState [moduleOf "/src/a.js" "gettext('constructor')"])
     = Continue {| keys := [("main", [])];
                   generator := KeyGenerator.create;
                   errors := [];
                   store := [moduleOf "/src/a.js" "gettext('constructor')"] |}
  /\ optimizeChunks 10 manglingPlugin [mainChunk [0%nat]]
       (initialState [moduleOf "/src/a.js" "gettext('a'), gettext('a')"])
     = Continue {| keys := [("main", [("0", "a"); ("1", "0")])];
                   generator := {| KeyGenerator.index := 2 |};
                   errors := [];
                   store := [moduleOf "/src/a.js" "gettext('1'), gettext('1')"] |}.
Proof. repeat split; vm_compute; reflexivity. Qed.

(** C2.  Runs with mangling in which the key [a] is met a second time: in
    a second module of the chunk, and in a second, differently spaced call
    in one module.  The table maps [a] to the assigned key [0], but the
    replacement of the second match resolves the winning group to [a]
    itself, so the second text keeps the original key. *)
Theorem seen_key_is_not_mangled :
  optimizeChunks 10 manglingPlugin [mainChunk [0; 1]%nat]
    (initialState [moduleOf "/src/a.js" "gettext('a')";
                   moduleOf "/src/b.js" "gettext('a')"])
  = Continue {| keys := [("main", [("0", "a")])];
                generator := {| KeyGenerator.index := 1 |};
                errors := [];
                store := [moduleOf "/src/a.js" "gettext('0')";
                          moduleOf "/src/b.js" "gettext('a')"] |}
  /\ optimizeChunks 10 manglingPlugin [mainChunk [0%nat]]
       (initialState [moduleOf "/src/a.js" "gettext('a') gettext( 'a')"])
     = Continue {| keys := [("main", [("0", "a")])];
                   generator := {| KeyGenerator.index := 1 |};
                   errors := [];
                   store := [moduleOf "/src/a.js" "gettext('0') gettext('a')"] |}.
Proof. split; vm_compute; reflexivity. Qed.

(** C7.  A run without mangling over two chunks that share a module.  The
    modules call [gettext] with the keys [constructor] and [k1], [k2] and
    [toString], [k1] and [valueOf]; the pattern finds every call, with its
    key in group 3.  The finalized tables have the entries of [k1] and
    [k2] only: [constructor], [toString] and [valueOf] are names of
    properties a table inherits, [in] finds them the first time they are
    seen, and they are never inserted.  So no table is the identity on the
    keys that were extracted for its chunk. *)
Theorem plain_result_misses_inherited_names :
  map (fun text => map (fun m => element m 3)
                       (execAll defaultFunctionPattern text 60 0))
      [ "gettext('constructor') gettext('k1')";
        "gettext('k2') gettext('toString')";
        "gettext('k1') gettext('valueOf')" ]
  = [ [Some "constructor"; Some "k1"];
      [Some "k2"; Some "toString"];
      [Some "k1"; Some "valueOf"] ]
  /\ map (hasProperty []) ["constructor"; "toString"; "valueOf"; "k1"; "k2"]
     = [true; true; true; false; false]
  /\ optimizeChunks 60 plainPlugin
       [ {| name := "main"; modules := [0; 1]%nat |};
         {| name := "other"; modules := [1; 2]%nat |} ]
       (initialState
          [ moduleOf "/src/a.js" "gettext('constructor') gettext('k1')";
            moduleOf "/src/b.js" "gettext('k2') gettext('toString')";
            moduleOf "/src/c.js" "gettext('k1') gettext('valueOf')" ])
     = Continue
         {| keys := [ ("main", [("k1", "k1"); ("k2", "k2")]);
                      ("other", [("k2", "k2"); ("k1", "k1")]) ];
            generator := KeyGenerator.create;
            errors := [];
            store :=
              [ moduleOf "/src/a.js" "gettext('constructor') gettext('k1')";
                moduleOf "/src/b.js" "gettext('k2') gettext('toString')";
                moduleOf "/src/c.js" "gettext('k1') gettext('valueOf')" ] |}.
Proof. repeat split; vm_compute; reflexivity. Qed.

(** *** Instances of the properties above *)

(** The same key twice in one module, no mangling. *)
Lemma plain_result_is_identity_instance :
  optimizeChunks 10 plainPlugin [mainChunk [0%nat]]
    (initialState [moduleOf "/src/a.js" "gettext('k1') + gettext('k1')"])
  = Continue {| keys := [("main", [("k1", "k1")])];
                generator := KeyGenerator.create;
                errors := [];
                store := [moduleOf "/src/a.js" "gettext('k1') + gettext('k1')"] |}
  /\ "k1" = "k1".
Proof.
  split; [vm_compute; reflexivity|].
  apply (plain_result_is_identity 10 plainPlugin [mainChunk [0%nat]]
           [moduleOf "/src/a.js" "gettext('k1') + gettext('k1')"]
           {| keys := [("main", [("k1", "k1")])];
              generator := KeyGenerator.create;
              errors := [];
              store := [moduleOf "/src/a.js" "gettext('k1') + gettext('k1')"] |}
           "main" [("k1", "k1")] "k1" "k1").
  - reflexivity.
  - vm_compute; reflexivity.
  - simpl; auto.
  - simpl; auto.
Defined.

(** The same run leaves the text of the module alone. *)
Lemma plain_run_keeps_sources_witness :
  exists st',
    (optimizeChunks 40 plainPlugin [mainChunk [0%nat]]
       (initialState [moduleOf "/src/a.js" "gettext('k1') + gettext('k1')"])
     = Continue st' \/
     optimizeChunks 40 plainPlugin [mainChunk [0%nat]]
       (initialState [moduleOf "/src/a.js" "gettext('k1') + gettext('k1')"])
     = ReturnFalse st' \/
     optimizeChunks 40 plainPlugin [mainChunk [0%nat]]
       (initialState [moduleOf "/src/a.js" "gettext('k1') + gettext('k1')"])
     = Throws st')
    /\ store st'
       = store (initialState [moduleOf "/src/a.js" "gettext('k1') + gettext('k1')"]).
Proof.
  apply (plain_run_keeps_sources 40 plainPlugin [mainChunk [0%nat]]
           (initialState [moduleOf "/src/a.js" "gettext('k1') + gettext('k1')"])).
  - reflexivity.
  - intros m text [<-|[]] [= <-]. simpl. lia.
Defined.

(** A module with one call that has a key and one call with the empty key:
    after the first match the second has no key, and the handler returns. *)
Lemma missing_key_group_aborts_witness :
  optimizeChunks 10 plainPlugin ([] ++ mainChunk [0%nat] :: [])
    (initialState [moduleOf "/src/a.js" "gettext('a') gettext('')"])
  = ReturnFalse
      (pushError {| keys := [("main", [("a", "a")])];
                    generator := KeyGenerator.create;
                    errors := [];
                    store := [moduleOf "/src/a.js" "gettext('a') gettext('')"] |}
                 captureBlockError)
  /\ errors (pushError {| keys := [("main", [("a", "a")])];
                          generator := KeyGenerator.create;
                          errors := [];
                          store := [moduleOf "/src/a.js" "gettext('a') gettext('')"] |}
                       captureBlockError)
     = (errors (initialState [moduleOf "/src/a.js" "gettext('a') gettext('')"])
        ++ [captureBlockError])%list
  /\ keys (pushError {| keys := [("main", [("a", "a")])];
                        generator := KeyGenerator.create;
                        errors := [];
                        store := [moduleOf "/src/a.js" "gettext('a') gettext('')"] |}
                     captureBlockError)
     = [("main", [("a", "a")])]
  /\ store (pushError {| keys := [("main", [("a", "a")])];
                         generator := KeyGenerator.create;
                         errors := [];
                         store := [moduleOf "/src/a.js" "gettext('a') gettext('')"] |}
                      captureBlockError)
     = store (initialState [moduleOf "/src/a.js" "gettext('a') gettext('')"]).
Proof.
  apply (missing_key_group_aborts 10 plainPlugin [] (mainChunk [0%nat]) []
           [] 0%nat []
           (initialState [moduleOf "/src/a.js" "gettext('a') gettext('')"])
           (initialState [moduleOf "/src/a.js" "gettext('a') gettext('')"])
           (initialState [moduleOf "/src/a.js" "gettext('a') gettext('')"])
           (moduleOf "/src/a.js" "gettext('a') gettext('')")
           "gettext('a') gettext('')"
           defaultFunctionPattern 1%nat
           {| keys := [("main", [("a", "a")])];
              generator := KeyGenerator.create;
              errors := [];
              store := [moduleOf "/src/a.js" "gettext('a') gettext('')"] |}
           "gettext('a') gettext('')" 11%nat
           {| index := 13; elements := [Some "gettext(''"; None; None; Some ""; Some "'"] |}
           23%nat);
    try (vm_compute; reflexivity).
  - lia.
  - intros index [<-|[<-|[]]]; reflexivity.
Defined.

(** *** The safe chunk name *)

Lemma drop_empty n : drop n EmptyString = EmptyString.
Proof. now destruct n. Qed.

Lemma drop_add i : forall k s, drop (i + k) s = drop k (drop i s).
Proof.
  induction i as [|i IH]; intros k s; simpl.
  - now destruct s.
  - destruct s as [|c s]; [now rewrite drop_empty | apply IH].
Qed.

Lemma length_drop i : forall s, String.length (drop i s) = (String.length s - i)%nat.
Proof.
  induction i as [|i IH]; intros [|c s]; simpl; auto.
Qed.

Lemma length_take_le k : forall s,
  (k <= String.length s)%nat -> String.length (take k s) = k.
Proof.
  induction k as [|k IH]; intros [|c s] H; simpl in *; try lia.
  now rewrite IH by lia.
Qed.

Lemma get_drop i : forall s,
  String.get i s = match drop i s with
                   | String c _ => Some c
                   | EmptyString => None
                   end.
Proof.
  induction i as [|i IH]; intros [|c s]; simpl; auto.
Qed.

Lemma drop_succ i s c rest : drop i s = String c rest -> drop (S i) s = rest.
Proof.
  intros H. replace (S i) with (i + 1)%nat by lia. now rewrite drop_add, H.
Qed.

Lemma lead_le p s : (lead p s <= String.length s)%nat.
Proof.
  induction s as [|c s IH]; simpl; [lia|]. destruct (p c); lia.
Qed.

Lemma lead_ext p q s : (forall c, p c = q c) -> lead p s = lead q s.
Proof.
  intros H. induction s as [|c s IH]; simpl; [reflexivity|].
  rewrite H, IH. reflexivity.
Qed.

Lemma hd_error_app {A : Type} (l1 l2 : list A) x :
  hd_error l1 = Some x -> hd_error (l1 ++ l2) = Some x.
Proof. destruct l1; simpl; [discriminate | auto]. Qed.

Section Runs.
Variable S0 : string.
Variable p : ascii -> bool.

Lemma consume_drop i caps :
  consume S0 p {| endIndex := i; captures := caps |}
  = match drop i S0 with
    | String c _ => if p c then [ {| endIndex := S i; captures := caps |} ] else []
    | EmptyString => []
    end.
Proof.
  unfold consume. cbn [endIndex captures]. rewrite get_drop.
  now destruct (drop i S0).
Qed.

(** The greedy repetition of a one-character pattern prefers the longest
    run. *)
Lemma iterate_consume : forall fuel i caps,
  hd_error (iterate (fun s0 => consume S0 p {| endIndex := endIndex s0;
                                               captures := captures s0 |})
                    true fuel {| endIndex := i; captures := caps |})
  = Some {| endIndex := i + Nat.min fuel (lead p (drop i S0)); captures := caps |}.
Proof.
  induction fuel as [|fuel IH]; intros i caps.
  - simpl. now rewrite Nat.add_0_r.
  - cbn [iterate endIndex captures]. rewrite consume_drop.
    destruct (drop i S0) as [|c rest] eqn:E.
    + simpl. now rewrite Nat.add_0_r.
    + cbn [lead]. destruct (p c).
      * cbn [flat_map endIndex]. rewrite app_nil_r.
        destruct (Nat.eqb_spec (S i) i) as [|_]; [lia|].
        apply hd_error_app. rewrite IH, (drop_succ _ _ _ _ E).
        do 2 f_equal. simpl. lia.
      * simpl. now rewrite Nat.add_0_r.
Qed.

End Runs.

Lemma unsafe_class c :
  xorb true (inClass true [ ("a", "z"); ("0", "9"); (".", "."); ("-", "-");
                            ("_", "_") ]%char c)
  = unsafeCharacter c.
Proof.
  destruct c as [[] [] [] [] [] [] [] []]; reflexivity.
Qed.

(** A match of the pattern at [i]: the whole run of unsafe characters that
    starts there, if there is one. *)
Lemma matchAt_unsafeCharacters S i :
  matchAt unsafeCharacters S i
  = match lead unsafeCharacter (drop i S) with
    | O => None
    | Datatypes.S r =>
        Some {| endIndex := i + Datatypes.S r; captures := [] |}
    end.
Proof.
  unfold matchAt. cbn [unsafeCharacters source ignoreCase multiline groupCount repeat
                       matchRe clearCaptures endIndex captures].
  rewrite consume_drop.
  destruct (drop i S) as [|c rest] eqn:E; [reflexivity|].
  rewrite unsafe_class. cbn [lead]. destruct (unsafeCharacter c); [|reflexivity].
  cbn [flat_map]. rewrite app_nil_r, iterate_consume, (drop_succ _ _ _ _ E).
  rewrite (lead_ext _ unsafeCharacter rest unsafe_class).
  pose proof (lead_le unsafeCharacter rest) as Hle.
  pose proof (length_drop i S) as Hlen. rewrite E in Hlen. simpl in Hlen.
  do 2 f_equal. lia.
Qed.

(** The search from [i] finds the first unsafe character. *)
Lemma search_unsafeCharacters S : forall steps i,
  (String.length S - i < steps)%nat ->
  search unsafeCharacters S steps i
  = let j := (i + lead safeCharacter (drop i S))%nat in
    match lead unsafeCharacter (drop j S) with
    | O => None
    | Datatypes.S r =>
        Some (j, {| endIndex := j + Datatypes.S r; captures := [] |})
    end.
Proof.
  induction steps as [|steps IH]; intros i Hsteps; [lia|].
  cbn [search]. rewrite matchAt_unsafeCharacters. cbv zeta.
  destruct (drop i S) as [|c rest] eqn:E.
  - cbn [lead]. rewrite Nat.add_0_r, E. cbn [lead].
    destruct steps; [reflexivity|].
    assert (E1 : drop (Datatypes.S i) S = EmptyString).
    { replace (Datatypes.S i) with (i + 1)%nat by lia. now rewrite drop_add, E. }
    rewrite IH.
    + cbv zeta. rewrite E1. cbn [lead]. rewrite Nat.add_0_r, E1. reflexivity.
    + pose proof (length_drop i S) as Hlen. rewrite E in Hlen. simpl in Hlen. lia.
  - cbn [lead]. unfold unsafeCharacter at 1.
    destruct (safeCharacter c) eqn:Ec; cbn [negb].
    + rewrite IH.
      * cbv zeta. rewrite (drop_succ _ _ _ _ E).
        replace (i + Datatypes.S (lead safeCharacter rest))%nat
          with (Datatypes.S i + lead safeCharacter rest)%nat by lia.
        reflexivity.
      * pose proof (length_drop i S) as Hlen. rewrite E in Hlen. simpl in Hlen. lia.
    + rewrite Nat.add_0_r, E. cbn [lead]. unfold unsafeCharacter at 1 2.
      rewrite Ec. reflexivity.
Qed.


Lemma take_drop k : forall s, (take k s ++ drop k s)%string = s.
Proof.
  induction k as [|k IH]; intros [|c s]; simpl; auto. now rewrite IH.
Qed.

Lemma collapseRuns_safe_prefix s :
  collapseRuns false s
  = (take (lead safeCharacter s) s
     ++ collapseRuns false (drop (lead safeCharacter s) s))%string.
Proof.
  induction s as [|c s IH]; [reflexivity|]. cbn [lead].
  destruct (safeCharacter c) eqn:Ec; [|reflexivity].
  cbn [take drop collapseRuns]. rewrite Ec. cbn [append]. now rewrite <- IH.
Qed.

Lemma collapseRuns_in_run s :
  collapseRuns true s = collapseRuns false (drop (lead unsafeCharacter s) s).
Proof.
  induction s as [|c s IH]; [reflexivity|]. cbn [lead]. unfold unsafeCharacter at 1.
  destruct (safeCharacter c) eqn:Ec; cbn [negb drop collapseRuns]; rewrite Ec;
    [reflexivity | exact IH].
Qed.

Lemma collapseRuns_unsafe_run s r :
  lead unsafeCharacter s = S r ->
  collapseRuns false s = String "-" (collapseRuns false (drop (S r) s)).
Proof.
  destruct s as [|c s]; [discriminate|]. cbn [lead]. unfold unsafeCharacter at 1.
  destruct (safeCharacter c) eqn:Ec; cbn [negb]; [discriminate|].
  intros [= <-]. cbn [collapseRuns drop]. rewrite Ec. f_equal.
  apply collapseRuns_in_run.
Qed.

(** After the leading safe characters the text is over, or an unsafe
    character follows. *)
Lemma after_safe_prefix s :
  lead unsafeCharacter (drop (lead safeCharacter s) s) = O ->
  drop (lead safeCharacter s) s = EmptyString.
Proof.
  induction s as [|c s IH]; [reflexivity|]. cbn [lead].
  destruct (safeCharacter c) eqn:Ec; cbn [drop]; [exact IH|].
  cbn [lead]. unfold unsafeCharacter. now rewrite Ec.
Qed.

(** The replacement, from any position on. *)
Lemma substitute_unsafeCharacters str : forall n i steps,
  (String.length str - i < n)%nat -> (i <= String.length str)%nat ->
  (String.length str + 2 - i <= steps)%nat ->
  substitute str "-" (execAll unsafeCharacters str steps i) i
  = collapseRuns false (drop i str).
Proof.
  induction n as [|n IH]; intros i steps Hn Hi Hsteps; [lia|].
  destruct steps as [|steps]; [lia|].
  cbn [execAll]. unfold regExpExec.
  change (global unsafeCharacters) with true. cbv iota.
  destruct (Nat.ltb_spec (String.length str) i) as [|_]; [lia|].
  rewrite search_unsafeCharacters by lia. cbv zeta.
  set (k := lead safeCharacter (drop i str)).
  pose proof (lead_le safeCharacter (drop i str)) as Hk. fold k in Hk.
  rewrite length_drop in Hk.
  rewrite (collapseRuns_safe_prefix (drop i str)). fold k. rewrite <- drop_add.
  destruct (lead unsafeCharacter (drop (i + k) str)) as [|r] eqn:Er.
  - cbn [substitute].
    rewrite drop_add in Er. apply after_safe_prefix in Er. fold k in Er.
    rewrite drop_add, Er. cbn [collapseRuns].
    rewrite <- (take_drop k (drop i str)) at 1. now rewrite Er.
  - pose proof (lead_le unsafeCharacter (drop (i + k) str)) as Hr.
    rewrite Er, length_drop in Hr.
    assert (Hm : String.length (slice (i + k) (i + k + S r) str) = S r).
    { unfold slice. replace (i + k + S r - (i + k))%nat with (S r) by lia.
      apply length_take_le. rewrite length_drop. lia. }
    unfold matched, element.
    cbn [Z.ltb Z.compare Z.to_nat nth_error elements hd tl endIndex captures].
    rewrite Hm. cbn [Nat.eqb substitute index elements tl].
    unfold matched, element. cbn [Z.ltb Z.compare Z.to_nat nth_error elements].
    rewrite Hm.
    destruct (Nat.leb_spec i (i + k)) as [_|]; [|lia].
    cbn [getSubstitution]. rewrite IH by lia.
    rewrite (collapseRuns_unsafe_run _ _ Er), <- drop_add.
    unfold slice. replace (i + k - i)%nat with k by lia. reflexivity.
Qed.

(** C8, as amended.  [safeChunkName] keeps the letters, the digits and the
    characters [.], [-] and [_], and replaces every maximal run of other
    characters by one [-]; the name it gives is never longer than the chunk
    name. *)
Theorem safeChunkName_collapses_runs chunkName :
  safeChunkName chunkName = collapseRuns false chunkName
  /\ (String.length (safeChunkName chunkName) <= String.length chunkName)%nat.
Proof.
  assert (E : safeChunkName chunkName = collapseRuns false chunkName).
  { unfold safeChunkName, stringReplace.
    change (global unsafeCharacters) with true. cbv iota.
    now rewrite (substitute_unsafeCharacters chunkName
                   (S (String.length chunkName)) 0) by lia. }
  split; [exact E|]. rewrite E. clear E.
  generalize false. induction chunkName as [|c s IH]; intros b; simpl; [lia|].
  pose proof (IH false). pose proof (IH true).
  destruct (safeCharacter c); [|destruct b]; simpl; lia.
Qed.

(** C8 as stated fails: two adjacent characters outside the class give one
    [-], and the safe name is shorter than the chunk name. *)
Lemma safeChunkName_shortens :
  safeChunkName "pages/[id]" = "pages-id-"
  /\ String.length (safeChunkName "pages/[id]") <> String.length "pages/[id]".
Proof. split; [vm_compute; reflexivity | vm_compute; discriminate]. Qed.

(** *** The patterns the plugin compiles never fail to compile *)

Lemma special_class c :
  xorb false (inClass false (map (fun x => (x, x))
                                 (list_ascii_of_string "-[]/{}()*+?.\^$|")) c)
  = specialCharacter c.
Proof.
  destruct c as [[] [] [] [] [] [] [] []]; reflexivity.
Qed.

Lemma matchAt_specialCharacters str i :
  matchAt specialCharacters str i
  = match drop i str with
    | String c _ =>
        if specialCharacter c then Some {| endIndex := S i; captures := [] |}
        else None
    | EmptyString => None
    end.
Proof.
  unfold matchAt. cbn [specialCharacters source ignoreCase multiline groupCount repeat
                       matchRe endIndex captures].
  rewrite consume_drop. destruct (drop i str) as [|c rest]; [reflexivity|].
  rewrite special_class. now destruct (specialCharacter c).
Qed.

Lemma search_specialCharacters str : forall steps i,
  (String.length str - i < steps)%nat ->
  search specialCharacters str steps i
  = let j := (i + lead ordinaryCharacter (drop i str))%nat in
    match drop j str with
    | String _ _ => Some (j, {| endIndex := S j; captures := [] |})
    | EmptyString => None
    end.
Proof.
  induction steps as [|steps IH]; intros i Hsteps; [lia|].
  cbn [search]. rewrite matchAt_specialCharacters. cbv zeta.
  destruct (drop i str) as [|c rest] eqn:E.
  - cbn [lead]. rewrite Nat.add_0_r, E.
    destruct steps; [reflexivity|].
    assert (E1 : drop (S i) str = EmptyString).
    { replace (S i) with (i + 1)%nat by lia. now rewrite drop_add, E. }
    rewrite IH.
    + cbv zeta. rewrite E1. cbn [lead]. rewrite Nat.add_0_r, E1. reflexivity.
    + pose proof (length_drop i str) as Hlen. rewrite E in Hlen. simpl in Hlen. lia.
  - cbn [lead].
    assert (Ho : ordinaryCharacter c = negb (specialCharacter c)) by reflexivity.
    rewrite Ho. destruct (specialCharacter c) eqn:Ec; cbn [negb].
    + rewrite Nat.add_0_r, E. reflexivity.
    + rewrite IH.
      * cbv zeta. rewrite (drop_succ _ _ _ _ E).
        replace (i + S (lead ordinaryCharacter rest))%nat
          with (S i + lead ordinaryCharacter rest)%nat by lia.
        reflexivity.
      * pose proof (length_drop i str) as Hlen. rewrite E in Hlen. simpl in Hlen. lia.
Qed.

Lemma escapeSpecial_ordinary_prefix s :
  escapeSpecial s
  = (take (lead ordinaryCharacter s) s
     ++ escapeSpecial (drop (lead ordinaryCharacter s) s))%string.
Proof.
  induction s as [|c s IH]; [reflexivity|]. cbn [lead].
  assert (Ho : ordinaryCharacter c = negb (specialCharacter c)) by reflexivity.
  rewrite Ho. destruct (specialCharacter c) eqn:Ec; cbn [negb]; [reflexivity|].
  cbn [take drop escapeSpecial]. rewrite Ec. cbn [append]. now rewrite <- IH.
Qed.

(** After the leading ordinary characters a special character follows, if
    anything. *)
Lemma after_ordinary_prefix s c rest :
  drop (lead ordinaryCharacter s) s = String c rest -> specialCharacter c = true.
Proof.
  induction s as [|a s IH]; [discriminate|]. cbn [lead].
  assert (Ho : ordinaryCharacter a = negb (specialCharacter a)) by reflexivity.
  rewrite Ho. destruct (specialCharacter a) eqn:Ea; cbn [negb drop]; [|exact IH].
  now intros [= <- _].
Qed.

Lemma substitute_specialCharacters str : forall n i steps,
  (String.length str - i < n)%nat -> (i <= String.length str)%nat ->
  (String.length str + 2 - i <= steps)%nat ->
  substitute str "\$&" (execAll specialCharacters str steps i) i
  = escapeSpecial (drop i str).
Proof.
  induction n as [|n IH]; intros i steps Hn Hi Hsteps; [lia|].
  destruct steps as [|steps]; [lia|].
  cbn [execAll]. unfold regExpExec.
  change (global specialCharacters) with true. cbv iota.
  destruct (Nat.ltb_spec (String.length str) i) as [|_]; [lia|].
  rewrite search_specialCharacters by lia. cbv zeta.
  set (k := lead ordinaryCharacter (drop i str)).
  pose proof (lead_le ordinaryCharacter (drop i str)) as Hk. fold k in Hk.
  rewrite length_drop in Hk.
  rewrite (escapeSpecial_ordinary_prefix (drop i str)). fold k. rewrite <- drop_add.
  destruct (drop (i + k) str) as [|c rest] eqn:Ej.
  - cbn [substitute escapeSpecial].
    rewrite <- (take_drop k (drop i str)) at 1. now rewrite <- drop_add, Ej.
  - assert (Hc : specialCharacter c = true).
    { rewrite drop_add in Ej. exact (after_ordinary_prefix _ _ _ Ej). }
    assert (Hj : (i + k < String.length str)%nat).
    { pose proof (length_drop (i + k) str) as Hlen. rewrite Ej in Hlen.
      simpl in Hlen. lia. }
    assert (Hm : slice (i + k) (S (i + k)) str = String c EmptyString).
    { unfold slice. replace (S (i + k) - (i + k))%nat with 1%nat by lia.
      rewrite Ej. reflexivity. }
    unfold matched, element.
    cbn [Z.ltb Z.compare Z.to_nat nth_error elements hd tl endIndex captures].
    rewrite Hm. cbn [String.length Nat.eqb substitute index elements tl].
    unfold matched, element. cbn [Z.ltb Z.compare Z.to_nat nth_error elements].
    destruct (Nat.leb_spec i (i + k)) as [_|]; [|lia].
    cbn [getSubstitution append String.length].
    replace (i + k + 1)%nat with (S (i + k)) by lia.
    rewrite IH by lia.
    cbn [escapeSpecial]. rewrite Hc, (drop_succ _ _ _ _ Ej).
    unfold slice. replace (i + k - i)%nat with k by lia. reflexivity.
Qed.

(** [sanitizeForRegexp] puts a backslash before every special character
    and changes nothing else. *)
Lemma sanitizeForRegexp_escapes s : sanitizeForRegexp s = escapeSpecial s.
Proof.
  unfold sanitizeForRegexp, stringReplace.
  change (global specialCharacters) with true. cbv iota.
  now rewrite (substitute_specialCharacters s (S (String.length s)) 0) by lia.
Qed.

(** The escaped text compiles to the pattern that matches the text
    literally. *)
Lemma parseEscaped_escapeSpecial s :
  parseEscaped (escapeSpecial s) = Some (literal s).
Proof.
  induction s as [|c s IH]; [reflexivity|]. cbn [escapeSpecial literal].
  destruct (specialCharacter c) eqn:Ec.
  - cbn [parseEscaped]. rewrite IH.
    revert Ec. destruct c as [[] [] [] [] [] [] [] []]; cbv; congruence.
  - assert (Hb : c <> "\"%char) by (intros ->; discriminate).
    assert (Hs : syntaxCharacter c = false).
    { revert Ec. destruct c as [[] [] [] [] [] [] [] []]; cbv; congruence. }
    transitivity (if syntaxCharacter c then None
                  else option_map (Seq (Chr c)) (parseEscaped (escapeSpecial s))).
    + destruct c as [[] [] [] [] [] [] [] []]; try reflexivity. now elim Hb.
    + now rewrite Hs, IH.
Qed.

Lemma newRegExp_sanitized s g i m :
  newRegExp (sanitizeForRegexp s) g i m
  = Some {| source := literal s; global := g; ignoreCase := i; multiline := m |}.
Proof.
  unfold newRegExp. now rewrite sanitizeForRegexp_escapes, parseEscaped_escapeSpecial.
Qed.

(** [ensureRegExp] always gives a pattern, with the flags g and m. *)
Lemma ensureRegExp_returns p :
  exists R, ensureRegExp p = Some R /\ global R = true /\ multiline R = true.
Proof.
  destruct p as [R0|s]; simpl.
  - eexists; split; [reflexivity|]. simpl.
    now destruct (global R0), (multiline R0).
  - rewrite newRegExp_sanitized. eexists; split; [reflexivity | auto].
Qed.



Section NoSyntaxError.
Variable fuel : nat.
Variable this : ExtractTranslationRegexPlugin.





End NoSyntaxError.

End PluginFacts.

(** ** Further properties *)

Module ExtraFacts.
Import KeyGenerator KeyGeneratorFacts JS JSFacts Plugin PluginFacts Output.

(** *** The key generator *)

Lemma allCharacters_app p s t :
  allCharacters p (s ++ t) = allCharacters p s && allCharacters p t.
Proof.
  induction s as [|c s IH]; simpl; [reflexivity|]. now rewrite IH, andb_assoc.
Qed.

Lemma alphabetAt_alphanumeric k c :
  alphabetAt k = Some c -> alphanumericCharacter c = true.
Proof.
  unfold alphabetAt. destruct (k <? 0); [discriminate|]. intros H.
  apply nth_error_In in H.
  assert (Hall : forallb alphanumericCharacter alphabet = true) by reflexivity.
  rewrite forallb_forall in Hall. now apply Hall.
Qed.

Lemma concatKey_alphanumeric e key :
  (forall c, e = Some c -> alphanumericCharacter c = true) ->
  allCharacters alphanumericCharacter key = true ->
  allCharacters alphanumericCharacter (concatKey e key) = true.
Proof.
  intros He Hkey. destruct e as [c|]; simpl.
  - now rewrite (He c eq_refl).
  - exact Hkey.
Qed.

Lemma doWhile_alphanumeric fuel : forall r key k,
  allCharacters alphanumericCharacter key = true ->
  doWhile fuel r key = Some k ->
  allCharacters alphanumericCharacter k = true.
Proof.
  induction fuel as [|fuel IH]; intros r key k Hkey H; simpl in H; [discriminate|].
  assert (Hc : allCharacters alphanumericCharacter
                 (concatKey (alphabetAt (Z.rem r alphabet_length)) key) = true).
  { apply concatKey_alphanumeric; [|exact Hkey].
    intros c. apply alphabetAt_alphanumeric. }
  destruct (toInt32 (r ÷ alphabet_length) =? 0).
  - now injection H as <-.
  - eapply IH; eassumption.
Qed.

Lemma doWhile_extends fuel : forall r key k,
  doWhile fuel r key = Some k ->
  (String.length key < String.length k)%nat.
Proof.
  induction fuel as [|fuel IH]; intros r key k H; simpl in H; [discriminate|].
  assert (Hc : (String.length key
                < String.length (concatKey (alphabetAt (Z.rem r alphabet_length)) key))%nat).
  { destruct (alphabetAt (Z.rem r alphabet_length)); simpl; lia. }
  destruct (toInt32 (r ÷ alphabet_length) =? 0).
  - now injection H as <-.
  - apply IH in H. lia.
Qed.

(** X1.  A call of [next] always comes back: for every state of the
    generator, seven iterations of the inner loop are enough, whatever the
    index; the key yielded is not empty, and the index goes up by one (or
    stays, at [2^53]). *)
Theorem next_always_yields fuel g :
  (7 <= fuel)%nat ->
  exists key g',
    next fuel g = Some (key, g')
    /\ key <> EmptyString
    /\ KeyGenerator.index g <= KeyGenerator.index g' <= KeyGenerator.index g + 1.
Proof.
  intros Hfuel. destruct (next_returns fuel g Hfuel) as (key & Hkey & Hnext).
  exists key, {| KeyGenerator.index := increment (KeyGenerator.index g) |}. split; [exact Hnext|]. split.
  - apply doWhile_extends in Hkey. intros ->. simpl in Hkey. lia.
  - simpl. unfold increment. destruct (KeyGenerator.index g <? 2 ^ 53); lia.
Qed.

Lemma next_always_yields_witness :
  exists key g',
    next 7 {| KeyGenerator.index := 2 ^ 40 |} = Some (key, g')
    /\ key <> EmptyString
    /\ KeyGenerator.index {| KeyGenerator.index := 2 ^ 40 |} <= KeyGenerator.index g' <= KeyGenerator.index {| KeyGenerator.index := 2 ^ 40 |} + 1.
Proof.
  apply (next_always_yields 7 {| KeyGenerator.index := 2 ^ 40 |}). lia.
Defined.

(** X2.  Whatever the state of the generator, the key it yields consists of
    digits and letters only. *)
Theorem yielded_key_is_alphanumeric fuel g key g' :
  next fuel g = Some (key, g') ->
  allCharacters alphanumericCharacter key = true.
Proof.
  unfold next. destruct (doWhile fuel (KeyGenerator.index g) "") as [k|] eqn:E; [|discriminate].
  intros [= <- _]. eapply doWhile_alphanumeric; [|exact E]. reflexivity.
Qed.

Lemma yielded_key_is_alphanumeric_witness :
  allCharacters alphanumericCharacter
    "undefinedundefinedundefinedundefinedundefinedundefined0" = true.
Proof.
  apply (yielded_key_is_alphanumeric 7 {| KeyGenerator.index := firstWrappedIndex |}
           "undefinedundefinedundefinedundefinedundefinedundefined0"
           {| KeyGenerator.index := firstWrappedIndex + 1 |}).
  vm_compute. reflexivity.
Defined.

(** X3.  Below the index [62 * 2^31] the length of the key is the number
    of base-62 digits of the index: at most seven characters, and never
    shorter than the key of a smaller index. *)
Theorem key_length_is_digit_count fuel m n km kn :
  (7 <= fuel)%nat ->
  (m <= n)%nat -> Z.of_nat n < 62 * 2 ^ 31 ->
  nthKey fuel m = Some km -> nthKey fuel n = Some kn ->
  (1 <= String.length kn <= 7)%nat
  /\ Z.of_nat n < 62 ^ Z.of_nat (String.length kn)
  /\ ((0 < n)%nat -> 62 ^ (Z.of_nat (String.length kn) - 1) <= Z.of_nat n)
  /\ (String.length km <= String.length kn)%nat.
Proof.
  intros Hfuel Hmn Hn Hkm Hkn.
  assert (Hmag : forall i k, Z.of_nat i < 62 * 2 ^ 31 -> nthKey fuel i = Some k ->
             (1 <= String.length k)%nat
             /\ Z.of_nat i < 62 ^ Z.of_nat (String.length k)
             /\ ((0 < i)%nat -> 62 ^ (Z.of_nat (String.length k) - 1) <= Z.of_nat i)).
  { intros i k Hi Hk.
    destruct (nthKey_in_range fuel i Hfuel Hi) as (k' & Hk' & Hb).
    rewrite Hk in Hk'. injection Hk' as <-.
    destruct (base62_magnitude _ _ Hb) as [[Hz ->]|[Hr Hl]].
    - simpl String.length. change (Z.of_nat 1) with 1. repeat split; lia.
    - repeat split; lia. }
  destruct (Hmag n kn Hn Hkn) as (Hn1 & Hn2 & Hn3).
  destruct (Hmag m km ltac:(lia) Hkm) as (Hm1 & Hm2 & Hm3).
  repeat split; try assumption; try lia.
  - destruct (Nat.le_gt_cases (String.length kn) 7) as [|Hgt]; [assumption|].
    assert (62 ^ 7 <= 62 ^ (Z.of_nat (String.length kn) - 1))
      by (apply Z.pow_le_mono_r; lia).
    destruct n; [|specialize (Hn3 ltac:(lia)); lia].
    destruct (nthKey_in_range fuel 0 Hfuel ltac:(lia)) as (k' & Hk' & Hb).
    rewrite Hkn in Hk'. injection Hk' as <-.
    destruct (base62_magnitude _ _ Hb) as [[_ ->]|[Hr Hl]]; [simpl in Hgt; lia|].
    assert (0 < 62 ^ (Z.of_nat (String.length kn) - 1))
      by (apply Z.pow_pos_nonneg; lia).
    lia.
  - destruct (Nat.le_gt_cases (String.length km) (String.length kn)) as [|Hgt];
      [assumption|].
    assert (62 ^ Z.of_nat (String.length kn) <= 62 ^ (Z.of_nat (String.length km) - 1))
      by (apply Z.pow_le_mono_r; lia).
    destruct m as [|m'].
    + destruct (nthKey_in_range fuel 0 Hfuel ltac:(lia)) as (k' & Hk' & Hb).
      rewrite Hkm in Hk'. injection Hk' as <-.
      destruct (base62_magnitude _ _ Hb) as [[_ ->]|[Hr Hl]]; [simpl in Hgt; lia|].
      assert (0 < 62 ^ (Z.of_nat (String.length km) - 1))
        by (apply Z.pow_pos_nonneg; lia).
      lia.
    + specialize (Hm3 ltac:(lia)). lia.
Qed.

Lemma key_length_is_digit_count_witness :
  (1 <= String.length "100" <= 7)%nat
  /\ Z.of_nat 3844 < 62 ^ Z.of_nat (String.length "100")
  /\ ((0 < 3844)%nat -> 62 ^ (Z.of_nat (String.length "100") - 1) <= Z.of_nat 3844)
  /\ (String.length "zz" <= String.length "100")%nat.
Proof.
  apply (key_length_is_digit_count 7 3843 3844 "zz" "100");
    try (vm_compute; reflexivity); lia.
Defined.

(** *** Patterns built from text *)

Lemma groupCount_literal s : groupCount (literal s) = O.
Proof. induction s as [|c s IH]; simpl; [reflexivity | exact IH]. Qed.

(** The pattern [literal s] matches exactly the text [s]. *)
Lemma matchRe_literal input ml s : forall base i caps,
  matchRe input false ml (literal s) base {| endIndex := i; captures := caps |}
  = if startsWith s (drop i input)
    then [ {| endIndex := i + String.length s; captures := caps |} ]
    else [].
Proof.
  induction s as [|c s IH]; intros base i caps.
  - simpl. now rewrite Nat.add_0_r.
  - cbn [literal matchRe groupCount]. rewrite consume_drop.
    cbn [startsWith].
    destruct (drop i input) as [|a rest] eqn:E; [reflexivity|].
    unfold canonicalize. rewrite (Ascii.eqb_sym c a).
    destruct (Ascii.eqb a c); cbn [andb]; [|reflexivity].
    cbn [flat_map]. rewrite app_nil_r, IH, (drop_succ _ _ _ _ E).
    cbn [String.length]. replace (S i + String.length s)%nat
      with (i + S (String.length s))%nat by lia.
    reflexivity.
Qed.

(** X4.  The text that [sanitizeForRegexp] gives always compiles, and the
    pattern matches at a position exactly when the original text stands
    there, character for character. *)
Theorem sanitized_text_matches_literally s g m str i :
  exists R,
    newRegExp (sanitizeForRegexp s) g false m = Some R
    /\ global R = g /\ multiline R = m
    /\ matchAt R str i
       = if startsWith s (drop i str)
         then Some {| endIndex := i + String.length s; captures := [] |}
         else None.
Proof.
  rewrite newRegExp_sanitized. eexists. split; [reflexivity|].
  split; [reflexivity|]. split; [reflexivity|].
  unfold matchAt. cbn [source ignoreCase multiline].
  rewrite groupCount_literal, matchRe_literal.
  now destruct (startsWith s (drop i str)).
Qed.

(** X5.  [ensureRegExp] never fails.  The pattern it gives has the flags g
    and m; of a RegExp it keeps the source and the flag i, of a string it
    makes the pattern of the literal text; and applied to its own result it
    changes nothing. *)
Theorem ensureRegExp_normalizes p :
  exists R,
    ensureRegExp p = Some R
    /\ global R = true /\ multiline R = true
    /\ match p with
       | PatternRegExp R0 => source R = source R0 /\ ignoreCase R = ignoreCase R0
       | PatternString s => source R = literal s /\ ignoreCase R = false
       end
    /\ ensureRegExp (PatternRegExp R) = Some R.
Proof.
  destruct p as [R0|s]; simpl.
  - eexists. split; [reflexivity|]. simpl.
    destruct (global R0), (multiline R0); auto.
  - rewrite newRegExp_sanitized. eexists. split; [reflexivity|]. simpl. auto.
Qed.

(** *** The key group *)

(** X6.  [getKeyIndexFromMatch] gives [-1] exactly when no listed index has
    a non-empty element in the match; otherwise it gives the first listed
    index that has one, which is an index into the array of the match. *)
Theorem getKeyIndexFromMatch_first m indices :
  (getKeyIndexFromMatch m indices = -1
   /\ forall i, In i indices -> truthy (element m i) = false)
  \/ exists before i after,
       indices = (before ++ i :: after)%list
       /\ (forall j, In j before -> truthy (element m j) = false)
       /\ truthy (element m i) = true
       /\ 0 <= i < Z.of_nat (List.length (elements m))
       /\ getKeyIndexFromMatch m indices = i.
Proof.
  induction indices as [|index rest IH]; simpl.
  - left. split; [reflexivity | intros i []].
  - destruct (truthy (element m index)) eqn:E.
    + right. exists [], index, rest. repeat split; auto; try (intros j []).
      * unfold element in E. destruct (Z.ltb_spec index 0); [discriminate | lia].
      * unfold element in E. destruct (index <? 0); [discriminate|].
        destruct (nth_error (elements m) (Z.to_nat index)) eqn:En; [|discriminate].
        assert (Z.to_nat index < List.length (elements m))%nat
          by (apply nth_error_Some; congruence).
        unfold element in E. lia.
    + destruct IH as [[H1 H2]|(before & i & after & -> & Hb & Hi & Hr & Hg)].
      * left. split; [exact H1|]. intros i [<-|Hi]; auto.
      * right. exists (index :: before), i, after. repeat split; auto; try lia.
        intros j [<-|Hj]; auto.
Qed.

(** *** Tables *)

Lemma getOwn_insertKey_other {V : Type} (o : object V) k v k' :
  k' <> k -> getOwn (insertKey k v o) k' = getOwn o k'.
Proof.
  intros Hne. induction o as [|[k0 v0] o IH]; simpl.
  - destruct (String.eqb_spec k' k); [contradiction | reflexivity].
  - destruct (comesBefore k k0); simpl.
    + destruct (String.eqb_spec k' k); [contradiction | reflexivity].
    + now rewrite IH.
Qed.

Lemma getOwn_updateKey_other {V : Type} (o : object V) k v k' :
  k' <> k -> getOwn (updateKey k v o) k' = getOwn o k'.
Proof.
  intros Hne. induction o as [|[k0 v0] o IH]; simpl; [reflexivity|].
  destruct (String.eqb_spec k k0) as [->|Hk]; simpl.
  - destruct (String.eqb_spec k' k0); [contradiction | reflexivity].
  - now rewrite IH.
Qed.

Lemma getOwn_setProperty_other o k v k' :
  k' <> k -> getOwn (setProperty o k v) k' = getOwn o k'.
Proof.
  intros Hne. unfold setProperty, defineOwn.
  destruct (String.eqb k "__proto__"); [reflexivity|].
  destruct (hasOwn o k);
    [now apply getOwn_updateKey_other | now apply getOwn_insertKey_other].
Qed.

Lemma hasOwn_In {V : Type} (o : object V) k v : In (k, v) o -> hasOwn o k = true.
Proof.
  intros H. unfold hasOwn. apply existsb_exists. exists (k, v).
  split; [exact H | apply String.eqb_refl].
Qed.

Lemma hasOwn_getOwn {V : Type} (o : object V) k :
  hasOwn o k = match getOwn o k with Some _ => true | None => false end.
Proof.
  induction o as [|[k0 v0] o IH]; simpl; [reflexivity|].
  destruct (String.eqb k k0); simpl; [reflexivity | exact IH].
Qed.

(** X7.  [flipObject] throws on a table that has the own key
    [hasOwnProperty]: the test of its loop calls the string stored there.
    On every other table it looks up by value: for a value other than
    [__proto__], the flipped table gives the last key of the table, in the
    order of enumeration, that has this value.  So of two keys with one
    value the later one wins. *)
Theorem flipObject_gives_last_key obj before k v after :
  obj = (before ++ (k, v) :: after)%list ->
  (forall k', ~ In (k', v) after) ->
  v <> "__proto__" ->
  if hasOwn obj "hasOwnProperty" then flipObject obj = ThrowsTypeError
  else exists flipped,
         flipObject obj = Returns flipped /\ getOwn flipped v = Some k.
Proof.
  intros Hobj Hlast Hproto. unfold flipObject.
  destruct (hasOwn obj "hasOwnProperty"); [reflexivity|].
  eexists. split; [reflexivity|].
  set (f := fun (newObj : object string) '(prop, v0) =>
              if hasOwn obj prop then setProperty newObj v0 prop else newObj).
  assert (Hafter : forall l acc,
             (forall k', ~ In (k', v) l) ->
             (forall e, In e l -> In e obj) ->
             getOwn (fold_left f l acc) v = getOwn acc v).
  { induction l as [|[k0 v0] l IH]; intros acc Hno Hin; simpl; [reflexivity|].
    rewrite IH.
    - unfold f. rewrite (hasOwn_In obj k0 v0) by (apply Hin; now left).
      apply getOwn_setProperty_other. intros ->. apply (Hno k0). now left.
    - intros k' H. apply (Hno k'). now right.
    - intros e H. apply Hin. now right. }
  assert (Hk : In (k, v) obj)
    by (rewrite Hobj; apply in_or_app; right; now left).
  assert (Hsub : forall e, In e after -> In e obj)
    by (intros e H; rewrite Hobj; apply in_or_app; right; now right).
  replace (fold_left f obj []) with (fold_left f (before ++ (k, v) :: after)%list [])
    by now rewrite Hobj.
  rewrite fold_left_app. cbn [fold_left].
  rewrite (Hafter _ _ Hlast Hsub).
  unfold f at 1. rewrite (hasOwn_In obj k v Hk).
  now apply getOwn_setProperty.
Qed.

Lemma flipObject_gives_last_key_witness :
  (exists flipped,
     flipObject [("a", "0"); ("b", "1"); ("c", "0")] = Returns flipped
     /\ getOwn flipped "0" = Some "c")
  /\ flipObject [("hasOwnProperty", "0")] = ThrowsTypeError.
Proof.
  split.
  - apply (flipObject_gives_last_key [("a", "0"); ("b", "1"); ("c", "0")]
             [("a", "0"); ("b", "1")] "c" "0" []).
    + reflexivity.
    + intros k' H. exact H.
    + discriminate.
  - apply (flipObject_gives_last_key [("hasOwnProperty", "0")]
             [] "hasOwnProperty" "0" []).
    + reflexivity.
    + intros k' H. exact H.
    + discriminate.
Defined.

(** *** The module filter *)

Lemma last_map_defined {A : Type} (g : A -> string) (l : list A) :
  l <> [] -> exists t, last (map (fun x => Some (g x)) l) None = Some t.
Proof.
  induction l as [|a l IH]; intros H; [contradiction|].
  destruct l as [|b l]; [simpl; eauto|].
  change (map (fun x => Some (g x)) (a :: b :: l))
    with (Some (g a) :: map (fun x => Some (g x)) (b :: l)).
  change (last (Some (g a) :: map (fun x => Some (g x)) (b :: l)) None)
    with (last (map (fun x => Some (g x)) (b :: l)) None).
  apply IH. discriminate.
Qed.

(** The last element of the array of [match] is a string when the pattern
    has the flag g or has no group. *)
Lemma stringMatch_last_defined s R matches :
  global R = true \/ groupCount (source R) = O ->
  stringMatch s R = Some matches ->
  exists t, lastElement matches = Some t.
Proof.
  intros Hshape. unfold stringMatch. destruct (global R) eqn:Hg.
  - destruct (execAll R s (String.length s + 2) 0) as [|m results] eqn:E;
      [discriminate|].
    intros [= <-]. unfold lastElement.
    apply (last_map_defined matched (m :: results)). discriminate.
  - destruct Hshape as [Habs|Hcount]; [congruence|].
    destruct (fst (regExpExec R s 0)) as [m|] eqn:E; [|discriminate].
    intros [= <-].
    destruct (regExpExec_elements _ _ _ _ E) as (full & caps & -> & Hlen).
    rewrite Hcount in Hlen. destruct caps; [|discriminate].
    exists full. reflexivity.
Qed.

(** X8.  A chain in which every pattern has the flag g or has no capturing
    group never throws: [filterModule] answers true or false for every
    request. *)
Theorem filterModule_answers chain :
  Forall (fun R => global R = true \/ groupCount (source R) = O) chain ->
  forall request, exists answer, filterModule (Some request) chain = Returns answer.
Proof.
  induction 1 as [|R rest HR Hrest IH]; intros request; [simpl; eauto|].
  cbn [filterModule].
  destruct (stringMatch request R) as [matches|] eqn:E; [|eauto].
  destruct (stringMatch_last_defined _ _ _ HR E) as [t ->]. apply IH.
Qed.

Lemma filterModule_answers_witness :
  exists answer,
    filterModule (Some "a1b2") [letterDigitGlobal; noFlags (literal "b2")]
    = Returns answer.
Proof.
  apply (filterModule_answers [letterDigitGlobal; noFlags (literal "b2")]).
  apply Forall_cons; [left; reflexivity|].
  apply Forall_cons; [right; reflexivity|].
  apply Forall_nil.
Defined.



(** X9.  Patterns added at the end of a chain can only take requests away:
    a request the longer chain accepts is accepted by the chain itself, and
    a request the chain rejects, or on which it throws, fares the same with
    the longer chain. *)
Theorem filterModule_longer_chain chain more : forall subject,
  (filterModule subject (chain ++ more) = Returns true ->
   filterModule subject chain = Returns true)
  /\ (filterModule subject chain = Returns false ->
      filterModule subject (chain ++ more) = Returns false)
  /\ (filterModule subject chain = ThrowsTypeError ->
      filterModule subject (chain ++ more) = ThrowsTypeError).
Proof.
  induction chain as [|R rest IH]; intros subject.
  - simpl. repeat split; intros; try discriminate; reflexivity.
  - cbn [app filterModule]. destruct subject as [s|];
      [|repeat split; intros; try discriminate; reflexivity].
    destruct (stringMatch s R) as [matches|];
      [apply IH | repeat split; intros; try discriminate; reflexivity].
Qed.

Lemma filterModule_longer_chain_witness :
  filterModule (Some "b") ([justX] ++ [aOrGroupB]) = Returns false.
Proof.
  apply (proj1 (proj2 (filterModule_longer_chain [justX] [aOrGroupB] (Some "b")))).
  reflexivity.
Defined.

(** *** The handler of optimize-chunks *)







Section Flippable.

Variable fuel : nat.
Variable this : ExtractTranslationRegexPlugin.










End Flippable.








(** The flipping loop touches the tables only. *)
Lemma flipKeys_frame st :
  exists tables,
    flipKeys st = Continue {| keys := tables; generator := generator st;
                              errors := errors st; store := store st |}
    \/ flipKeys st = Throws {| keys := tables; generator := generator st;
                               errors := errors st; store := store st |}.
Proof.
  unfold flipKeys. destruct (flipTables (keys st)) as [tables threw].
  exists tables. destruct threw; auto.
Qed.

(** X12.  The handler never removes an error and adds at most one: when it
    stops with [return false] inside the loop, [compilation.errors] has
    grown by exactly the message about the capture block; when it runs to
    its end or throws, [compilation.errors] is as before. *)
Theorem handler_pushes_at_most_one_error fuel this chunks st :
  match optimizeChunks fuel this chunks st with
  | Continue st' => errors st' = errors st
  | ReturnFalse st' => errors st' = (errors st ++ [captureBlockError])%list
  | Throws st' => errors st' = errors st
  | OutOfFuel => True
  end.
Proof.
  pose proof (processChunks_frame fuel this chunks st) as H.
  unfold optimizeChunks.
  destruct (processChunks fuel this chunks st) as [s1|s1|s1|];
    simpl in H |- *; try exact H.
  destruct (flipKeys_frame s1) as (tables & [-> | ->]); exact H.
Qed.

(** A module on which the handler has nothing to do: it has no request,
    the filter rejects it, or the pattern finds no call in its source. *)
Lemma processModule_quiet fuel this chunkName id st :
  fuel <> O ->
  (forall module,
     nth_error (store st) id = Some module ->
     truthyString (userRequest module) = false
     \/ filterModule (userRequest module) (moduleFilter this) = Returns false
     \/ (filterModule (userRequest module) (moduleFilter this) = Returns true
         /\ exists text,
              sourceValue module = Some text
              /\ forall regex,
                   ensureRegExp (functionPattern this) = Some regex ->
                   fst (regExpExec regex text 0) = None)) ->
  processModule fuel this chunkName id st = Continue st.
Proof.
  intros Hfuel Hquiet. unfold processModule.
  destruct (nth_error (store st) id) as [module|] eqn:Hid; [|reflexivity].
  destruct (Hquiet module eq_refl) as [Ht | [Hf | [Hf (text & Htext & Hnone)]]].
  - now rewrite Ht.
  - rewrite Hf. now destruct (truthyString (userRequest module)).
  - rewrite Hf, Htext. destruct (truthyString (userRequest module)); [|reflexivity].
    destruct (ensureRegExp_returns (functionPattern this)) as (regex & Hre & _).
    rewrite Hre. specialize (Hnone regex Hre).
    destruct fuel as [|n]; [contradiction|]. cbn [scan].
    destruct (regExpExec regex text 0) as [[m|] lastIndex];
      [discriminate|].
    rewrite (setSource_same _ _ _ _ Hid Htext). now destruct st.
Qed.

(** X13.  Chunks in which no module has a call to translate leave no
    trace: when every module of the chunks has no request, is rejected by
    the filter or has a source without a match of the pattern, the loops
    run to their end and change neither the sources, nor the errors, nor the
    generator, and create no table for these chunks; what is left of the
    handler is the flipping of the tables there were. *)
Theorem quiet_chunks_leave_no_trace fuel this chunks st :
  fuel <> O ->
  (forall c id module,
     In c chunks -> In id (modules c) ->
     nth_error (store st) id = Some module ->
     truthyString (userRequest module) = false
     \/ filterModule (userRequest module) (moduleFilter this) = Returns false
     \/ (filterModule (userRequest module) (moduleFilter this) = Returns true
         /\ exists text,
              sourceValue module = Some text
              /\ forall regex,
                   ensureRegExp (functionPattern this) = Some regex ->
                   fst (regExpExec regex text 0) = None)) ->
  processChunks fuel this chunks st = Continue st
  /\ optimizeChunks fuel this chunks st = flipKeys st.
Proof.
  intros Hfuel Hquiet.
  assert (Hmodules : forall c, In c chunks ->
            forall ids, (forall id, In id ids -> In id (modules c)) ->
            processModules fuel this (name c) ids st = Continue st).
  { intros c Hc. induction ids as [|id ids IH]; intros Hsub; [reflexivity|].
    cbn [processModules]. rewrite processModule_quiet.
    - apply IH. intros id' H. apply Hsub. now right.
    - exact Hfuel.
    - intros module Hid. apply (Hquiet c id module Hc); [|exact Hid].
      apply Hsub. now left. }
  assert (Hchunks : processChunks fuel this chunks st = Continue st).
  { induction chunks as [|c chunks IH]; [reflexivity|].
    cbn [processChunks]. rewrite (Hmodules c) by (auto; now left).
    apply IH.
    - intros c' id module Hc'. apply Hquiet. now right.
    - intros c' Hc'. apply Hmodules. now right. }
  split; [exact Hchunks|]. unfold optimizeChunks. now rewrite Hchunks.
Qed.

Lemma quiet_chunks_leave_no_trace_witness :
  processChunks 10 manglingPlugin [mainChunk [0%nat; 1%nat]]
    (initialState [moduleOf "/src/a.css" "gettext('a')"; moduleOf "/src/b.js" "f('b')"])
  = Continue
      (initialState [moduleOf "/src/a.css" "gettext('a')"; moduleOf "/src/b.js" "f('b')"])
  /\ optimizeChunks 10 manglingPlugin [mainChunk [0%nat; 1%nat]]
       (initialState [moduleOf "/src/a.css" "gettext('a')"; moduleOf "/src/b.js" "f('b')"])
     = Continue
         (initialState [moduleOf "/src/a.css" "gettext('a')";
                        moduleOf "/src/b.js" "f('b')"]).
Proof.
  apply (quiet_chunks_leave_no_trace 10 manglingPlugin [mainChunk [0%nat; 1%nat]]
           (initialState [moduleOf "/src/a.css" "gettext('a')";
                          moduleOf "/src/b.js" "f('b')"])).
  - discriminate.
  - intros c id module [<-|[]] [<-|[<-|[]]] [= <-].
    + right. left. vm_compute. reflexivity.
    + right. right. split; [vm_compute; reflexivity|].
      exists "f('b')". split; [reflexivity|].
      intros regex [= <-]. vm_compute. reflexivity.
Defined.

(** *** Generated keys and the tables *)

Lemma doWhile_fuel fuel1 : forall fuel2 r key k1 k2,
  doWhile fuel1 r key = Some k1 -> doWhile fuel2 r key = Some k2 -> k1 = k2.
Proof.
  induction fuel1 as [|f1 IH]; intros [|f2] r key k1 k2 H1 H2; try discriminate.
  cbn [doWhile] in H1, H2.
  destruct (toInt32 (Z.quot r alphabet_length) =? 0).
  - congruence.
  - eapply IH; eassumption.
Qed.

(** Below [firstWrappedIndex] the yielded key is the digits of the index. *)
Lemma next_decodes fuel g key g' :
  0 <= KeyGenerator.index g < firstWrappedIndex ->
  next fuel g = Some (key, g') ->
  decodeFrom 0 key = Some (KeyGenerator.index g)
  /\ KeyGenerator.index g' = KeyGenerator.index g + 1.
Proof.
  unfold firstWrappedIndex. intros Hr H. unfold next in H.
  destruct (doWhile fuel (KeyGenerator.index g) "") as [k|] eqn:E; [|discriminate].
  injection H as <- <-.
  destruct (doWhile_digits 7 (KeyGenerator.index g) "") as (ds & Hd & Hdec & _);
    [lia | change (Z.of_nat 7) with 7; lia | lia |].
  rewrite string_app_empty in Hd. rewrite (doWhile_fuel _ _ _ _ _ _ E Hd).
  split.
  - rewrite Hdec. f_equal; lia.
  - unfold increment. cbn [KeyGenerator.index].
    destruct (Z.ltb_spec (KeyGenerator.index g) (2 ^ 53)); lia.
Qed.

Lemma next_index fuel g key g' :
  next fuel g = Some (key, g') ->
  KeyGenerator.index g' = increment (KeyGenerator.index g).
Proof.
  unfold next. destruct (doWhile fuel (KeyGenerator.index g) ""); [|discriminate].
  now intros [= <- <-].
Qed.

Lemma Permutation_insertKey {V : Type} k (v : V) o :
  Permutation (insertKey k v o) ((k, v) :: o).
Proof.
  induction o as [|[k' v'] o IH]; simpl; [apply Permutation_refl|].
  destruct (comesBefore k k'); [apply Permutation_refl|].
  eapply perm_trans; [apply perm_skip, IH | apply perm_swap].
Qed.

Lemma updateKey_split {V : Type} (o : object V) k v v' :
  getOwn o k = Some v ->
  exists pre post,
    o = (pre ++ (k, v) :: post)%list
    /\ updateKey k v' o = (pre ++ (k, v') :: post)%list.
Proof.
  induction o as [|[k0 v0] o IH]; simpl; [discriminate|].
  destruct (String.eqb_spec k k0) as [->|Hne].
  - intros [= ->]. now exists [], o.
  - intros H. destruct (IH H) as (pre & post & -> & ->).
    now exists ((k0, v0) :: pre), post.
Qed.

Lemma tableValues_defineOwn keys c table' extra :
  Permutation (map snd table')
              (extra ++ map snd (match getOwn keys c with
                                 | Some table => table
                                 | None => []
                                 end)) ->
  Permutation (tableValues (defineOwn keys c table')) (extra ++ tableValues keys).
Proof.
  intros H. unfold defineOwn. rewrite hasOwn_getOwn.
  destruct (getOwn keys c) as [table|] eqn:E.
  - destruct (updateKey_split keys c table table' E) as (pre & post & -> & ->).
    unfold tableValues. rewrite !flat_map_app. cbn [flat_map snd].
    eapply perm_trans.
    + apply Permutation_app_head, Permutation_app_tail, H.
    + rewrite <- app_assoc. apply Permutation_app_swap_app.
  - cbn [map] in H. rewrite app_nil_r in H.
    eapply perm_trans.
    + unfold tableValues. apply Permutation_flat_map, Permutation_insertKey.
    + cbn [flat_map snd]. apply Permutation_app_tail, H.
Qed.

Lemma values_setProperty_fresh table value key :
  hasProperty table value = false ->
  Permutation (map snd (setProperty table value key)) (key :: map snd table).
Proof.
  intros H. unfold setProperty.
  destruct (String.eqb_spec value "__proto__") as [->|_];
    [now rewrite hasProperty_proto in H|].
  unfold hasProperty in H. apply orb_false_iff in H. destruct H as [Hown _].
  unfold defineOwn. rewrite Hown.
  apply (Permutation_map snd (Permutation_insertKey value key table)).
Qed.

Lemma generatedSoFar_same st st' :
  Permutation (tableValues (keys st')) (tableValues (keys st)) ->
  generator st' = generator st ->
  generatedSoFar st -> generatedSoFar st'.
Proof.
  intros Hperm Hgen [H0 H]. unfold generatedSoFar. rewrite Hgen.
  split; [exact H0|]. intros Hle. destruct (H Hle) as (Hnd & Hlen & Hin).
  repeat split.
  - apply (Permutation_NoDup (Permutation_sym Hperm) Hnd).
  - now rewrite (Permutation_length Hperm).
  - intros k Hk. apply Hin. apply (Permutation_in _ Hperm Hk).
Qed.

Lemma generatedSoFar_next fuel st st' key :
  Permutation (tableValues (keys st')) (key :: tableValues (keys st)) ->
  next fuel (generator st) = Some (key, generator st') ->
  generatedSoFar st -> generatedSoFar st'.
Proof.
  intros Hperm Hnext [H0 H]. pose proof (next_index _ _ _ _ Hnext) as Hidx.
  unfold generatedSoFar, firstWrappedIndex in *. unfold increment in Hidx.
  destruct (Z.ltb_spec (KeyGenerator.index (generator st)) (2 ^ 53)) as [Hlt|Hge].
  - split; [lia|]. intros Hle.
    destruct H as (Hnd & Hlen & Hin); [lia|].
    assert (Hrange : 0 <= KeyGenerator.index (generator st) < firstWrappedIndex)
      by (unfold firstWrappedIndex; lia).
    destruct (next_decodes fuel _ _ _ Hrange Hnext) as [Hdec _].
    repeat split.
    + apply (Permutation_NoDup (Permutation_sym Hperm)). constructor; [|exact Hnd].
      intros Hk. destruct (Hin _ Hk) as (n & Hn & Hd). rewrite Hdec in Hd.
      injection Hd as Hd. lia.
    + rewrite (Permutation_length Hperm). cbn [List.length]. lia.
    + intros k Hk. apply (Permutation_in _ Hperm) in Hk. destruct Hk as [<-|Hk].
      * exists (KeyGenerator.index (generator st)). split; [lia | exact Hdec].
      * destruct (Hin _ Hk) as (n & Hn & Hd). exists n. split; [lia | exact Hd].
  - split; [lia|]. intros Hle. lia.
Qed.

Section Mangling.

Variable fuel : nat.
Variable this : ExtractTranslationRegexPlugin.
Hypothesis mangling : mangle this = true.

Lemma processMatch_generated chunkName m st source st' source' :
  processMatch fuel this chunkName m st source = Continue (st', source') ->
  generatedSoFar st -> generatedSoFar st'.
Proof.
  unfold processMatch, assignKey.
  destruct (getKeyIndexFromMatch m (groupIndex this) =? -1); [discriminate|].
  set (value := valueAt m (getKeyIndexFromMatch m (groupIndex this))).
  set (table := match getOwn (keys st) chunkName with Some t => t | None => [] end).
  rewrite mangling.
  destruct (hasProperty table value) eqn:Hhas.
  - destruct (rewriteSource this m _ value source); [|discriminate].
    intros [= <- <-]. apply generatedSoFar_same; [|reflexivity].
    cbn [keys]. apply (tableValues_defineOwn (keys st) chunkName table []).
    apply Permutation_refl.
  - destruct (next fuel (generator st)) as [[key gen']|] eqn:Hnext; [|discriminate].
    destruct (rewriteSource this m _ key source); [|discriminate].
    intros [= <- <-]. apply (generatedSoFar_next fuel _ _ key); [|exact Hnext].
    cbn [keys]. apply (tableValues_defineOwn (keys st) chunkName _ [key]).
    now apply values_setProperty_fresh.
Qed.

Lemma scan_generated chunkName regex : forall n st source lastIndex st' source',
  scan fuel this n chunkName regex st source lastIndex = Continue (st', source') ->
  generatedSoFar st -> generatedSoFar st'.
Proof.
  induction n as [|n IH]; intros st source lastIndex st' source' H Hinv;
    [discriminate|].
  cbn [scan] in H.
  destruct (regExpExec regex source lastIndex) as [[m|] lastIndex'].
  - destruct (processMatch fuel this chunkName m st source) as [[s1 src1]|s1|s1|] eqn:Hm;
      try discriminate.
    apply (IH _ _ _ _ _ H). apply (processMatch_generated _ _ _ _ _ _ Hm Hinv).
  - now injection H as <- <-.
Qed.

Lemma processModule_generated chunkName id st st' :
  processModule fuel this chunkName id st = Continue st' ->
  generatedSoFar st -> generatedSoFar st'.
Proof.
  unfold processModule.
  destruct (nth_error (store st) id) as [module|]; [|now intros [= <-]].
  destruct (truthyString (userRequest module)); [|now intros [= <-]].
  destruct (filterModule (userRequest module) (moduleFilter this)) as [[|]|];
    [|now intros [= <-]|discriminate].
  destruct (sourceValue module) as [text|]; [|discriminate].
  destruct (ensureRegExp (functionPattern this)) as [regex|]; [|discriminate].
  destruct (scan fuel this fuel chunkName regex st text 0)
    as [[s1 src]|s1|s1|] eqn:Hs; try discriminate.
  intros [= <-] Hinv.
  apply (generatedSoFar_same s1); [apply Permutation_refl | reflexivity |].
  apply (scan_generated _ _ _ _ _ _ _ _ Hs Hinv).
Qed.

Lemma processModules_generated chunkName : forall ids st st',
  processModules fuel this chunkName ids st = Continue st' ->
  generatedSoFar st -> generatedSoFar st'.
Proof.
  induction ids as [|id ids IH]; intros st st' H Hinv; simpl in H.
  - now injection H as <-.
  - destruct (processModule fuel this chunkName id st) as [s1|s1|s1|] eqn:Hm;
      try discriminate.
    apply (IH _ _ H). apply (processModule_generated _ _ _ _ Hm Hinv).
Qed.

Lemma processChunks_generated : forall chunks st st',
  processChunks fuel this chunks st = Continue st' ->
  generatedSoFar st -> generatedSoFar st'.
Proof.
  induction chunks as [|c chunks IH]; intros st st' H Hinv; simpl in H.
  - now injection H as <-.
  - destruct (processModules fuel this (name c) (modules c) st) as [s1|s1|s1|] eqn:Hm;
      try discriminate.
    apply (IH _ _ H). apply (processModules_generated _ _ _ _ Hm Hinv).
Qed.

End Mangling.

Lemma generatedSoFar_initial ms : generatedSoFar (initialState ms).
Proof.
  split; [cbn; lia|]. intros _. cbn. repeat split.
  - constructor.
  - intros k [].
Qed.

(** The flipping loop that runs to its end has flipped every table. *)
Lemma flipTables_returns : forall tables flipped,
  flipTables tables = (flipped, false) ->
  Forall2 (fun before after =>
             fst after = fst before
             /\ flipObject (snd before) = Returns (snd after))
          tables flipped.
Proof.
  induction tables as [|[c t] tables IH]; intros flipped H; cbn [flipTables] in H.
  - injection H as <-. constructor.
  - destruct (flipObject t) as [t'|] eqn:Eflip; [|discriminate].
    destruct (flipTables tables) as [rest' threw]. injection H as <- ->.
    constructor; [split; [reflexivity | exact Eflip] | now apply IH].
Qed.

Lemma flipKeys_continue st st' :
  flipKeys st = Continue st' ->
  Forall2 (fun before after =>
             fst after = fst before
             /\ flipObject (snd before) = Returns (snd after))
          (keys st) (keys st')
  /\ generator st' = generator st /\ errors st' = errors st
  /\ store st' = store st.
Proof.
  unfold flipKeys. destruct (flipTables (keys st)) as [tables threw] eqn:E.
  destruct threw; [discriminate|]. intros [= <-]. cbn.
  split; [now apply flipTables_returns | auto].
Qed.

Lemma optimizeChunks_continue fuel this chunks st st' :
  optimizeChunks fuel this chunks st = Continue st' ->
  exists st1,
    processChunks fuel this chunks st = Continue st1
    /\ flipKeys st1 = Continue st'.
Proof.
  unfold optimizeChunks.
  destruct (processChunks fuel this chunks st) as [s1|s1|s1|]; try discriminate.
  intros H. now exists s1.
Qed.

(** *** Flipping *)

Lemma hasOwn_notin {V : Type} (o : object V) k :
  ~ In k (map fst o) -> hasOwn o k = false.
Proof.
  intros H. rewrite hasOwn_getOwn. destruct (getOwn o k) as [v|] eqn:E; [|reflexivity].
  exfalso. apply H. apply getOwn_In in E. apply (in_map fst) in E. exact E.
Qed.

Lemma setProperty_fresh acc k v :
  ~ In k (map fst acc) -> k <> "__proto__" ->
  Permutation (setProperty acc k v) ((k, v) :: acc).
Proof.
  intros Hnot Hproto. unfold setProperty.
  destruct (String.eqb_spec k "__proto__"); [contradiction|].
  unfold defineOwn. rewrite (hasOwn_notin _ _ Hnot).
  apply Permutation_insertKey.
Qed.

(** A table whose values are pairwise different and other than
    [__proto__] is flipped entry by entry. *)
Lemma flipObject_entries obj flipped :
  flipObject obj = Returns flipped ->
  NoDup (map snd obj) -> ~ In "__proto__" (map snd obj) ->
  Permutation flipped (map (fun e => (snd e, fst e)) obj).
Proof.
  unfold flipObject. destruct (hasOwn obj "hasOwnProperty"); [discriminate|].
  intros [= <-] Hnd Hproto.
  set (f := fun (newObj : object string) '(prop, v0) =>
              if hasOwn obj prop then setProperty newObj v0 prop else newObj).
  assert (Hfold : forall l acc,
             (forall e, In e l -> In e obj) ->
             NoDup (map snd l) -> ~ In "__proto__" (map snd l) ->
             (forall v, In v (map snd l) -> ~ In v (map fst acc)) ->
             Permutation (fold_left f l acc)
                         (map (fun e => (snd e, fst e)) l ++ acc)).
  { induction l as [|[p v] l IH]; intros acc Hsub Hn Hp Hfresh;
      [apply Permutation_refl|].
    cbn [fold_left map snd fst] in *.
    assert (Hf : f acc (p, v) = setProperty acc v p).
    { unfold f. now rewrite (hasOwn_In obj p v) by (apply Hsub; now left). }
    rewrite Hf. inversion Hn as [|? ? Hv Hn']; subst.
    assert (Hstep : Permutation (setProperty acc v p) ((v, p) :: acc)).
    { apply setProperty_fresh.
      - apply Hfresh. now left.
      - intros ->. apply Hp. now left. }
    eapply perm_trans.
    - apply IH.
      + intros e He. apply Hsub. now right.
      + exact Hn'.
      + intros H. apply Hp. now right.
      + intros v' Hv' Hin.
        apply (Permutation_in _ (Permutation_map fst Hstep)) in Hin.
        destruct Hin as [<-|Hin]; [contradiction|].
        apply (Hfresh v'); [now right | exact Hin].
    - eapply perm_trans; [apply Permutation_app_head, Hstep|].
      apply Permutation_sym, Permutation_middle. }
  specialize (Hfold obj [] (fun e H => H) Hnd Hproto (fun v _ H => H)).
  now rewrite app_nil_r in Hfold.
Qed.

Lemma flipObject_keys obj flipped :
  flipObject obj = Returns flipped ->
  NoDup (map snd obj) -> ~ In "__proto__" (map snd obj) ->
  Permutation (map fst flipped) (map snd obj).
Proof.
  intros Hflip Hnd Hproto.
  pose proof (Permutation_map fst (flipObject_entries obj flipped Hflip Hnd Hproto))
    as H.
  rewrite map_map in H. exact H.
Qed.

Lemma NoDup_app_parts {A : Type} (l1 l2 : list A) :
  NoDup (l1 ++ l2) ->
  NoDup l1 /\ NoDup l2 /\ forall x, In x l1 -> In x l2 -> False.
Proof.
  induction l1 as [|a l1 IH]; simpl; intros H.
  - repeat split; [constructor | exact H | intros x []].
  - inversion H as [|? ? Ha Hrest]; subst. destruct (IH Hrest) as (H1 & H2 & H3).
    repeat split.
    + constructor; [|exact H1]. intros Hin. apply Ha, in_or_app. now left.
    + exact H2.
    + intros x [<-|Hx] Hx2; [apply Ha, in_or_app; now right | eauto].
Qed.

Lemma flipKeys_tableKeys (tables flipped : object (object string)) :
  Forall2 (fun before after =>
             fst after = fst before
             /\ flipObject (snd before) = Returns (snd after))
          tables flipped ->
  NoDup (tableValues tables) -> ~ In "__proto__" (tableValues tables) ->
  Permutation (tableKeys flipped) (tableValues tables).
Proof.
  induction 1 as [|[c t] [c' t'] tables flipped [_ Hflip] Hall IH];
    intros Hnd Hproto; [apply Permutation_refl|].
  cbn [tableKeys tableValues flat_map snd] in *.
  destruct (NoDup_app_parts _ _ Hnd) as (H1 & H2 & _).
  apply Permutation_app.
  - apply (flipObject_keys t t' Hflip H1). intros H. apply Hproto, in_or_app. now left.
  - apply IH; [exact H2|]. intros H. apply Hproto, in_or_app. now right.
Qed.

Lemma generated_not_proto st :
  generatedSoFar st ->
  KeyGenerator.index (generator st) <= firstWrappedIndex ->
  ~ In "__proto__" (tableValues (keys st)).
Proof.
  intros [_ H] Hle Hin. destruct (H Hle) as (_ & _ & Hdec).
  destruct (Hdec _ Hin) as (n & _ & Hd). discriminate Hd.
Qed.

Lemma flipped_keys_distinct fuel this chunks ms st1 st' :
  mangle this = true ->
  processChunks fuel this chunks (initialState ms) = Continue st1 ->
  flipKeys st1 = Continue st' ->
  KeyGenerator.index (generator st') <= firstWrappedIndex ->
  NoDup (tableKeys (keys st'))
  /\ Z.of_nat (List.length (tableKeys (keys st')))
     = KeyGenerator.index (generator st').
Proof.
  intros Hmangle Hloops Hflip Hle.
  pose proof (processChunks_generated fuel this Hmangle _ _ _ Hloops
                (generatedSoFar_initial ms)) as Hinv.
  destruct (flipKeys_continue _ _ Hflip) as (Hall & Hgen & _).
  rewrite Hgen in *.
  pose proof (generated_not_proto _ Hinv Hle) as Hproto.
  destruct Hinv as [_ Hinv]. destruct (Hinv Hle) as (Hnd & Hlen & _).
  pose proof (flipKeys_tableKeys _ _ Hall Hnd Hproto) as Hperm.
  split.
  - apply (Permutation_NoDup (Permutation_sym Hperm) Hnd).
  - now rewrite (Permutation_length Hperm).
Qed.

(** X14.  With [mangle] on, a run of the handler from the state [apply]
    sets up that ends with at most [62 * 2^31] keys generated leaves
    tables in which no generated key occurs twice, neither in the table of
    one chunk nor in the tables of two chunks, and which have together as
    many entries as keys were generated: the one generator serves all
    chunks, and [flipObject] loses no entry. *)
Theorem mangled_keys_are_distinct fuel this chunks ms st' :
  mangle this = true ->
  optimizeChunks fuel this chunks (initialState ms) = Continue st' ->
  KeyGenerator.index (generator st') <= firstWrappedIndex ->
  NoDup (tableKeys (keys st'))
  /\ Z.of_nat (List.length (tableKeys (keys st'))) = KeyGenerator.index (generator st').
Proof.
  intros Hmangle Hrun Hle.
  destruct (optimizeChunks_continue _ _ _ _ _ Hrun) as (st1 & Hloops & Hflip).
  exact (flipped_keys_distinct fuel this chunks ms st1 st' Hmangle Hloops Hflip Hle).
Qed.

Lemma mangled_keys_are_distinct_witness :
  NoDup (tableKeys [("main", [("0", "a"); ("1", "b")]); ("other", [("2", "a")])])
  /\ Z.of_nat (List.length
                 (tableKeys [("main", [("0", "a"); ("1", "b")]); ("other", [("2", "a")])]))
     = 3.
Proof.
  apply (mangled_keys_are_distinct 10 manglingPlugin
           [mainChunk [0%nat]; {| name := "other"; modules := [1%nat] |}]
           [moduleOf "/src/a.js" "f(gettext('a'), gettext('b'))";
            moduleOf "/src/b.js" "gettext('a')"]
           {| keys := [("main", [("0", "a"); ("1", "b")]); ("other", [("2", "a")])];
              generator := {| KeyGenerator.index := 3 |};
              errors := [];
              store := [moduleOf "/src/a.js" "f(gettext('0'), gettext('1'))";
                        moduleOf "/src/b.js" "gettext('2')"] |}).
  - reflexivity.
  - vm_compute. reflexivity.
  - vm_compute. discriminate.
Defined.

(** *** The merge of the single file *)

Lemma In_setProperty_key o k v k' v' :
  In (k, v) (setProperty o k' v') ->
  (k = k' /\ v = v' /\ k' <> "__proto__") \/ In (k, v) o.
Proof.
  unfold setProperty.
  destruct (String.eqb_spec k' "__proto__") as [->|Hne]; [now right|].
  intros H. apply In_defineOwn in H. destruct H as [[= -> ->]|H]; auto.
Qed.

Lemma flipObject_not_proto obj flipped a o :
  flipObject obj = Returns flipped ->
  In (a, o) flipped -> a <> "__proto__".
Proof.
  unfold flipObject. destruct (hasOwn obj "hasOwnProperty"); [discriminate|].
  intros [= <-].
  set (f := fun (newObj : object string) '(prop, v0) =>
              if hasOwn obj prop then setProperty newObj v0 prop else newObj).
  assert (Hfold : forall l acc,
             (forall o', In (a, o') acc -> a <> "__proto__") ->
             In (a, o) (fold_left f l acc) -> a <> "__proto__").
  { induction l as [|[p v] l IH]; intros acc Hacc H; simpl in H; [eauto|].
    apply (IH _ ) in H; [exact H|].
    intros o' Ho'. unfold f in Ho'. destruct (hasOwn obj p); [|eauto].
    apply In_setProperty_key in Ho'. destruct Ho' as [(-> & _ & Hne)|Ho']; eauto. }
  apply Hfold. intros o' [].
Qed.

Lemma getOwn_objectAssign a o : forall entries target,
  a <> "__proto__" ->
  (forall o', In (a, o') entries -> o' = o) ->
  In (a, o) entries \/ getOwn target a = Some o ->
  getOwn (objectAssign target entries) a = Some o.
Proof.
  unfold objectAssign.
  induction entries as [|[k v] entries IH]; intros target Hproto Hsame Hhas; simpl.
  - destruct Hhas as [[]|H]. exact H.
  - apply IH; [exact Hproto | intros o' H; apply Hsame; now right |].
    destruct (String.eqb_spec k a) as [->|Hne].
    + right. rewrite (Hsame v) by now left. now apply getOwn_setProperty.
    + destruct Hhas as [[[= -> ->]|H]|H]; [contradiction | now left |].
      right. rewrite getOwn_setProperty_other by congruence. exact H.
Qed.

Lemma getOwn_mergeChunks a o : forall (tables : object (object string)) merged,
  a <> "__proto__" ->
  (forall c t o', In (c, t) tables -> In (a, o') t -> o' = o) ->
  (exists c t, In (c, t) tables /\ In (a, o) t) \/ getOwn merged a = Some o ->
  getOwn (fold_left (fun merged '(_, table) => objectAssign merged table)
                    tables merged) a
  = Some o.
Proof.
  induction tables as [|[c t] tables IH]; intros merged Hproto Hsame Hhas; simpl.
  - destruct Hhas as [(c & t & [] & _)|H]. exact H.
  - apply IH;
      [exact Hproto
      | intros c' t' o' H Ht; apply (Hsame c' t'); [now right | exact Ht] |].
    assert (Hhead : In (a, o) t \/ getOwn merged a = Some o ->
                    getOwn (objectAssign merged t) a = Some o).
    { apply getOwn_objectAssign; [exact Hproto|].
      intros o' H. apply (Hsame c t); [now left | exact H]. }
    destruct Hhas as [(c' & t' & [[= -> ->]|Hin] & Ht)|H]; eauto.
Qed.

Lemma NoDup_fst_unique (t : object string) a o1 o2 :
  NoDup (map fst t) -> In (a, o1) t -> In (a, o2) t -> o1 = o2.
Proof.
  induction t as [|[k v] t IH]; intros Hnd H1 H2; [destruct H1|].
  cbn [map fst] in Hnd. inversion Hnd as [|? ? Hk Hrest]; subst.
  destruct H1 as [H1|H1], H2 as [H2|H2].
  - congruence.
  - injection H1 as -> ->. exfalso. apply Hk. apply (in_map fst) in H2. exact H2.
  - injection H2 as -> ->. exfalso. apply Hk. apply (in_map fst) in H1. exact H1.
  - now apply IH.
Qed.

Lemma tableKeys_unique (tables : object (object string)) :
  forall c1 t1 c2 t2 a o1 o2,
  NoDup (tableKeys tables) ->
  In (c1, t1) tables -> In (a, o1) t1 ->
  In (c2, t2) tables -> In (a, o2) t2 ->
  o1 = o2.
Proof.
  induction tables as [|[c t] tables IH];
    intros c1 t1 c2 t2 a o1 o2 Hnd H1 Ha1 H2 Ha2; [destruct H1|].
  cbn [tableKeys flat_map snd] in Hnd.
  destruct (NoDup_app_parts _ _ Hnd) as (Hhead & Htail & Hdisjoint).
  assert (Hin : forall c' t' o', In (c', t') tables -> In (a, o') t' ->
                                 In a (tableKeys tables)).
  { intros c' t' o' Hc Ho. unfold tableKeys. apply in_flat_map.
    exists (c', t'). split; [exact Hc|]. apply (in_map fst) in Ho. exact Ho. }
  destruct H1 as [H1|H1], H2 as [H2|H2].
  - injection H1 as -> ->. injection H2 as _ <-. now apply (NoDup_fst_unique t1 a).
  - injection H1 as -> ->. exfalso.
    apply (Hdisjoint a); [apply (in_map fst) in Ha1; exact Ha1 | eauto].
  - injection H2 as -> ->. exfalso.
    apply (Hdisjoint a); [apply (in_map fst) in Ha2; exact Ha2 | eauto].
  - apply (IH c1 t1 c2 t2 a); assumption.
Qed.

Lemma flipped_table_origin (tables flipped : object (object string)) :
  Forall2 (fun before after =>
             fst after = fst before
             /\ flipObject (snd before) = Returns (snd after))
          tables flipped ->
  forall c t, In (c, t) flipped ->
  exists t0, In (c, t0) tables /\ flipObject t0 = Returns t.
Proof.
  induction 1 as [|[c0 t0] [c1 t1] tables flipped [Hname Hflip] Hall IH];
    intros c t Hin; [destruct Hin|].
  cbn [fst snd] in *. destruct Hin as [[= -> ->]|Hin].
  - exists t0. subst c0. split; [now left | exact Hflip].
  - destruct (IH c t Hin) as (t' & Hin' & Hf). exists t'. split; [now right | exact Hf].
Qed.

(** X15.  The single file loses nothing.  After a run of the handler from
    the state [apply] sets up (with [mangle] off, or with [mangle] on and
    at most [62 * 2^31] keys generated), every entry of every chunk's table
    is an entry of the object the [done] handler merges for the single
    file: no entry of one chunk is overwritten by a different entry of
    another. *)
Theorem single_file_output_is_lossless fuel this chunks ms st' c t a o :
  optimizeChunks fuel this chunks (initialState ms) = Continue st' ->
  (mangle this = true -> KeyGenerator.index (generator st') <= firstWrappedIndex) ->
  In (c, t) (keys st') -> In (a, o) t ->
  getOwn (mergeChunks (keys st')) a = Some o.
Proof.
  intros Hrun Hbound Hc Ha.
  assert (Hproto : a <> "__proto__").
  { destruct (optimizeChunks_continue _ _ _ _ _ Hrun) as (st1 & _ & Hflip).
    destruct (flipKeys_continue _ _ Hflip) as (Hall & _).
    destruct (flipped_table_origin _ _ Hall c t Hc) as (t0 & _ & Hf).
    now apply (flipObject_not_proto t0 t a o). }
  unfold mergeChunks. apply getOwn_mergeChunks; [exact Hproto | | eauto].
  intros c' t' o' Hc' Ha'.
  destruct (mangle this) eqn:Hmangle.
  - destruct (optimizeChunks_continue _ _ _ _ _ Hrun) as (st1 & Hloops & Hflip).
    destruct (flipped_keys_distinct fuel this chunks ms st1 st' Hmangle Hloops Hflip)
      as [Hnd _]; [now apply Hbound|].
    apply (tableKeys_unique _ c' t' c t a o' o Hnd); assumption.
  - pose proof (proj1 (optimizeChunks_plain fuel this Hmangle chunks (initialState ms)))
      as Hplain.
    rewrite Hrun in Hplain. destruct Hplain as [_ Hid].
    assert (Hidentity : identityKeys st') by (apply Hid; intros ? ? []).
    rewrite <- (Hidentity c t Hc a o Ha). now rewrite <- (Hidentity c' t' Hc' a o' Ha').
Qed.

Lemma single_file_output_is_lossless_witness :
  getOwn (mergeChunks [("main", [("0", "a"); ("1", "b")]); ("other", [("2", "a")])]) "2"
  = Some "a".
Proof.
  apply (single_file_output_is_lossless 10 manglingPlugin
           [mainChunk [0%nat]; {| name := "other"; modules := [1%nat] |}]
           [moduleOf "/src/a.js" "f(gettext('a'), gettext('b'))";
            moduleOf "/src/b.js" "gettext('a')"]
           {| keys := [("main", [("0", "a"); ("1", "b")]); ("other", [("2", "a")])];
              generator := {| KeyGenerator.index := 3 |};
              errors := [];
              store := [moduleOf "/src/a.js" "f(gettext('0'), gettext('1'))";
                        moduleOf "/src/b.js" "gettext('2')"] |}
           "other" [("2", "a")] "2" "a").
  - vm_compute. reflexivity.
  - intros _. vm_compute. discriminate.
  - right. left. reflexivity.
  - left. reflexivity.
Defined.

(** *** The [done] handler *)

Lemma safeChunkName_collapse chunkName :
  safeChunkName chunkName = collapseRuns false chunkName.
Proof.
  unfold safeChunkName, stringReplace.
  change (global unsafeCharacters) with true. cbv iota.
  now rewrite (substitute_unsafeCharacters chunkName
                 (S (String.length chunkName)) 0) by lia.
Qed.

Lemma collapseRuns_safe : forall s inRun,
  allCharacters safeCharacter (collapseRuns inRun s) = true.
Proof.
  induction s as [|c s IH]; intros inRun; simpl; [reflexivity|].
  destruct (safeCharacter c) eqn:E.
  - simpl. now rewrite E, IH.
  - destruct inRun; [apply IH|]. cbn [allCharacters]. rewrite IH. reflexivity.
Qed.

Lemma collapseRuns_fixed s :
  allCharacters safeCharacter s = true -> collapseRuns false s = s.
Proof.
  induction s as [|c s IH]; simpl; [reflexivity|].
  intros H. apply andb_true_iff in H. destruct H as [Hc Hs].
  now rewrite Hc, IH.
Qed.

(** X16.  The name [safeChunkName] makes of a chunk name has only letters,
    digits and the characters [.], [-] and [_]; a name that has only such
    characters is kept as it is, so making a name safe twice is the same
    as making it safe once. *)
Theorem safeChunkName_is_safe chunkName :
  allCharacters safeCharacter (safeChunkName chunkName) = true
  /\ safeChunkName (safeChunkName chunkName) = safeChunkName chunkName
  /\ (allCharacters safeCharacter chunkName = true ->
      safeChunkName chunkName = chunkName).
Proof.
  assert (Hsafe : allCharacters safeCharacter (safeChunkName chunkName) = true)
    by (rewrite safeChunkName_collapse; apply collapseRuns_safe).
  repeat split.
  - exact Hsafe.
  - rewrite (safeChunkName_collapse (safeChunkName chunkName)).
    now apply collapseRuns_fixed.
  - intros H. rewrite safeChunkName_collapse. now apply collapseRuns_fixed.
Qed.

Lemma safeChunkName_is_safe_witness : safeChunkName "main.v2" = "main.v2".
Proof.
  apply (proj2 (proj2 (safeChunkName_is_safe "main.v2"))). reflexivity.
Defined.

(** A replacement text without [$] is taken as it is. *)
Lemma getSubstitution_safe matchedText str position caps : forall replacement,
  allCharacters safeCharacter replacement = true ->
  getSubstitution matchedText str position caps replacement = replacement.
Proof.
  induction replacement as [|c r IH]; [reflexivity|].
  cbn [allCharacters]. intros H. apply andb_true_iff in H. destruct H as [Hc Hr].
  specialize (IH Hr).
  destruct c as [[] [] [] [] [] [] [] []];
    try discriminate Hc; cbn [getSubstitution]; now rewrite IH.
Qed.

Lemma matchAt_literal R s str i :
  source R = literal s -> ignoreCase R = false ->
  matchAt R str i
  = if startsWith s (drop i str)
    then Some {| endIndex := i + String.length s; captures := [] |}
    else None.
Proof.
  intros Hs Hi. unfold matchAt. rewrite Hs, Hi, groupCount_literal. cbn [repeat].
  rewrite matchRe_literal. now destruct (startsWith s (drop i str)).
Qed.

Lemma search_literal R s str :
  source R = literal s -> ignoreCase R = false ->
  forall steps i,
    steps = S (String.length str - i) -> (i <= String.length str)%nat ->
    search R str steps i
    = option_map (fun j => ((i + j)%nat,
                            {| endIndex := i + j + String.length s; captures := [] |}))
                 (indexOf s (drop i str)).
Proof.
  intros Hs Hi. induction steps as [|steps IH]; intros i Hsteps Hle; [discriminate|].
  cbn [search]. rewrite (matchAt_literal R s str i Hs Hi).
  pose proof (length_drop i str) as Hlen.
  destruct (drop i str) as [|c rest] eqn:E.
  - cbn [indexOf]. destruct (startsWith s ""); cbn [option_map].
    + now rewrite Nat.add_0_r.
    + cbn [String.length] in Hlen. destruct steps; [reflexivity | lia].
  - cbn [indexOf]. destruct (startsWith s (String c rest)); cbn [option_map].
    + now rewrite Nat.add_0_r.
    + cbn [String.length] in Hlen. rewrite IH by lia.
      rewrite (drop_succ _ _ _ _ E).
      destruct (indexOf s rest) as [j|]; cbn [option_map]; [|reflexivity].
      now replace (i + S j)%nat with (S i + j)%nat by lia.
Qed.

Lemma stringMatch_chunkToken out :
  stringMatch out chunkToken
  = match indexOf "[chunk]" out with
    | Some _ => Some [Some "[chunk]"]
    | None => None
    end
  \/ exists position,
       indexOf "[chunk]" out = Some position /\ stringMatch out chunkToken <> None.
Proof.
  unfold stringMatch, regExpExec. change (global chunkToken) with false. cbv iota.
  destruct (String.length out <? 0)%nat eqn:E; [apply Nat.ltb_lt in E; lia|].
  rewrite (search_literal chunkToken "[chunk]" out eq_refl eq_refl) by lia.
  replace (drop 0 out) with out by now destruct out.
  destruct (indexOf "[chunk]" out) as [position|]; cbn.
  - right. exists position. split; [reflexivity | discriminate].
  - now left.
Qed.

(** X17.  What the [done] handler writes.  Without a non-empty [output]
    it writes nothing.  Otherwise the first [[child]] of [output] is
    replaced by the name of the compiler; when the result has no
    [[chunk]], one file of that name is written with the merged tables;
    when it has, one file is written for every chunk, in the order of the
    tables, each with the table of its chunk and with the name in which the
    first [[chunk]] (and only the first) is replaced by the safe name of
    the chunk, taken as it is. *)
Theorem done_writes stringify this tables compilerName :
  snd (done stringify this tables compilerName)
  = if truthyString (output this) then
      let out := stringReplaceString (toStringValue (output this)) "[child]"
                                     (toStringValue compilerName) in
      match indexOf "[chunk]" out with
      | None => [(out, stringify (mergeChunks tables))]
      | Some position =>
          map (fun '(chunkName, table) =>
                 (take position out ++ safeChunkName chunkName
                  ++ drop (position + 7) out,
                  stringify table))
              tables
      end
    else [].
Proof.
  unfold done. destruct (truthyString (output this)); [|reflexivity].
  cbv zeta.
  set (out := stringReplaceString (toStringValue (output this)) "[child]"
                                  (toStringValue compilerName)).
  destruct (stringMatch_chunkToken out) as [H | (position & Hpos & Hmatch)].
  - rewrite H. destruct (indexOf "[chunk]" out) as [position|] eqn:Hpos;
      [|reflexivity].
    cbn [snd]. apply map_ext. intros [chunkName table].
    unfold stringReplaceString. rewrite Hpos.
    rewrite getSubstitution_safe
      by (rewrite safeChunkName_collapse; apply collapseRuns_safe).
    reflexivity.
  - rewrite Hpos. destruct (stringMatch out chunkToken); [|contradiction].
    cbn [snd]. apply map_ext. intros [chunkName table].
    unfold stringReplaceString. rewrite Hpos.
    rewrite getSubstitution_safe
      by (rewrite safeChunkName_collapse; apply collapseRuns_safe).
    reflexivity.
Qed.

(** X18.  In the merge for the single file the last chunk wins: a key
    other than [__proto__] gets the value it has in the last table that has
    it. *)
Theorem merge_last_chunk_wins tables before c table after k v :
  tables = (before ++ (c, table) :: after)%list ->
  getOwn table k = Some v ->
  (forall v', In (k, v') table -> v' = v) ->
  (forall c' table' v', In (c', table') after -> ~ In (k, v') table') ->
  k <> "__proto__" ->
  getOwn (mergeChunks tables) k = Some v.
Proof.
  intros -> Hk Hfun Hlast Hproto. unfold mergeChunks. rewrite fold_left_app.
  apply getOwn_mergeChunks; [exact Hproto | |].
  - intros c' t' v' [[= <- <-]|Hin] Hv; [now apply Hfun|].
    now destruct (Hlast c' t' v' Hin).
  - left. exists c, table. split; [now left | now apply getOwn_In].
Qed.

Lemma merge_last_chunk_wins_witness :
  getOwn (mergeChunks [("a", [("k", "1")]); ("b", [("k", "2"); ("l", "3")]);
                       ("c", [("l", "4")])]) "k"
  = Some "2".
Proof.
  apply (merge_last_chunk_wins _ [("a", [("k", "1")])] "b" [("k", "2"); ("l", "3")]
           [("c", [("l", "4")])] "k" "2").
  - reflexivity.
  - reflexivity.
  - intros v' [[= <-]|[[=]|[]]]. reflexivity.
  - intros c' table' v' [[= <- <-]|[]] [[=]|[]].
  - discriminate.
Defined.

(** *** The constructor *)

(** X19.  A plugin the constructor returns has a non-empty
    [functionReplace]; its [functionPattern] is either the default one or
    the one of the options, and then [functionReplace] is the one of the
    options too: a pattern of the user is never paired with the default
    replacement.  A number given as [groupIndex] is wrapped into an array. *)
Theorem constructed_plugin_is_consistent options this :
  construct options = Constructed this ->
  functionReplace this <> EmptyString
  /\ (functionPattern this = PatternRegExp defaultFunctionPattern
      /\ truthyPattern (opt_functionPattern options) = false
      \/ opt_functionPattern options = Some (functionPattern this)
         /\ opt_functionReplace options = Some (functionReplace this))
  /\ (forall i, opt_groupIndex options = Some (GroupNumber i) -> i <> 0 ->
                groupIndex this = [i])
  /\ (forall indices, opt_groupIndex options = Some (GroupArray indices) ->
                      groupIndex this = indices).
Proof.
  destruct options as [pat rep gi o mg mf]. unfold construct.
  cbn [opt_functionPattern opt_functionReplace opt_groupIndex opt_output
       opt_mangle opt_moduleFilter].
  assert (Hgroup :
    (forall i, gi = Some (GroupNumber i) -> i <> 0 ->
               match gi with
               | Some g => if truthyGroupIndex (Some g)
                           then match g with
                                | GroupNumber i => [i]
                                | GroupArray indices => indices
                                end
                           else defaultGroupIndex
               | None => defaultGroupIndex
               end = [i])
    /\ (forall indices, gi = Some (GroupArray indices) ->
               match gi with
               | Some g => if truthyGroupIndex (Some g)
                           then match g with
                                | GroupNumber i => [i]
                                | GroupArray indices => indices
                                end
                           else defaultGroupIndex
               | None => defaultGroupIndex
               end = indices)).
  { split.
    - intros i -> Hi. cbn [truthyGroupIndex].
      destruct (Z.eqb_spec i 0); [contradiction | reflexivity].
    - now intros indices ->. }
  destruct pat as [[R|[|c s]]|], rep as [[|c' s']|];
    cbn [truthyPattern truthyString andb negb]; try discriminate;
    intros [= <-]; cbn [functionReplace functionPattern groupIndex];
    (split; [discriminate|]); (split; [|exact Hgroup]);
    try (left; split; reflexivity); right; split; reflexivity.
Qed.

Lemma constructed_plugin_is_consistent_witness :
  functionReplace manglingPlugin <> EmptyString
  /\ (functionPattern manglingPlugin = PatternRegExp defaultFunctionPattern
      /\ truthyPattern (opt_functionPattern mangleOnly) = false
      \/ opt_functionPattern mangleOnly = Some (functionPattern manglingPlugin)
         /\ opt_functionReplace mangleOnly = Some (functionReplace manglingPlugin))
  /\ (forall i, opt_groupIndex mangleOnly = Some (GroupNumber i) -> i <> 0 ->
                groupIndex manglingPlugin = [i])
  /\ (forall indices, opt_groupIndex mangleOnly = Some (GroupArray indices) ->
                      groupIndex manglingPlugin = indices).
Proof.
  apply (constructed_plugin_is_consistent mangleOnly manglingPlugin).
  reflexivity.
Defined.

(** X20.  Flipping twice gives the table back: when the keys of a table
    are pairwise different, its values are pairwise different and neither
    [__proto__] nor [hasOwnProperty] is a key or a value, [flipObject]
    returns on the table and on its result, and the second result has the
    entries of the table (in an order that may differ). *)
Theorem flipObject_twice obj :
  NoDup (map fst obj) -> NoDup (map snd obj) ->
  ~ In "__proto__" (map fst obj) -> ~ In "__proto__" (map snd obj) ->
  ~ In "hasOwnProperty" (map fst obj) -> ~ In "hasOwnProperty" (map snd obj) ->
  exists once twice,
    flipObject obj = Returns once
    /\ flipObject once = Returns twice
    /\ Permutation twice obj.
Proof.
  intros Hkeys Hvalues Hpk Hpv Hhk Hhv.
  destruct (flipObject obj) as [once|] eqn:Eonce.
  2:{ unfold flipObject in Eonce. rewrite (hasOwn_notin _ _ Hhk) in Eonce.
      discriminate. }
  pose proof (flipObject_entries obj once Eonce Hvalues Hpv) as Hflip.
  assert (Hfst : Permutation (map fst once) (map snd obj)).
  { pose proof (Permutation_map fst Hflip) as H. rewrite map_map in H. exact H. }
  assert (Hsnd : Permutation (map snd once) (map fst obj)).
  { pose proof (Permutation_map snd Hflip) as H. rewrite map_map in H. exact H. }
  destruct (flipObject once) as [twice|] eqn:Etwice.
  2:{ unfold flipObject in Etwice. rewrite hasOwn_notin in Etwice; [discriminate|].
      intros H. apply Hhv. apply (Permutation_in _ Hfst H). }
  exists once, twice. split; [reflexivity|]. split; [exact Etwice|].
  eapply perm_trans.
  - apply (flipObject_entries once twice Etwice).
    + apply (Permutation_NoDup (Permutation_sym Hsnd) Hkeys).
    + intros H. apply Hpk. apply (Permutation_in _ Hsnd H).
  - eapply perm_trans;
      [apply (Permutation_map (fun e => (snd e, fst e)) Hflip)|].
    rewrite map_map. cbn [fst snd].
    rewrite (map_ext _ (fun e => e)) by (now intros [k v]).
    rewrite map_id. apply Permutation_refl.
Qed.

Lemma flipObject_twice_witness :
  exists once twice,
    flipObject [("b", "1"); ("a", "0")] = Returns once
    /\ flipObject once = Returns twice
    /\ Permutation twice [("b", "1"); ("a", "0")].
Proof.
  apply (flipObject_twice [("b", "1"); ("a", "0")]).
  - apply NoDup_cons; [simpl; intros [H|[]]; discriminate H|].
    apply NoDup_cons; [simpl; intros []|]. apply NoDup_nil.
  - apply NoDup_cons; [simpl; intros [H|[]]; discriminate H|].
    apply NoDup_cons; [simpl; intros []|]. apply NoDup_nil.
  - simpl. intros [H|[H|[]]]; discriminate H.
  - simpl. intros [H|[H|[]]]; discriminate H.
  - simpl. intros [H|[H|[]]]; discriminate H.
  - simpl. intros [H|[H|[]]]; discriminate H.
Defined.

(** A value [hasOwnProperty] becomes a key on which the second flip
    throws. *)
Example flipObject_twice_throws :
  flipObject [("a", "hasOwnProperty")] = Returns [("hasOwnProperty", "a")]
  /\ flipObject [("hasOwnProperty", "a")] = ThrowsTypeError.
Proof. split; reflexivity. Qed.

(** *** A pattern given as a string *)

(** X21.  A [functionPattern] given as a string is searched as it is
    written and has no group.  Unless [groupIndex] has the index 0, the
    first occurrence of the string in the source of a module that passes
    the filter stops the handler with the error about the capture block;
    a module without an occurrence is left as it is. *)
Theorem string_pattern_has_no_key fuel this chunkName id st module text s :
  functionPattern this = PatternString s ->
  (forall i, In i (groupIndex this) -> i <> 0) ->
  nth_error (store st) id = Some module ->
  truthyString (userRequest module) = true ->
  filterModule (userRequest module) (moduleFilter this) = Returns true ->
  sourceValue module = Some text ->
  fuel <> O ->
  processModule fuel this chunkName id st
  = match indexOf s text with
    | Some _ => ReturnFalse (pushError st captureBlockError)
    | None => Continue st
    end.
Proof.
  intros Hpattern Hgroup Hid Htruthy Hfilter Htext Hfuel.
  unfold processModule. rewrite Hid, Htruthy, Hfilter, Htext, Hpattern.
  cbn [ensureRegExp]. rewrite newRegExp_sanitized.
  destruct fuel as [|n]; [contradiction|]. cbn [scan].
  set (R := {| source := literal s; global := true;
               ignoreCase := false; multiline := true |}).
  unfold regExpExec. change (global R) with true. cbv iota.
  destruct (String.length text <? 0)%nat eqn:E;
    [apply Nat.ltb_lt in E; lia|].
  rewrite (search_literal R s text eq_refl eq_refl) by lia.
  replace (drop 0 text) with text by now destruct text.
  destruct (indexOf s text) as [j|]; cbn [option_map].
  - unfold processMatch. rewrite getKeyIndexFromMatch_none; [reflexivity|].
    intros i Hi. unfold element. cbn [elements].
    specialize (Hgroup i Hi).
    destruct (Z.ltb_spec i 0); [reflexivity|].
    destruct (Z.to_nat i) as [|k] eqn:Ek; [lia|]. now destruct k.
  - rewrite (setSource_same _ _ _ _ Hid Htext). now destruct st.
Qed.

Lemma string_pattern_has_no_key_witness :
  processModule 10
    {| functionPattern := PatternString "t(";
       functionReplace := "t($1";
       groupIndex := [1];
       output := None; mangle := false;
       moduleFilter := [] |}
    "main" 0 (initialState [moduleOf "/src/a.js" "f(t('a'))"])
  = match indexOf "t(" "f(t('a'))" with
    | Some _ => ReturnFalse (pushError (initialState [moduleOf "/src/a.js" "f(t('a'))"])
                                       captureBlockError)
    | None => Continue (initialState [moduleOf "/src/a.js" "f(t('a'))"])
    end.
Proof.
  apply (string_pattern_has_no_key 10
           {| functionPattern := PatternString "t(";
              functionReplace := "t($1";
              groupIndex := [1];
              output := None; mangle := false;
              moduleFilter := [] |}
           "main" 0 (initialState [moduleOf "/src/a.js" "f(t('a'))"])
           (moduleOf "/src/a.js" "f(t('a'))") "f(t('a'))" "t(").
  - reflexivity.
  - intros i [<-|[]]. discriminate.
  - reflexivity.
  - reflexivity.
  - reflexivity.
  - reflexivity.
  - discriminate.
Defined.

(** *** Entries are kept *)

Lemma getOwn_defineOwn {V : Type} (o : object V) k v :
  getOwn (defineOwn o k v) k = Some v.
Proof.
  unfold defineOwn. destruct (hasOwn o k) eqn:E;
    [now apply getOwn_updateKey | now apply getOwn_insertKey].
Qed.

Lemma getOwn_defineOwn_other {V : Type} (o : object V) k v k' :
  k' <> k -> getOwn (defineOwn o k v) k' = getOwn o k'.
Proof.
  intros Hne. unfold defineOwn. destruct (hasOwn o k);
    [now apply getOwn_updateKey_other | now apply getOwn_insertKey_other].
Qed.

Lemma keepsEntries_refl st : keepsEntries st st.
Proof. intros c t k v Hc Hk. eauto. Qed.

Lemma keepsEntries_trans st1 st2 st3 :
  keepsEntries st1 st2 -> keepsEntries st2 st3 -> keepsEntries st1 st3.
Proof.
  intros H12 H23 c t k v Hc Hk.
  destruct (H12 c t k v Hc Hk) as (t2 & Hc2 & Hk2). eauto.
Qed.

Lemma assignKey_keeps fuel this value table gen key table' gen' :
  assignKey fuel this value table gen = Some (key, table', gen') ->
  forall k v, getOwn table k = Some v -> getOwn table' k = Some v.
Proof.
  unfold assignKey. destruct (hasProperty table value) eqn:Hhas.
  - now intros [= _ <- _].
  - assert (Hfresh : forall k v key0,
               getOwn table k = Some v ->
               getOwn (setProperty table value key0) k = Some v).
    { intros k v key0 Hk. rewrite getOwn_setProperty_other; [exact Hk|].
      intros ->. unfold hasProperty in Hhas. apply orb_false_iff in Hhas.
      destruct Hhas as [Hown _]. rewrite hasOwn_getOwn, Hk in Hown.
      discriminate. }
    destruct (mangle this).
    + destruct (next fuel gen) as [[key0 gen0]|]; [|discriminate].
      intros [= _ <- _]. intros k v. apply Hfresh.
    + intros [= _ <- _]. intros k v. apply Hfresh.
Qed.

Section Kept.

Variable fuel : nat.
Variable this : ExtractTranslationRegexPlugin.

Lemma defineOwn_keeps st chunkName table' st' :
  (forall k v,
     getOwn (match getOwn (keys st) chunkName with Some t => t | None => [] end) k
     = Some v ->
     getOwn table' k = Some v) ->
  keys st' = defineOwn (keys st) chunkName table' ->
  keepsEntries st st'.
Proof.
  intros Htable Hkeys c t k v Hc Hk. rewrite Hkeys.
  destruct (String.eqb_spec c chunkName) as [->|Hne].
  - exists table'. split; [apply getOwn_defineOwn|].
    apply Htable. now rewrite Hc.
  - exists t. split; [|exact Hk]. now rewrite getOwn_defineOwn_other.
Qed.

Lemma processMatch_keeps chunkName m st source :
  leaves fst (keepsEntries st) (processMatch fuel this chunkName m st source).
Proof.
  unfold processMatch.
  destruct (getKeyIndexFromMatch m (groupIndex this) =? -1);
    [intros c t k v Hc Hk; cbn; eauto|].
  destruct (assignKey fuel this _ _ (generator st)) as [[[key table'] gen']|] eqn:Ha;
    [|exact I].
  pose proof (assignKey_keeps _ _ _ _ _ _ _ _ Ha) as Htable.
  destruct (mangle this).
  - destruct (rewriteSource this m _ key source); cbn [leaves fst];
      now apply (defineOwn_keeps st chunkName table').
  - cbn [leaves fst]. now apply (defineOwn_keeps st chunkName table').
Qed.

Lemma scan_keeps chunkName regex : forall n st source lastIndex,
  leaves fst (keepsEntries st) (scan fuel this n chunkName regex st source lastIndex).
Proof.
  induction n as [|n IH]; intros st source lastIndex; [exact I|].
  cbn [scan].
  destruct (regExpExec regex source lastIndex) as [[m|] lastIndex'];
    [|apply keepsEntries_refl].
  pose proof (processMatch_keeps chunkName m st source) as Hm.
  destruct (processMatch fuel this chunkName m st source) as [[s1 src1]|s1|s1|];
    cbn [leaves fst] in Hm |- *; try exact Hm.
  specialize (IH s1 src1 lastIndex').
  destruct (scan fuel this n chunkName regex s1 src1 lastIndex') as [[s2 src2]|s2|s2|];
    cbn [leaves fst] in IH |- *;
    try exact I; apply (keepsEntries_trans _ _ _ Hm IH).
Qed.

Lemma processModule_keeps chunkName id st :
  leaves (fun st' => st') (keepsEntries st) (processModule fuel this chunkName id st).
Proof.
  unfold processModule.
  destruct (nth_error (store st) id) as [module|]; [|apply keepsEntries_refl].
  destruct (truthyString (userRequest module)); [|apply keepsEntries_refl].
  destruct (filterModule (userRequest module) (moduleFilter this)) as [[|]|];
    try apply keepsEntries_refl.
  destruct (sourceValue module) as [text|]; [|apply keepsEntries_refl].
  destruct (ensureRegExp (functionPattern this)) as [regex|];
    [|apply keepsEntries_refl].
  pose proof (scan_keeps chunkName regex fuel st text 0) as Hs.
  destruct (scan fuel this fuel chunkName regex st text 0)
    as [[s1 src]|s1|s1|]; cbn [leaves fst] in Hs |- *; exact Hs.
Qed.

Lemma processModules_keeps chunkName : forall ids st,
  leaves (fun st' => st') (keepsEntries st)
         (processModules fuel this chunkName ids st).
Proof.
  induction ids as [|id ids IH]; intros st; [apply keepsEntries_refl|].
  cbn [processModules].
  pose proof (processModule_keeps chunkName id st) as Hm.
  destruct (processModule fuel this chunkName id st) as [s1|s1|s1|];
    cbn [leaves] in Hm |- *; try exact Hm.
  specialize (IH s1).
  destruct (processModules fuel this chunkName ids s1) as [s2|s2|s2|];
    cbn [leaves] in IH |- *; try exact I; apply (keepsEntries_trans _ _ _ Hm IH).
Qed.

End Kept.

(** X22.  The loops of the handler never remove an entry and never change
    one: whatever the options, the chunks and the modules are and however
    the loops end, an entry a chunk's table had before is an entry of the
    table of that chunk afterwards.  So the first key assigned to an
    original key stays. *)
Theorem entries_are_kept fuel this : forall chunks st,
  match processChunks fuel this chunks st with
  | Continue st' => keepsEntries st st'
  | ReturnFalse st' => keepsEntries st st'
  | Throws st' => keepsEntries st st'
  | OutOfFuel => True
  end.
Proof.
  induction chunks as [|c chunks IH]; intros st; [apply keepsEntries_refl|].
  cbn [processChunks].
  pose proof (processModules_keeps fuel this (name c) (modules c) st) as Hm.
  destruct (processModules fuel this (name c) (modules c) st) as [s1|s1|s1|];
    cbn [leaves] in Hm; try exact Hm.
  specialize (IH s1).
  destruct (processChunks fuel this chunks s1) as [s2|s2|s2|];
    try exact I; apply (keepsEntries_trans _ _ _ Hm IH).
Qed.

(** X23.  Without mangling a key is recorded at first sight: after a
    match whose key is not the name of a property that a table inherits,
    the table of the chunk has the key, mapped to itself. *)
Theorem plain_key_is_recorded fuel this chunkName m st source st' source' :
  mangle this = false -> identityKeys st ->
  processMatch fuel this chunkName m st source = Continue (st', source') ->
  existsb (String.eqb (valueAt m (getKeyIndexFromMatch m (groupIndex this))))
          objectPrototype = false ->
  exists table,
    getOwn (keys st') chunkName = Some table
    /\ getOwn table (valueAt m (getKeyIndexFromMatch m (groupIndex this)))
       = Some (valueAt m (getKeyIndexFromMatch m (groupIndex this))).
Proof.
  intros Hplain Hid Hmatch Hname. revert Hmatch. unfold processMatch, assignKey.
  destruct (getKeyIndexFromMatch m (groupIndex this) =? -1); [discriminate|].
  set (value := valueAt m (getKeyIndexFromMatch m (groupIndex this))) in *.
  set (table := match getOwn (keys st) chunkName with Some t => t | None => [] end).
  rewrite Hplain.
  destruct (hasProperty table value) eqn:Hhas; intros [= <- _]; cbn [keys];
    eexists; (split; [apply getOwn_defineOwn|]).
  - unfold hasProperty in Hhas. rewrite Hname, orb_false_r in Hhas.
    rewrite hasOwn_getOwn in Hhas.
    destruct (getOwn table value) as [v|] eqn:E; [|discriminate].
    f_equal. symmetry. subst table.
    destruct (getOwn (keys st) chunkName) as [t|] eqn:Et; [|discriminate].
    apply getOwn_In in Et, E. exact (Hid _ _ Et _ _ E).
  - apply getOwn_setProperty. intros Hproto. rewrite Hproto in Hname.
    discriminate.
Qed.

Lemma plain_key_is_recorded_witness :
  exists table,
    getOwn [("main", [("k1", "k1")])] "main" = Some table
    /\ getOwn table "k1" = Some "k1".
Proof.
  apply (plain_key_is_recorded 10 plainPlugin "main"
           {| JS.index := 0;
              elements := [Some "gettext('k1'"; None; None; Some "k1"; Some "'"] |}
           (initialState [moduleOf "/src/a.js" "gettext('k1')"])
           "gettext('k1')"
           {| keys := [("main", [("k1", "k1")])];
              generator := KeyGenerator.create; errors := [];
              store := [moduleOf "/src/a.js" "gettext('k1')"] |}
           "gettext('k1')").
  - reflexivity.
  - intros c t [].
  - vm_compute. reflexivity.
  - vm_compute. reflexivity.
Defined.

End ExtraFacts.
